(** * Image-To-DepthWebViewer: the decode-and-reconstruct pipeline of
    [webapp/src/geometry.js]

    A shallow embedding of the RGBDE pipeline: depth decoding
    ([decodeRgbdeFile]), the two denoiser passes ([reduceDepthSpikes],
    [applyEdgeAwareSmooth]), mesh density selection ([findBestMeshSize]),
    mesh reconstruction ([generatePerspectiveMesh], [sampleDepth]) and live
    depth remapping ([updateVertexPositions]).

    Number model.
    - Sizes, loop counters, array indices and the 32-bit depth word are [Z];
      the int32/uint32 conversions of the bit operators are written out.
    - The numbers of the vertex and depth arithmetic are rationals [Q]:
      the binary64 operations of the source are taken without their
      rounding steps, and without NaN. A store into a [Float32Array] of a
      decoded depth or of a mesh array rounds to binary32 ([fround]), as
      the source does; what is kept in a binary64 variable ([depthMin],
      [baseMinZ], ...) is not rounded. The two denoiser passes are taken
      on the grid of rationals, before the rounding of their stores.
      Infinite initial values and the [farClip] option use [number], which
      adds the non-finite values.
    - [Math.exp], [Math.log], [Math.pow], [Math.sqrt], [Math.tan],
      [Math.atan], [Math.hypot] and [Math.PI] have no rational counterpart;
      they are the fields of the class [MathLib], and every theorem holds for
      every instance (with the stated law where one is needed).
    - [findBestMeshSize] is evaluated at a concrete input and needs
      [Math.sqrt] and [Math.round]: it is embedded over binary64 ([float]),
      operation for operation.
    - Typed arrays that are mutated in place through a mesh live in a heap
      ([gmap] from references to arrays); a mesh holds references, as the
      object does.
    - A read outside a typed array is [undefined] in the source; the
      theorems state the array lengths under which every read is inside. *)

From Stdlib Require Import ZArith QArith Qround Qminmax Qabs Qpower Lia Lqa List.
From Stdlib Require Import Floats String.
From stdpp Require Import base list gmap.

Set Warnings "-inexact-float".
Local Open Scope Z_scope.
Local Open Scope list_scope.

(* ===================================================================== *)
(** ** Constants of the module *)
(* ===================================================================== *)

Definition TARGET_MESH : Z := 250000.
Definition MESH_DIFF : Z := 2000.
Definition MIN_DEPTH_CLAMP : Q := 0.15.
Definition OFFSET : Q := 0.3.
Definition CENTER_Z_MIN : Q := -4.0.
Definition CENTER_Z_MAX : Q := -0.25.
Definition DEPTH_SPIKE_THRESHOLD : Q := 0.45.
Definition DEPTH_STABLE_TOLERANCE : Q := 0.12.
Definition COLOR_EDGE_THRESHOLD : Q := 0.1.
Definition SMOOTH_BLEND : Q := 0.3.
Definition BILATERAL_DEPTH_SIGMA : Q := 0.35.
Definition BILATERAL_COLOR_SIGMA : Q := 0.08.

Definition SPATIAL_KERNEL : list Q :=
  [ 0.075; 0.124; 0.075;
    0.124; 0.204; 0.124;
    0.075; 0.124; 0.075 ]%Q.

Definition DEFAULT_CENTER_Z : Q := CENTER_Z_MIN.

(* ===================================================================== *)
(** ** Control flow: counted loops *)
(* ===================================================================== *)

(** [for_upto n i body s] runs [body i], [body (i+1)], ... [n] times. *)
Fixpoint for_upto {S : Type} (n : nat) (i : Z) (body : Z -> S -> S) (s : S) : S :=
  match n with
  | O => s
  | Datatypes.S n' => for_upto n' (i + 1) body (body i s)
  end.

(** [for (let i = lo; i < hi; i++) body] over integer bounds. A [continue]
    in the source is a body that returns its state unchanged. *)
Definition for_range {S : Type} (lo hi : Z) (body : Z -> S -> S) (s : S) : S :=
  for_upto (Z.to_nat (hi - lo)) lo body s.

(* ===================================================================== *)
(** ** Mesh density selection, over binary64 *)
(* ===================================================================== *)

Module Density.

(** An integer as the binary64 number nearest to it. *)
Definition Z2float (z : Z) : float := SF2Prim (binary_normalize prec emax z 0 false).

(** [Math.round]: the nearest integral number, ties towards plus infinity;
    zeros, infinities, NaN and integral numbers are returned as they are,
    and a result of zero keeps the sign of the argument. *)
Definition Math_round (x : float) : float :=
  match Prim2SF x with
  | S754_finite s m e =>
      if 0 <=? e then x
      else
        let k := - e in
        let n := (2 * cond_Zopp s (Zpos m) + 2 ^ k) / 2 ^ (k + 1) in
        if n =? 0 then (if s then neg_zero else zero) else Z2float n
  | _ => x
  end.

(** The loop state of [findBestMeshSize]. *)
Record Best := { bestError : float; bestX : float; bestY : float }.

Definition findBestMeshSize_body (aspectRatio minMesh maxMesh : float)
    (t : Z) (st : Best) : Best :=
  let approxX := Math_round (PrimFloat.sqrt (Z2float t * aspectRatio)) in
  if (approxX <=? 0)%float then st
  else
    let approxY := Math_round (Z2float t / approxX) in
    let product := (approxX * approxY)%float in
    if ((product <? minMesh) || (maxMesh <? product))%float then st
    else
      let ratioError := PrimFloat.abs (approxX / approxY - aspectRatio) in
      if (ratioError <? bestError st)%float
      then {| bestError := ratioError; bestX := approxX; bestY := approxY |}
      else st.

(** [findBestMeshSize(width, height, target, meshDiff)] with integral
    arguments; the result is the pair [(meshX, meshY)]. *)
Definition findBestMeshSize (width height target meshDiff : Z) : float * float :=
  let aspectRatio := (Z2float width / Z2float height)%float in
  let minMesh := Z.max 1 (target - meshDiff) in
  let maxMesh := target + meshDiff in
  let st :=
    for_range minMesh (maxMesh + 1)
      (findBestMeshSize_body aspectRatio (Z2float minMesh) (Z2float maxMesh))
      {| bestError := infinity; bestX := 0; bestY := 0 |} in
  (bestX st, bestY st).

End Density.

(* ===================================================================== *)
(** ** Numbers *)
(* ===================================================================== *)

(** A JavaScript number where a non-finite value can occur: the initial
    values of running minima and maxima, and the [farClip] option. *)
Inductive number : Type :=
| Num (q : Q)
| PosInfinity
| NegInfinity
| NaN.


(** [a < b] and [a <= b] on rationals, as booleans. *)
Definition Qltb (a b : Q) : bool := negb (Qle_bool b a).
Definition Qleb (a b : Q) : bool := Qle_bool a b.

(** [q < n] for a finite [q]; a comparison with NaN is false. *)
Definition lt_number (q : Q) (n : number) : bool :=
  match n with
  | Num m => Qltb q m
  | PosInfinity => true
  | NegInfinity | NaN => false
  end.

(** [q > n] for a finite [q]. *)
Definition gt_number (q : Q) (n : number) : bool :=
  match n with
  | Num m => Qltb m q
  | NegInfinity => true
  | PosInfinity | NaN => false
  end.

(** [Math.min(n, q)] for a finite [q]. *)
Definition Math_min_number (n : number) (q : Q) : number :=
  match n with
  | Num m => Num (Qmin m q)
  | PosInfinity => Num q
  | NegInfinity => NegInfinity
  | NaN => NaN
  end.

(** The functions of [Math] that leave the rationals. *)
Class MathLib : Type := {
  Math_exp : Q -> Q;
  Math_log : Q -> Q;
  Math_pow : Q -> Q -> Q;
  Math_sqrt : Q -> Q;
  Math_tan : Q -> Q;
  Math_atan : Q -> Q;
  Math_hypot : Q -> Q -> Q -> Q;
  Math_PI : Q
}.

(** The one law of [Math.exp] the development relies on. *)
Definition exp_nonnegative (M : MathLib) : Prop := forall x : Q, (0 <= Math_exp x)%Q.

(** [Math.floor], [Math.ceil], [Math.abs], [Math.max], [Math.min] are
    [Qfloor], [Qceiling], [Qabs], [Qmax], [Qmin] (and [Z.max], [Z.min] on
    integers). *)

(* ===================================================================== *)
(** ** Binary32: what a [Float32Array] keeps of a number *)
(* ===================================================================== *)

(** Rounding to the nearest integer, ties to the even one. *)
Definition round_half_even (q : Q) : Z :=
  let f := Qfloor q in
  match ((q - inject_Z f) ?= (1 # 2))%Q with
  | Lt => f
  | Gt => f + 1
  | Eq => if Z.even f then f else f + 1
  end.

(** The exponent [e] with [2^e <= q < 2^(e+1)], for a positive [q]. *)
Definition binade (q : Q) : Z :=
  let k := Z.log2 (Qnum q) - Z.log2 (Zpos (Qden q)) in
  if Qle_bool (2 ^ k) q then k else k - 1.

(** The unit in the last place of binary32 at a positive [q]: 24 bits of
    precision, and the exponent of the subnormal numbers below [2^-126]. *)
Definition ulp32 (q : Q) : Q := (2 ^ (Z.max (binade q) (-126) - 23))%Q.

Definition fround_pos (q : Q) : Q :=
  (inject_Z (round_half_even (q / ulp32 q)) * ulp32 q)%Q.

(** [Math.fround], the conversion of a store into a [Float32Array]: the
    binary32 number nearest to [q], ties to the even significand. The
    numbers of magnitude [2^128] and above, which binary32 stores as
    infinities, are outside the model. *)
Definition fround (q : Q) : Q :=
  let r := Qred q in
  match Qnum r with
  | Z0 => 0%Q
  | Zpos _ => fround_pos r
  | Zneg _ => (- fround_pos (- r))%Q
  end.

(** A number that a [Float32Array] holds unchanged. *)
Definition is_binary32 (q : Q) : Prop := (fround q == q)%Q.

(* ===================================================================== *)
(** ** 32-bit integer operators *)
(* ===================================================================== *)

(** ToUint32 and ToInt32 of an integral number. *)
Definition toUint32 (z : Z) : Z := z mod 2 ^ 32.
Definition toInt32 (z : Z) : Z := (z + 2 ^ 31) mod 2 ^ 32 - 2 ^ 31.

(** [a << n]: both operands through ToInt32/ToUint32, the shift count
    masked to five bits, the result an int32. *)
Definition shl (a n : Z) : Z := toInt32 (Z.shiftl (toInt32 a) (toUint32 n mod 32)).

(** [a >>> 0] *)
Definition ushr0 (a : Z) : Z := toUint32 a.

(* ===================================================================== *)
(** ** Typed arrays as lists *)
(* ===================================================================== *)

(** [a[i]] on a typed array. An index outside the array reads [undefined];
    the embedding returns the default [d], and the theorems below state the
    lengths under which every read is inside its array. *)
Definition read {A : Type} (d : A) (a : list A) (i : Z) : A :=
  if i <? 0 then d else default d (a !! Z.to_nat i).

(** [a[i] = v] on a typed array: a write outside the array is ignored. *)
Definition write {A : Type} (a : list A) (i : Z) (v : A) : list A :=
  if i <? 0 then a else <[Z.to_nat i := v]> a.

Definition readQ : list Q -> Z -> Q := read 0%Q.
Definition readZ : list Z -> Z -> Z := read 0.

(* ===================================================================== *)
(** ** Channel splitter and depth decoder: [decodeRgbdeFile] *)
(* ===================================================================== *)

(** What [parsePng] resolves to: [{ width, height, data }], [data] the RGBA
    bytes, row-major. [width] and [height] are read with [getUint32]. *)
Record PngImage : Type := {
  png_width : Z;
  png_height : Z;
  png_data : list Z
}.

(** The exceptions of the module: [new Error(message)], the
    [RangeError] of a typed-array constructor given a negative length, and
    the [DOMException] of the [ImageData] constructor given no pixel (an
    [InvalidStateError] or an [IndexSizeError], depending on the
    browser). *)
Inductive JsError : Type :=
| Error (message : string)
| RangeError
| DOMException.

Inductive Outcome (A : Type) : Type :=
| Returned (a : A)
| Thrown (e : JsError).
Arguments Returned {A} a.
Arguments Thrown {A} e.

(** The lines written with [console.info]. *)
Inductive ConsoleEvent : Type :=
| RawDepthBytes (x y r g b a : Z)
| DepthStatsInfo (min max : Q).

Definition even_width_message : string :=
  "RGBDE PNG must have even width (RGB + depth halves).".

(** [(((a << 24) >>> 0) + (b << 16) + (g << 8) + r) >>> 0] *)
Definition encodedWord (r g b a : Z) : Z :=
  ushr0 (ushr0 (shl a 24) + shl b 16 + shl g 8 + r).

(** [const depth = encoded / 10000] *)
Definition decodeDepth (r g b a : Z) : Q :=
  (inject_Z (encodedWord r g b a) / 10000)%Q.

(** The variables the two pixel loops of [decodeRgbdeFile] update. *)
Record DecodeState : Type := {
  leftPixels : list Z;
  depthValues : list Q;
  depthMin : number;
  depthMax : Q;
  console : list ConsoleEvent
}.

(** The first inner loop: the colour half, alpha forced to 255. *)
Definition decode_color_pixel (data : list Z) (srcRow leftRow x : Z)
    (st : DecodeState) : DecodeState :=
  let srcIndex := srcRow + x * 4 in
  let dstIndex := leftRow + x * 4 in
  let lp := write (leftPixels st) dstIndex (readZ data srcIndex) in
  let lp := write lp (dstIndex + 1) (readZ data (srcIndex + 1)) in
  let lp := write lp (dstIndex + 2) (readZ data (srcIndex + 2)) in
  let lp := write lp (dstIndex + 3) 255 in
  {| leftPixels := lp; depthValues := depthValues st; depthMin := depthMin st;
     depthMax := depthMax st; console := console st |}.

(** The second inner loop: the depth half. *)
Definition decode_depth_pixel (data : list Z) (width rightRow y x : Z)
    (st : DecodeState) : DecodeState :=
  let depthIndex := rightRow + x * 4 in
  let r := readZ data depthIndex in
  let g := readZ data (depthIndex + 1) in
  let b := readZ data (depthIndex + 2) in
  let a := readZ data (depthIndex + 3) in
  let log :=
    if (x <? 2) && (y <? 2) then console st ++ [RawDepthBytes x y r g b a]
    else console st in
  let depth := decodeDepth r g b a in
  let dv := write (depthValues st) (y * width + x) (fround depth) in
  if Qltb 0 depth then
    {| leftPixels := leftPixels st; depthValues := dv;
       depthMin := Math_min_number (depthMin st) depth;
       depthMax := Qmax (depthMax st) depth; console := log |}
  else
    {| leftPixels := leftPixels st; depthValues := dv; depthMin := depthMin st;
       depthMax := depthMax st; console := log |}.

Definition decode_row (data : list Z) (fullWidth width y : Z)
    (st : DecodeState) : DecodeState :=
  let srcRow := y * fullWidth * 4 in
  let leftRow := y * width * 4 in
  let rightRow := srcRow + width * 4 in
  let st := for_range 0 width (decode_color_pixel data srcRow leftRow) st in
  for_range 0 width (decode_depth_pixel data width rightRow y) st.

(** The state after the row loop, for an image of even width. *)
Definition decode_pixels (img : PngImage) : DecodeState :=
  let fullWidth := png_width img in
  let height := png_height img in
  let width := fullWidth / 2 in
  for_range 0 height (decode_row (png_data img) fullWidth width)
    {| leftPixels := replicate (Z.to_nat (width * height * 4)) 0;
       depthValues := replicate (Z.to_nat (width * height)) 0%Q;
       depthMin := PosInfinity; depthMax := 0%Q; console := [] |}.

(* ===================================================================== *)
(** ** Depth denoiser: [reduceDepthSpikes], [applyEdgeAwareSmooth] *)
(* ===================================================================== *)

Definition clampIndex (value size : Z) : Z :=
  if value <? 0 then 0
  else if value >=? size then size - 1
  else value.

(** [Array.from(window).sort((a, b) => a - b)]: ascending numeric order. *)
Fixpoint insert_sorted (a : Q) (l : list Q) : list Q :=
  match l with
  | [] => [a]
  | b :: l' => if Qleb a b then a :: b :: l' else b :: insert_sorted a l'
  end.

Definition sort_numeric (l : list Q) : list Q := foldr insert_sorted [] l.

Section Denoiser.
Context {M : MathLib}.

Definition colorDistance (r1 g1 b1 r2 g2 b2 : Q) : Q :=
  let dr := ((r1 - r2) / 255)%Q in
  let dg := ((g1 - g2) / 255)%Q in
  let db := ((b1 - b2) / 255)%Q in
  Math_sqrt (dr * dr + dg * dg + db * db)%Q.

(** A colour channel of the [Uint8ClampedArray], as a number. *)
Definition color (colors : list Z) (i : Z) : Q := inject_Z (readZ colors i).

(** The nine depths written to [window], in the order of the two loops.
    The source reuses one [Float32Array(9)]; all nine slots are rewritten
    for every pixel that reaches this point. *)
Definition window3x3 (depth : list Q) (width height x y : Z) : list Q :=
  for_range (-1) 2 (fun ky w =>
    let ny := clampIndex (y + ky) height in
    for_range (-1) 2 (fun kx w =>
      let nx := clampIndex (x + kx) width in
      w ++ [readQ depth (ny * width + nx)]) w) [].

Definition median_of (window : list Q) : Q :=
  let sorted := sort_numeric window in
  readQ sorted (Z.of_nat (length sorted) / 2).

(** [stableCount], [colorDiffAccum], [neighborCount] *)
Record NeighborStats : Type := {
  stableCount : Z;
  colorDiffAccum : Q;
  neighborCount : Z
}.

Definition neighbor_stats (depth : list Q) (colors : list Z)
    (width height x y : Z) (median cr cg cb : Q) : NeighborStats :=
  for_range (-1) 2 (fun ky st =>
    for_range (-1) 2 (fun kx st =>
      if (kx =? 0) && (ky =? 0) then st
      else
        let ny := clampIndex (y + ky) height in
        let nx := clampIndex (x + kx) width in
        let neighbor := readQ depth (ny * width + nx) in
        let no := (ny * width + nx) * 4 in
        {| stableCount :=
             if Qltb (Qabs (neighbor - median)) DEPTH_STABLE_TOLERANCE
             then stableCount st + 1 else stableCount st;
           colorDiffAccum :=
             (colorDiffAccum st
              + colorDistance cr cg cb (color colors no) (color colors (no + 1))
                  (color colors (no + 2)))%Q;
           neighborCount := neighborCount st + 1 |}) st)
    {| stableCount := 0; colorDiffAccum := 0%Q; neighborCount := 0 |}.

(** The body of the pixel loop of [reduceDepthSpikes]. The guard
    [!Number.isFinite(median)] never fires on rationals. *)
Definition reduceDepthSpikes_pixel (depth : list Q) (colors : list Z)
    (width height y x : Z) (result : list Q) : list Q :=
  let idx := y * width + x in
  let center := readQ depth idx in
  if Qleb center 0 then result
  else
    let median := median_of (window3x3 depth width height x y) in
    if Qleb (Qabs (center - median)) DEPTH_SPIKE_THRESHOLD then result
    else
      let baseOffset := idx * 4 in
      let cr := color colors baseOffset in
      let cg := color colors (baseOffset + 1) in
      let cb := color colors (baseOffset + 2) in
      let st := neighbor_stats depth colors width height x y median cr cg cb in
      let avgColorDiff :=
        if 0 <? neighborCount st
        then (colorDiffAccum st / inject_Z (neighborCount st))%Q else 0%Q in
      if (stableCount st >=? 5) && Qltb avgColorDiff COLOR_EDGE_THRESHOLD
      then write result idx median
      else result.

Definition reduceDepthSpikes (depth : list Q) (colors : list Z)
    (width height : Z) : list Q :=
  for_range 0 height (fun y result =>
    for_range 0 width (reduceDepthSpikes_pixel depth colors width height y) result)
    depth.

(** [accum], [weightSum], [kernelIndex] *)
Record SmoothAcc : Type := {
  accum : Q;
  weightSum : Q;
  kernelIndex : Z
}.

Definition smooth_weights (depth : list Q) (colors : list Z)
    (width height x y : Z) (center cr cg cb : Q) : SmoothAcc :=
  for_range (-1) 2 (fun ky st =>
    let ny := clampIndex (y + ky) height in
    for_range (-1) 2 (fun kx st =>
      let nx := clampIndex (x + kx) width in
      let neighbor := readQ depth (ny * width + nx) in
      let spatial := readQ SPATIAL_KERNEL (kernelIndex st) in
      let depthDiff := (neighbor - center)%Q in
      let depthWeight :=
        Math_exp (- (depthDiff * depthDiff)
                  / (2 * BILATERAL_DEPTH_SIGMA * BILATERAL_DEPTH_SIGMA))%Q in
      let no := (ny * width + nx) * 4 in
      let colorDiff :=
        colorDistance cr cg cb (color colors no) (color colors (no + 1))
          (color colors (no + 2)) in
      let colorWeight :=
        Math_exp (- (colorDiff * colorDiff)
                  / (2 * BILATERAL_COLOR_SIGMA * BILATERAL_COLOR_SIGMA))%Q in
      let weight := (spatial * depthWeight * colorWeight)%Q in
      {| accum := (accum st + neighbor * weight)%Q;
         weightSum := (weightSum st + weight)%Q;
         kernelIndex := kernelIndex st + 1 |}) st)
    {| accum := 0%Q; weightSum := 0%Q; kernelIndex := 0 |}.

(** The value [applyEdgeAwareSmooth] stores for pixel [(x, y)]. *)
Definition smoothed_value (depth : list Q) (colors : list Z)
    (width height y x : Z) : Q :=
  let idx := y * width + x in
  let center := readQ depth idx in
  if Qleb center 0 then center
  else
    let baseOffset := idx * 4 in
    let cr := color colors baseOffset in
    let cg := color colors (baseOffset + 1) in
    let cb := color colors (baseOffset + 2) in
    let st := smooth_weights depth colors width height x y center cr cg cb in
    let smoothed :=
      if Qltb 0 (weightSum st) then (accum st / weightSum st)%Q else center in
    (center + (smoothed - center) * SMOOTH_BLEND)%Q.

Definition applyEdgeAwareSmooth (depth : list Q) (colors : list Z)
    (width height : Z) : list Q :=
  for_range 0 height (fun y result =>
    for_range 0 width (fun x result =>
      write result (y * width + x) (smoothed_value depth colors width height y x))
      result)
    (replicate (length depth) 0%Q).

(** [preprocessDepth]: typed arrays are never falsy, so the early return of
    the source is not taken. *)
Definition preprocessDepth (depth : list Q) (colors : list Z)
    (width height : Z) : list Q :=
  let spikeReduced := reduceDepthSpikes depth colors width height in
  applyEdgeAwareSmooth spikeReduced colors width height.

End Denoiser.

(** The running [min] of [computeDepthStats], which starts at infinity. *)
Definition stats_step (d : Q) (st : number * Q) : number * Q :=
  if Qltb 0 d then
    (if lt_number d (fst st) then Num d else fst st,
     if Qltb (snd st) d then d else snd st)
  else st.

Record DepthStats : Type := { stats_min : Q; stats_max : Q }.

Definition computeDepthStats (depth : list Q) : DepthStats :=
  let st :=
    for_range 0 (Z.of_nat (length depth))
      (fun i st => stats_step (readQ depth i) st) (PosInfinity, 0%Q) in
  let min := match fst st with Num m => m | _ => MIN_DEPTH_CLAMP end in
  let max := if Qleb (snd st) 0 then (min + 1)%Q else snd st in
  {| stats_min := min; stats_max := max |}.

(** What [decodeRgbdeFile] resolves to. [textureImage] is a browser
    [ImageData] over [leftPixels]: it adds no data, and only its
    construction is embedded. *)
Record RgbdeAsset : Type := {
  asset_width : Z;
  asset_height : Z;
  asset_leftPixels : list Z;
  asset_depth : list Q;
  asset_depthStats : DepthStats
}.

(** [new ImageData(data, sw, sh)] over [sw * sh * 4] bytes throws exactly
    when there is no byte, that is when [sw] or [sh] is 0. *)
Definition new_ImageData_throws (sw sh : Z) : bool := (sw =? 0) || (sh =? 0).

Section Decode.
Context {M : MathLib}.

(** [parsePng] ends in the platform's [DecompressionStream]; the outcome
    of the call is taken as given. *)
Variable Blob : Type.
Variable parsePng : Blob -> Outcome PngImage.

(** [decodeRgbdeFile(file)]: what was written to the console, and the
    settled outcome of the promise. The fallback assigned to the local
    [depthMin] after the loops is never read again. *)
Definition decodeRgbdeFile (file : Blob) : list ConsoleEvent * Outcome RgbdeAsset :=
  match parsePng file with
  | Thrown e => ([], Thrown e)
  | Returned img =>
      let fullWidth := png_width img in
      let height := png_height img in
      if negb (Z.rem fullWidth 2 =? 0) then
        ([], Thrown (Error even_width_message))
      else
        let width := fullWidth / 2 in
        let st := decode_pixels img in
        let smoothedDepth :=
          preprocessDepth (depthValues st) (leftPixels st) width height in
        let stats := computeDepthStats smoothedDepth in
        (console st ++ [DepthStatsInfo (stats_min stats) (stats_max stats)],
         if new_ImageData_throws width height then Thrown DOMException
         else Returned {| asset_width := width; asset_height := height;
                          asset_leftPixels := leftPixels st;
                          asset_depth := smoothedDepth;
                          asset_depthStats := stats |})
  end.

End Decode.

(* ===================================================================== *)
(** ** The heap of typed arrays and the mesh object *)
(* ===================================================================== *)

(** A reference to a typed array. *)
Abbreviation ref := nat.

Inductive TypedArray : Type :=
| Float32Array (elems : list Q)
| Uint32Array (elems : list Z).

Abbreviation Heap := (gmap nat TypedArray).

(** The elements behind a reference. *)
Definition f32 (h : Heap) (r : ref) : list Q :=
  match h !! r with Some (Float32Array l) => l | _ => [] end.

Definition u32 (h : Heap) (r : ref) : list Z :=
  match h !! r with Some (Uint32Array l) => l | _ => [] end.

(** [new Float32Array(n)], [new Uint32Array(n)]: a fresh zero-filled
    array. *)
Definition alloc (h : Heap) (a : TypedArray) : Heap * ref :=
  let r := fresh (dom h) in (<[r := a]> h, r).

(** [array[i] = v] through a reference. A [Float32Array] keeps the
    binary32 rounding of the value, a [Uint32Array] the value modulo
    2^32. *)
Definition store_f32 (h : Heap) (r : ref) (i : Z) (v : Q) : Heap :=
  match h !! r with
  | Some (Float32Array l) => <[r := Float32Array (write l i (fround v))]> h
  | _ => h
  end.

Definition store_u32 (h : Heap) (r : ref) (i : Z) (v : Z) : Heap :=
  match h !! r with
  | Some (Uint32Array l) => <[r := Uint32Array (write l i (toUint32 v))]> h
  | _ => h
  end.

(** The kind and length of a typed array, which no store changes. *)
Definition shape (a : TypedArray) : bool * nat :=
  match a with
  | Float32Array l => (true, length l)
  | Uint32Array l => (false, length l)
  end.

(** The object returned by [generatePerspectiveMesh]. *)
Record Mesh : Type := {
  positions : ref;
  rayDirections : ref;
  baseDepths : ref;
  uvs : ref;
  indices : ref;
  vertexCount : Z;
  indexCount : Z;
  baseDepthMin : Q;
  baseDepthMax : Q;
  mesh_meshX : Z;
  mesh_meshY : Z;
  mesh_baseMinZ : number;
  mesh_baseMaxZ : number
}.

(** The [options] of [updateVertexPositions]. *)
Record Options : Type := {
  magnification : Q;
  farClip : number;
  mode : string;
  logPower : Q
}.

(* ===================================================================== *)
(** ** Mesh reconstruction and depth remapping *)
(* ===================================================================== *)

Definition sampleDepth (depth : list Q) (width height : Z) (x y fallback : Q) : Q :=
  let ix := Z.max 0 (Z.min (width - 1) (Qfloor x)) in
  let iy := Z.max 0 (Z.min (height - 1) (Qfloor y)) in
  let fx := Z.max 0 (Z.min (width - 1) (Qceiling x)) in
  let fy := Z.max 0 (Z.min (height - 1) (Qceiling y)) in
  let tx := (x - inject_Z ix)%Q in
  let ty := (y - inject_Z iy)%Q in
  let d00 := readQ depth (iy * width + ix) in
  let d10 := readQ depth (iy * width + fx) in
  let d01 := readQ depth (fy * width + ix) in
  let d11 := readQ depth (fy * width + fx) in
  let top := (d00 + (d10 - d00) * tx)%Q in
  let bottom := (d01 + (d11 - d01) * tx)%Q in
  let value := (top + (bottom - top) * ty)%Q in
  if Qltb 0 value then value else Qmax d00 fallback.

Section Mesh.
Context {M : MathLib}.

Definition MIN_FOV_Y : Q := (30 * Math_PI / 180)%Q.
Definition MAX_FOV_Y : Q := (110 * Math_PI / 180)%Q.

Definition computeVerticalFov (centerOffset : Q) : Q :=
  let clamped := Qmin (Qmax centerOffset CENTER_Z_MIN) CENTER_Z_MAX in
  let t := ((clamped - CENTER_Z_MIN) / (CENTER_Z_MAX - CENTER_Z_MIN))%Q in
  (MIN_FOV_Y + (MAX_FOV_Y - MIN_FOV_Y) * t)%Q.

Definition normalize3 (x y z : Q) : Q * Q * Q :=
  let len := Math_hypot x y z in
  if Qeq_bool len 0 then (0, 0, 1)%Q
  else (x / len, y / len, z / len)%Q.

(** The variables the vertex loop of [generatePerspectiveMesh] updates. *)
Record VertexState : Type := {
  vs_heap : Heap;
  vs_index : Z;
  vs_baseMinZ : number;
  vs_baseMaxZ : number
}.

(** The typed arrays of a mesh under construction. *)
Record Buffers : Type := {
  b_positions : ref;
  b_rayDirections : ref;
  b_baseDepths : ref;
  b_uvs : ref;
  b_indices : ref
}.

Definition vertex_body (bufs : Buffers) (depth : list Q)
    (width height meshX meshY : Z) (depthMin tanHalfX tanHalfY : Q)
    (lat lon : Z) (st : VertexState) : VertexState :=
  let widthMinusOne := Z.max 1 (width - 1) in
  let heightMinusOne := Z.max 1 (height - 1) in
  let meshV := (inject_Z lat / inject_Z meshY)%Q in
  let pixelY := (meshV * inject_Z heightMinusOne)%Q in
  let u := (inject_Z lon / inject_Z meshX)%Q in
  let pixelX := (u * inject_Z widthMinusOne)%Q in
  let screenX := ((u - 0.5) * 2 * tanHalfX)%Q in
  let screenY := ((0.5 - meshV) * 2 * tanHalfY)%Q in
  let '(dir0, dir1, dir2) := normalize3 screenX screenY 1 in
  let depthValue := sampleDepth depth width height pixelX pixelY depthMin in
  let px := (dir0 * depthValue)%Q in
  let py := (dir1 * depthValue)%Q in
  let pz := (- dir2 * depthValue)%Q in
  let index := vs_index st in
  let h := store_f32 (vs_heap st) (b_positions bufs) (index * 3) px in
  let h := store_f32 h (b_positions bufs) (index * 3 + 1) py in
  let h := store_f32 h (b_positions bufs) (index * 3 + 2) pz in
  let minZ := if lt_number pz (vs_baseMinZ st) then Num pz else vs_baseMinZ st in
  let maxZ := if gt_number pz (vs_baseMaxZ st) then Num pz else vs_baseMaxZ st in
  let h := store_f32 h (b_rayDirections bufs) (index * 3) dir0 in
  let h := store_f32 h (b_rayDirections bufs) (index * 3 + 1) dir1 in
  let h := store_f32 h (b_rayDirections bufs) (index * 3 + 2) (- dir2)%Q in
  let h := store_f32 h (b_baseDepths bufs) index depthValue in
  let h := store_f32 h (b_uvs bufs) (index * 2) (pixelX / inject_Z widthMinusOne)%Q in
  let h := store_f32 h (b_uvs bufs) (index * 2 + 1) meshV in
  {| vs_heap := h; vs_index := index + 1; vs_baseMinZ := minZ; vs_baseMaxZ := maxZ |}.

(** The body of the triangle loop; the state is the heap and [tri]. *)
Definition triangle_body (ind : ref) (meshX lat lon : Z) (st : Heap * Z) : Heap * Z :=
  let '(h, tri) := st in
  let current := lat * (meshX + 1) + lon in
  let next := current + meshX + 1 in
  let h := store_u32 h ind tri current in
  let h := store_u32 h ind (tri + 1) next in
  let h := store_u32 h ind (tri + 2) (current + 1) in
  let h := store_u32 h ind (tri + 3) (current + 1) in
  let h := store_u32 h ind (tri + 4) next in
  let h := store_u32 h ind (tri + 5) (next + 1) in
  (h, tri + 6).

(** The five constructor calls at the head of [generatePerspectiveMesh]:
    fresh zero-filled arrays. *)
Definition allocate_buffers (h : Heap) (vertCount indexLength : Z) : Heap * Buffers :=
  let '(h, positions) :=
    alloc h (Float32Array (replicate (Z.to_nat (vertCount * 3)) 0%Q)) in
  let '(h, rayDirections) :=
    alloc h (Float32Array (replicate (Z.to_nat (vertCount * 3)) 0%Q)) in
  let '(h, baseDepths) :=
    alloc h (Float32Array (replicate (Z.to_nat vertCount) 0%Q)) in
  let '(h, uvs) :=
    alloc h (Float32Array (replicate (Z.to_nat (vertCount * 2)) 0%Q)) in
  let '(h, indices) :=
    alloc h (Uint32Array (replicate (Z.to_nat indexLength) 0)) in
  (h, {| b_positions := positions; b_rayDirections := rayDirections;
         b_baseDepths := baseDepths; b_uvs := uvs; b_indices := indices |}).

(** The vertex loop, rows [lat] and columns [lon]. *)
Definition vertex_loop (bufs : Buffers) (depth : list Q)
    (width height meshX meshY : Z) (depthMin tanHalfX tanHalfY : Q)
    (h : Heap) : VertexState :=
  for_range 0 (meshY + 1) (fun lat st =>
    for_range 0 (meshX + 1)
      (vertex_body bufs depth width height meshX meshY depthMin
         tanHalfX tanHalfY lat) st)
    {| vs_heap := h; vs_index := 0;
       vs_baseMinZ := PosInfinity; vs_baseMaxZ := NegInfinity |}.

(** The triangle loop. *)
Definition triangle_loop (ind : ref) (meshX meshY : Z) (h : Heap) : Heap * Z :=
  for_range 0 meshY (fun lat st =>
    for_range 0 meshX (triangle_body ind meshX lat) st) (h, 0).

(** [generatePerspectiveMesh({ depth, width, height, meshX, meshY, depthMin,
    depthMax, centerZ, fovDegrees })] on a heap. [centerZ] is [None] when
    the property is absent; [fovDegrees] is [Some] exactly when it is a
    finite number. A typed-array constructor throws on a negative length. *)
Definition generatePerspectiveMesh (h : Heap) (depth : list Q)
    (width height meshX meshY : Z) (depthMin depthMax : Q)
    (centerZ fovDegrees : option Q) : Outcome (Heap * Mesh) :=
  let centerZ := default DEFAULT_CENTER_Z centerZ in
  let vertCount := (meshX + 1) * (meshY + 1) in
  if (vertCount <? 0) || (meshX * meshY * 6 <? 0) then Thrown RangeError
  else
    let '(h, bufs) := allocate_buffers h vertCount (meshX * meshY * 6) in
    let fovY :=
      match fovDegrees with
      | Some deg =>
          let clampedDeg := Qmin (Qmax deg 15) 120 in
          (clampedDeg * Math_PI / 180)%Q
      | None => computeVerticalFov centerZ
      end in
    let aspect := (inject_Z width / inject_Z height)%Q in
    let fovX := (2 * Math_atan (Math_tan (fovY / 2) * aspect))%Q in
    let tanHalfX := Math_tan (fovX / 2) in
    let tanHalfY := Math_tan (fovY / 2) in
    let vst :=
      vertex_loop bufs depth width height meshX meshY depthMin
        tanHalfX tanHalfY h in
    let '(h, tri) := triangle_loop (b_indices bufs) meshX meshY (vs_heap vst) in
    Returned
      (h,
       {| positions := b_positions bufs; rayDirections := b_rayDirections bufs;
          baseDepths := b_baseDepths bufs; uvs := b_uvs bufs;
          indices := b_indices bufs;
          vertexCount := vertCount;
          indexCount := Z.of_nat (length (u32 h (b_indices bufs)));
          baseDepthMin := Qmax depthMin MIN_DEPTH_CLAMP;
          baseDepthMax := depthMax;
          mesh_meshX := meshX; mesh_meshY := meshY;
          mesh_baseMinZ := vs_baseMinZ vst; mesh_baseMaxZ := vs_baseMaxZ vst |}).

(** [Math.min(x, farLimit)], where [farLimit] is a finite [farClip] or
    plus infinity ([None]). *)
Definition min_farLimit (x : Q) (farLimit : option Q) : Q :=
  match farLimit with Some f => Qmin x f | None => x end.

(** The body of the loop of [updateVertexPositions] up to the three
    stores, for a vertex of base depth [base]: [scaled], and then [depth]. *)
Definition scaled_depth (minDepth : Q) (options : Options) (base : Q) : Q :=
  let scaledMin := minDepth in
  let relative := Qmax (base - minDepth + OFFSET) 0.001 in
  let shaped :=
    if String.eqb (mode options) "log"
    then (minDepth + Math_log (1 + Math_pow relative (logPower options)))%Q
    else base in
  (scaledMin + magnification options * (shaped - scaledMin))%Q.

Definition remapped_depth (minDepth : Q) (options : Options) (base : Q) : Q :=
  let farLimit :=
    match farClip options with Num f => Some f | _ => None end in
  let scaledMin := minDepth in
  let scaled := scaled_depth minDepth options base in
  min_farLimit (Qmax scaled (scaledMin + 0.001)%Q) farLimit.

Definition update_body (mesh : Mesh) (minDepth : Q) (options : Options)
    (i : Z) (h : Heap) : Heap :=
  let dirX := readQ (f32 h (rayDirections mesh)) (i * 3) in
  let dirY := readQ (f32 h (rayDirections mesh)) (i * 3 + 1) in
  let dirZ := readQ (f32 h (rayDirections mesh)) (i * 3 + 2) in
  let base := readQ (f32 h (baseDepths mesh)) i in
  let depth := remapped_depth minDepth options base in
  let h := store_f32 h (positions mesh) (i * 3) (dirX * depth)%Q in
  let h := store_f32 h (positions mesh) (i * 3 + 1) (dirY * depth)%Q in
  store_f32 h (positions mesh) (i * 3 + 2) (dirZ * depth)%Q.

(** [updateVertexPositions(mesh, options)]: the heap after the call. *)
Definition updateVertexPositions (h : Heap) (mesh : Mesh) (options : Options) : Heap :=
  let minDepth := Qmax (baseDepthMin mesh) MIN_DEPTH_CLAMP in
  for_range 0 (Z.of_nat (length (f32 h (baseDepths mesh))))
    (update_body mesh minDepth options) h.

End Mesh.

(* ===================================================================== *)
(** ** Vocabulary of the properties *)
(* ===================================================================== *)

(** Byte [c] of the depth-half pixel [(x, y)] of a decoded container:
    [data[rightRow + x * 4 + c]]. *)
Definition depth_byte (img : PngImage) (x y c : Z) : Z :=
  let fullWidth := png_width img in
  let width := fullWidth / 2 in
  readZ (png_data img) (y * fullWidth * 4 + width * 4 + x * 4 + c).

(** [(A<<24)|(B<<16)|(G<<8)|R] *)
Definition littleEndianWord (r g b a : Z) : Z :=
  Z.lor (Z.lor (Z.lor (Z.shiftl a 24) (Z.shiftl b 16)) (Z.shiftl g 8)) r.

(** The integer coordinates [sampleDepth] clamps into the grid. *)
Definition clampCoord (size q : Z) : Z := Z.max 0 (Z.min (size - 1) q).

(** The sample at the top-left corner of the cell of [(x, y)]. *)
Definition topLeftSample (depth : list Q) (width height : Z) (x y : Q) : Q :=
  readQ depth (clampCoord height (Qfloor y) * width + clampCoord width (Qfloor x)).

(** The bilinear interpolation of the four samples around [(x, y)]. *)
Definition bilinearValue (depth : list Q) (width height : Z) (x y : Q) : Q :=
  let ix := clampCoord width (Qfloor x) in
  let iy := clampCoord height (Qfloor y) in
  let fx := clampCoord width (Qceiling x) in
  let fy := clampCoord height (Qceiling y) in
  let tx := (x - inject_Z ix)%Q in
  let ty := (y - inject_Z iy)%Q in
  let top :=
    (readQ depth (iy * width + ix)
     + (readQ depth (iy * width + fx) - readQ depth (iy * width + ix)) * tx)%Q in
  let bottom :=
    (readQ depth (fy * width + ix)
     + (readQ depth (fy * width + fx) - readQ depth (fy * width + ix)) * tx)%Q in
  (top + (bottom - top) * ty)%Q.

(** A depth that is the sentinel [0] or strictly positive. *)
Definition valid_depth (d : Q) : Prop := (d == 0 \/ 0 < d)%Q.

(** A value is the sentinel default or is stored in the grid. *)
Definition from_grid (depth : list Q) (v : Q) : Prop := v = 0%Q \/ In v depth.

(** The invariant of pass A: same length, every value from the input
    grid, non-positive pixels untouched. *)
Definition spike_inv (depth result : list Q) : Prop :=
  length result = length depth
  /\ (forall v, In v result -> from_grid depth v)
  /\ (forall k d, depth !! k = Some d -> (d <= 0)%Q -> result !! k = Some d).

(** A mesh as [generatePerspectiveMesh] leaves it in the heap: five
    distinct typed arrays, sized by [vertexCount]. *)
Record MeshDescriptor (h : Heap) (m : Mesh) : Prop := {
  md_distinct :
    NoDup [positions m; rayDirections m; baseDepths m; uvs m; indices m];
  md_positions :
    exists l, h !! positions m = Some (Float32Array l)
              /\ Z.of_nat (length l) = vertexCount m * 3;
  md_rayDirections :
    exists l, h !! rayDirections m = Some (Float32Array l)
              /\ Z.of_nat (length l) = vertexCount m * 3;
  md_baseDepths :
    exists l, h !! baseDepths m = Some (Float32Array l)
              /\ Z.of_nat (length l) = vertexCount m;
  md_uvs :
    exists l, h !! uvs m = Some (Float32Array l)
              /\ Z.of_nat (length l) = vertexCount m * 2;
  md_indices :
    exists l, h !! indices m = Some (Uint32Array l)
}.

(** The six indices the triangle loop stores for the cell in row [lat]
    and column [lon]: two triangles. *)
Definition cell_indices (meshX lat lon : Z) : list Z :=
  let current := lat * (meshX + 1) + lon in
  let next := current + meshX + 1 in
  [current; next; current + 1; current + 1; next; next + 1].

(** The image coordinates of the vertex in column [lon] and row [lat]:
    [pixelX] and [pixelY] of the vertex loop. *)
Definition vertex_pixelX (width meshX lon : Z) : Q :=
  (inject_Z lon / inject_Z meshX * inject_Z (Z.max 1 (width - 1)))%Q.
Definition vertex_pixelY (height meshY lat : Z) : Q :=
  (inject_Z lat / inject_Z meshY * inject_Z (Z.max 1 (height - 1)))%Q.

(** Component [k] of the position and of the ray of vertex [i]. *)
Definition position_of (h : Heap) (m : Mesh) (i k : Z) : Q :=
  readQ (f32 h (positions m)) (i * 3 + k).
Definition ray_of (h : Heap) (m : Mesh) (i k : Z) : Q :=
  readQ (f32 h (rayDirections m)) (i * 3 + k).
Definition baseDepth_of (h : Heap) (m : Mesh) (i : Z) : Q :=
  readQ (f32 h (baseDepths m)) i.

(** The length of the position of vertex [i] along its ray: the dot
    product of the two. *)
Definition along_ray (h : Heap) (m : Mesh) (i : Z) : Q :=
  (position_of h m i 0 * ray_of h m i 0
   + position_of h m i 1 * ray_of h m i 1
   + position_of h m i 2 * ray_of h m i 2)%Q.

Definition unit_ray (h : Heap) (m : Mesh) (i : Z) : Prop :=
  (ray_of h m i 0 * ray_of h m i 0
   + ray_of h m i 1 * ray_of h m i 1
   + ray_of h m i 2 * ray_of h m i 2 == 1)%Q.

(** The identity options of the remap: linear, magnification 1, no far
    limit. *)
Definition identity_options (o : Options) : Prop :=
  mode o <> "log"%string /\ (magnification o == 1)%Q /\ farClip o = PosInfinity.

(* ===================================================================== *)
(** ** Concrete inputs *)
(* ===================================================================== *)

(** Rational stand-ins for the functions of [MathLib], used to run the
    definitions on concrete inputs only. *)
Definition sqrt_approx (q : Q) : Q :=
  (inject_Z (Z.sqrt (Qfloor (q * 1000000000000))) / 1000000)%Q.

Definition exp_approx (x : Q) : Q :=
  let y := (1 + x / 2 + x * x / 8)%Q in (y * y)%Q.

Definition approxMath : MathLib := {|
  Math_exp := exp_approx;
  Math_log := fun x => (2 * (x - 1) / (x + 1))%Q;
  Math_pow := fun x y => (1 + y * (x - 1))%Q;
  Math_sqrt := sqrt_approx;
  Math_tan := fun x => (x + x * x * x / 3)%Q;
  Math_atan := fun x => (x - x * x * x / 3)%Q;
  Math_hypot := fun x y z => sqrt_approx (x * x + y * y + z * z);
  Math_PI := (355 # 113)%Q
|}.

(** One vertex on the ray [(0, 0, -1)] at base depth 1, in a mesh whose
    minimum depth is 1: what a uniform depth grid of 1 m reconstructs to
    at the image centre. *)
Definition centre_heap : Heap :=
  <[4%nat := Uint32Array []]>
  (<[3%nat := Float32Array [1 # 2; 1 # 2]%Q]>
  (<[2%nat := Float32Array [1%Q]]>
  (<[1%nat := Float32Array [0; 0; - (1)]%Q]>
  (<[0%nat := Float32Array [0; 0; - (1)]%Q]> ∅)))).

Definition centre_mesh : Mesh := {|
  positions := 0%nat; rayDirections := 1%nat; baseDepths := 2%nat;
  uvs := 3%nat; indices := 4%nat;
  vertexCount := 1; indexCount := 0;
  baseDepthMin := 1; baseDepthMax := 1;
  mesh_meshX := 0; mesh_meshY := 0;
  mesh_baseMinZ := Num (- (1)); mesh_baseMaxZ := Num (- (1))
|}.

Definition linear_options : Options :=
  {| magnification := 1; farClip := PosInfinity; mode := "linear"; logPower := 1 |}.

(** The same vertex at base depth 8, with a far clip of 5. *)
Definition far_heap : Heap := <[2%nat := Float32Array [8%Q]]> centre_heap.

Definition far_options : Options :=
  {| magnification := 1; farClip := Num 5; mode := "linear"; logPower := 1 |}.

(** One vertex on an oblique ray, its three components as a
    [Float32Array] holds them: the binary32 roundings of [(0.6, 0, -0.8)]
    at base depth 1.75, and of [(1/3, 2/3, -2/3)] at base depth 8. *)
Definition oblique_heap : Heap :=
  <[2%nat := Float32Array [7 # 4]%Q]>
  (<[1%nat := Float32Array [fround (3 # 5); 0%Q; fround (- (4 # 5))]]>
   centre_heap).

Definition oblique_far_heap : Heap :=
  <[2%nat := Float32Array [8%Q]]>
  (<[1%nat := Float32Array [fround (1 # 3); fround (2 # 3); fround (- (2 # 3))]]>
   centre_heap).

(** Two vertices: one on the axis [(0, 0, -1)] at base depth 1.5, one on
    the rounded oblique ray [(0.6, 0, -0.8)] at base depth 3, in a mesh
    whose minimum depth is 1. *)
Definition pair_heap : Heap :=
  <[4%nat := Uint32Array []]>
  (<[3%nat := Float32Array [0; 0; 1; 0]%Q]>
  (<[2%nat := Float32Array [3 # 2; 3]%Q]>
  (<[1%nat := Float32Array
                [0%Q; 0%Q; (- (1))%Q; fround (3 # 5); 0%Q; fround (- (4 # 5))]]>
  (<[0%nat := Float32Array [0; 0; 0; 0; 0; 0]%Q]> ∅)))).

Definition pair_mesh : Mesh := {|
  positions := 0%nat; rayDirections := 1%nat; baseDepths := 2%nat;
  uvs := 3%nat; indices := 4%nat;
  vertexCount := 2; indexCount := 0;
  baseDepthMin := 1; baseDepthMax := 3;
  mesh_meshX := 1; mesh_meshY := 0;
  mesh_baseMinZ := Num (- (12 # 5)); mesh_baseMaxZ := Num (- (3 # 2))
|}.

Definition magnified_options : Options :=
  {| magnification := 2; farClip := Num 5; mode := "linear"; logPower := 1 |}.

(** The heap after the remap of [oblique_far_heap] with a far clip of 5. *)
Definition oblique_far_remapped : Heap :=
  @updateVertexPositions approxMath oblique_far_heap centre_mesh far_options.

(** A 2x2 image: two colour pixels and two depth pixels per row. *)
Definition tiny_image : PngImage := {|
  png_width := 4; png_height := 2;
  png_data :=
    [ 10; 20; 30; 255;  11; 21; 31; 255;  16; 0; 0; 0;  0; 0; 0; 1;
      12; 22; 32; 255;  13; 23; 33; 255;  0; 0; 0; 0;  255; 255; 255; 255 ]
|}.

(** An image of odd width. *)
Definition odd_image : PngImage :=
  {| png_width := 3; png_height := 1;
     png_data := [1; 2; 3; 255; 4; 5; 6; 255; 16; 0; 0; 0] |}.

(** A 2x2 depth grid with a missing sample, and uniform colours. *)
Definition tiny_depth : list Q := [0; 1; 2; 3 # 2]%Q.
Definition tiny_colors : list Z :=
  [ 9; 9; 9; 255;  9; 9; 9; 255;  9; 9; 9; 255;  9; 9; 9; 255 ].

(* ===================================================================== *)
(** ** Blocks of consecutive stores *)
(* ===================================================================== *)

(** [a[s] = v0; a[s + 1] = v1; ...]: the stores of one loop step. *)
Fixpoint write_block {A : Type} (a : list A) (s : Z) (vs : list A) : list A :=
  match vs with
  | [] => a
  | v :: vs' => write_block (write a s v) (s + 1) vs'
  end.

(* ===================================================================== *)
(** ** Vocabulary of the further properties *)
(* ===================================================================== *)

(** The running minimum and maximum after the first [i] depths. *)
Definition stats_inv (depth : list Q) (i : Z) (st : number * Q) : Prop :=
  (st = (PosInfinity, 0%Q)
   /\ forall (k : nat) (d : Q), Z.of_nat k < i -> depth !! k = Some d -> (d <= 0)%Q)
  \/ (exists m : Q,
        fst st = Num m /\ In m depth /\ (0 < m)%Q /\ (m <= snd st)%Q
        /\ forall (k : nat) (d : Q), Z.of_nat k < i -> depth !! k = Some d ->
             (0 < d)%Q -> (m <= d <= snd st)%Q).

(* ===================================================================== *)
(** ** Vocabulary of the vertex loop *)
(* ===================================================================== *)

(** [dir] of the vertex in row [lat] and column [lon]:
    [normalize3(screenX, screenY, 1)]. *)
Definition vertex_dir {M : MathLib} (tanHalfX tanHalfY : Q)
    (meshX meshY lat lon : Z) : Q * Q * Q :=
  normalize3 ((inject_Z lon / inject_Z meshX - 0.5) * 2 * tanHalfX)%Q
             ((0.5 - inject_Z lat / inject_Z meshY) * 2 * tanHalfY)%Q 1.

(** [depthValue] of that vertex. *)
Definition vertex_depth (depth : list Q) (width height meshX meshY : Z)
    (depthMin : Q) (lat lon : Z) : Q :=
  sampleDepth depth width height (vertex_pixelX width meshX lon)
    (vertex_pixelY height meshY lat) depthMin.

(** The numbers the vertex loop hands to the stores into [rayDirections],
    [positions] and [uvs]: [dir[0], dir[1], -dir[2]], then [px, py, pz],
    then the two texture coordinates.  Each store rounds its number to
    binary32. *)
Definition vertex_ray {M : MathLib} (tanHalfX tanHalfY : Q)
    (meshX meshY lat lon : Z) : list Q :=
  let '(dir0, dir1, dir2) := vertex_dir tanHalfX tanHalfY meshX meshY lat lon in
  [dir0; dir1; (- dir2)%Q].

Definition vertex_position {M : MathLib} (tanHalfX tanHalfY : Q)
    (depth : list Q) (width height meshX meshY : Z) (depthMin : Q)
    (lat lon : Z) : list Q :=
  let '(dir0, dir1, dir2) := vertex_dir tanHalfX tanHalfY meshX meshY lat lon in
  let depthValue := vertex_depth depth width height meshX meshY depthMin lat lon in
  [(dir0 * depthValue)%Q; (dir1 * depthValue)%Q; (- dir2 * depthValue)%Q].

Definition vertex_uv (width meshX meshY lat lon : Z) : list Q :=
  [(vertex_pixelX width meshX lon / inject_Z (Z.max 1 (width - 1)))%Q;
   (inject_Z lat / inject_Z meshY)%Q].

(** Component [c] of the texture coordinate of vertex [i]. *)
Definition uv_of (h : Heap) (m : Mesh) (i c : Z) : Q :=
  readQ (f32 h (uvs m)) (i * 2 + c).

(* ===================================================================== *)
(** * Properties *)
(* ===================================================================== *)

(** ** Loops *)

Lemma for_upto_ind {S : Type} (P : Z -> S -> Prop) (body : Z -> S -> S) :
  forall (n : nat) (i : Z) (s : S),
    P i s ->
    (forall j t, i <= j < i + Z.of_nat n -> P j t -> P (j + 1) (body j t)) ->
    P (i + Z.of_nat n) (for_upto n i body s).
Proof.
  induction n as [|n IH]; intros i s Hs Hstep; simpl for_upto.
  - replace (i + Z.of_nat 0) with i by lia. exact Hs.
  - replace (i + Z.of_nat (Datatypes.S n)) with ((i + 1) + Z.of_nat n) by lia.
    apply IH.
    + apply Hstep; [lia | exact Hs].
    + intros j t Hj. apply Hstep. lia.
Qed.

(** The invariant rule of a counted loop. *)
Lemma for_range_ind {S : Type} (P : Z -> S -> Prop) (lo hi : Z)
    (body : Z -> S -> S) (s : S) :
  lo <= hi ->
  P lo s ->
  (forall j t, lo <= j < hi -> P j t -> P (j + 1) (body j t)) ->
  P hi (for_range lo hi body s).
Proof.
  intros Hle Hs Hstep. unfold for_range.
  replace hi with (lo + Z.of_nat (Z.to_nat (hi - lo))) at 1 by lia.
  apply for_upto_ind; [exact Hs|].
  intros j t Hj. apply Hstep. lia.
Qed.

(** An invariant that does not mention the counter survives any loop. *)
Lemma for_range_inv {S : Type} (P : S -> Prop) (lo hi : Z)
    (body : Z -> S -> S) (s : S) :
  P s ->
  (forall j t, lo <= j < hi -> P t -> P (body j t)) ->
  P (for_range lo hi body s).
Proof.
  intros Hs Hstep.
  destruct (Z_le_gt_dec lo hi) as [Hle|Hgt].
  - apply (for_range_ind (fun _ => P)); auto.
  - unfold for_range. replace (Z.to_nat (hi - lo)) with O by lia. exact Hs.
Qed.

(** ** Binary32 rounding *)

Lemma Qcompare_cases (a b : Q) :
  match (a ?= b)%Q with
  | Eq => (a == b)%Q
  | Lt => (a < b)%Q
  | Gt => (b < a)%Q
  end.
Proof.
  destruct (a ?= b)%Q eqn:E.
  - apply Qeq_alt, E.
  - apply Qlt_alt, E.
  - apply Qgt_alt, E.
Qed.

Lemma round_half_even_near (q : Q) :
  (Qabs (inject_Z (round_half_even q) - q) <= 1 # 2)%Q.
Proof.
  unfold round_half_even.
  pose proof (Qfloor_le q) as Hlo. pose proof (Qlt_floor q) as Hhi.
  rewrite inject_Z_plus in Hhi. change (inject_Z 1) with 1%Q in Hhi.
  apply Qabs_Qle_condition.
  destruct (q - inject_Z (Qfloor q) ?= 1 # 2)%Q eqn:E.
  - apply Qeq_alt in E. destruct (Z.even (Qfloor q));
      rewrite ?inject_Z_plus; change (inject_Z 1) with 1%Q; split; lra.
  - apply Qlt_alt in E. split; lra.
  - apply Qgt_alt in E. rewrite inject_Z_plus. change (inject_Z 1) with 1%Q.
    split; lra.
Qed.

Lemma round_half_even_Z (n : Z) : round_half_even (inject_Z n) = n.
Proof.
  unfold round_half_even. rewrite Qfloor_Z.
  assert (E : (inject_Z n - inject_Z n ?= 1 # 2)%Q = Lt).
  { apply Qlt_alt.
    assert (E0 : (inject_Z n - inject_Z n == 0)%Q) by ring.
    rewrite E0. reflexivity. }
  rewrite E. reflexivity.
Qed.

Lemma round_half_even_mono (p q : Q) :
  (p <= q)%Q -> round_half_even p <= round_half_even q.
Proof.
  intros Hpq.
  pose proof (Qfloor_le p) as Hp1. pose proof (Qlt_floor p) as Hp2.
  pose proof (Qfloor_le q) as Hq1. pose proof (Qlt_floor q) as Hq2.
  rewrite inject_Z_plus in Hp2, Hq2. change (inject_Z 1) with 1%Q in Hp2, Hq2.
  assert (Hfl : Qfloor p <= Qfloor q) by (apply Qfloor_resp_le, Hpq).
  assert (Hbounds : forall x, Qfloor x <= round_half_even x <= Qfloor x + 1).
  { intros x. unfold round_half_even.
    destruct (x - inject_Z (Qfloor x) ?= 1 # 2)%Q;
      [destruct (Z.even (Qfloor x))| |]; lia. }
  destruct (Z.eq_dec (Qfloor p) (Qfloor q)) as [Ef|Hne].
  - unfold round_half_even. rewrite Ef in *.
    pose proof (Qcompare_cases (p - inject_Z (Qfloor q)) (1 # 2)) as E1.
    pose proof (Qcompare_cases (q - inject_Z (Qfloor q)) (1 # 2)) as E2.
    destruct (p - inject_Z (Qfloor q) ?= 1 # 2)%Q;
      destruct (q - inject_Z (Qfloor q) ?= 1 # 2)%Q;
      try (destruct (Z.even (Qfloor q))); try lia; exfalso; lra.
  - pose proof (Hbounds p). pose proof (Hbounds q). lia.
Qed.

Lemma pow2_pos (e : Z) : (0 < 2 ^ e)%Q.
Proof. apply Qpower_0_lt. reflexivity. Qed.

Lemma pow2_mono (a b : Z) : a <= b -> (2 ^ a <= 2 ^ b)%Q.
Proof. intros H. apply Qpower_le_compat_l; [exact H | discriminate]. Qed.

Lemma pow2_plus (a b : Z) : (2 ^ (a + b) == 2 ^ a * 2 ^ b)%Q.
Proof. apply Qpower_plus. discriminate. Qed.

Lemma pow2_Z (n : Z) : 0 <= n -> (inject_Z (2 ^ n) == 2 ^ n)%Q.
Proof. intros Hn. apply (Zpower_Qpower 2 n Hn). Qed.

(** The binade of a positive number brackets it. *)
Lemma binade_spec (q : Q) :
  (0 < q)%Q -> (2 ^ binade q <= q < 2 ^ (binade q + 1))%Q.
Proof.
  intros Hq. destruct q as [n d]. unfold binade. simpl Qnum. simpl Qden.
  assert (Hn : 0 < n) by (unfold Qlt in Hq; simpl in Hq; lia).
  pose proof (Z.log2_spec n Hn) as [Hn1 Hn2].
  pose proof (Z.log2_spec (Z.pos d) ltac:(lia)) as [Hd1 Hd2].
  pose proof (Z.log2_nonneg n) as Ha. pose proof (Z.log2_nonneg (Z.pos d)) as Hb.
  set (a := Z.log2 n) in *. set (b := Z.log2 (Z.pos d)) in *.
  assert (Eq : (n # d == inject_Z n / inject_Z (Z.pos d))%Q)
    by (rewrite Qmake_Qdiv; reflexivity).
  assert (Hdpos : (0 < inject_Z (Z.pos d))%Q) by (rewrite <- (Zlt_Qlt 0); lia).
  assert (Qn1 : (2 ^ a <= inject_Z n)%Q)
    by (rewrite <- pow2_Z by lia; rewrite <- Zle_Qle; exact Hn1).
  assert (Qn2 : (inject_Z n < 2 ^ (a + 1))%Q).
  { rewrite <- pow2_Z by lia. rewrite <- Zlt_Qlt.
    replace (a + 1) with (Z.succ a) by lia. exact Hn2. }
  assert (Qd1 : (2 ^ b <= inject_Z (Z.pos d))%Q)
    by (rewrite <- pow2_Z by lia; rewrite <- Zle_Qle; exact Hd1).
  assert (Qd2 : (inject_Z (Z.pos d) < 2 ^ (b + 1))%Q).
  { rewrite <- pow2_Z by lia. rewrite <- Zlt_Qlt.
    replace (b + 1) with (Z.succ b) by lia. exact Hd2. }
  pose proof (pow2_pos b) as Pb. pose proof (pow2_pos (a - b)) as Pk.
  pose proof (pow2_pos (a - b - 1)) as Pk1.
  destruct (Qle_bool (2 ^ (a - b)) (n # d)) eqn:E.
  - apply Qle_bool_iff in E. split; [exact E|].
    rewrite Eq. apply Qlt_shift_div_r; [exact Hdpos|].
    assert (E1 : (2 ^ (a + 1) == 2 ^ (a - b + 1) * 2 ^ b)%Q).
    { rewrite <- pow2_plus. replace (a - b + 1 + b) with (a + 1) by lia.
      reflexivity. }
    pose proof (pow2_pos (a - b + 1)) as Pk2.
    rewrite E1 in Qn2. nra.
  - assert (Hlt : (n # d < 2 ^ (a - b))%Q).
    { apply Qnot_le_lt. intros Hle. apply Qle_bool_iff in Hle. congruence. }
    replace (a - b - 1 + 1) with (a - b) by lia.
    split; [|exact Hlt].
    rewrite Eq. apply Qle_shift_div_l; [exact Hdpos|].
    assert (E1 : (2 ^ a == 2 ^ (a - b - 1) * 2 ^ (b + 1))%Q).
    { rewrite <- pow2_plus. replace (a - b - 1 + (b + 1)) with a by lia.
      reflexivity. }
    rewrite E1 in Qn1. nra.
Qed.

Lemma binade_mono (p q : Q) :
  (0 < p)%Q -> (p <= q)%Q -> binade p <= binade q.
Proof.
  intros Hp Hpq.
  destruct (binade_spec p Hp) as [Hp1 _].
  destruct (binade_spec q ltac:(lra)) as [_ Hq2].
  assert (Hlt : (2 ^ binade p < 2 ^ (binade q + 1))%Q) by lra.
  apply Qpower_lt_compat_l_inv in Hlt; [lia | reflexivity].
Qed.

Lemma ulp32_pos (q : Q) : (0 < ulp32 q)%Q.
Proof. apply pow2_pos. Qed.

Lemma fround_pos_nonneg (q : Q) : (0 < q)%Q -> (0 <= fround_pos q)%Q.
Proof.
  intros Hq. unfold fround_pos.
  pose proof (ulp32_pos q) as Hu.
  apply Qmult_le_0_compat; [|lra].
  rewrite <- (Zle_Qle 0).
  rewrite <- (round_half_even_Z 0). apply round_half_even_mono.
  apply Qle_shift_div_l; [exact Hu|]. change (inject_Z 0) with 0%Q. lra.
Qed.

(** The rounding error is at most half a unit in the last place. *)
Lemma fround_pos_near (q : Q) :
  (Qabs (fround_pos q - q) <= ulp32 q / 2)%Q.
Proof.
  unfold fround_pos. pose proof (ulp32_pos q) as Hu.
  set (u := ulp32 q) in *.
  pose proof (round_half_even_near (q / u)) as Hn.
  set (m := inject_Z (round_half_even (q / u))) in *.
  assert (E : (m * u - q == (m - q / u) * u)%Q) by (field; lra).
  rewrite E, Qabs_Qmult, (Qabs_pos u) by lra.
  assert (E2 : (u / 2 == (1 # 2) * u)%Q) by field.
  rewrite E2.
  apply Qmult_le_compat_r; [exact Hn | lra].
Qed.

Lemma fround_pos_mono (p q : Q) :
  (0 < p)%Q -> (p <= q)%Q -> (fround_pos p <= fround_pos q)%Q.
Proof.
  intros Hp Hpq. assert (Hq : (0 < q)%Q) by lra.
  pose proof (binade_mono p q Hp Hpq) as He.
  destruct (binade_spec p Hp) as [_ Hp2].
  destruct (binade_spec q Hq) as [Hq1 _].
  unfold fround_pos, ulp32.
  set (E := Z.max (binade p) (-126)). set (E' := Z.max (binade q) (-126)).
  pose proof (pow2_pos (E - 23)) as Hu. pose proof (pow2_pos (E' - 23)) as Hu'.
  destruct (Z.eq_dec E E') as [<-|Hne].
  - apply Qmult_le_compat_r; [|lra].
    rewrite <- Zle_Qle. apply round_half_even_mono.
    apply Qmult_le_compat_r; [exact Hpq|].
    apply Qlt_le_weak, Qinv_lt_0_compat, Hu.
  - assert (HEE : E + 1 <= E') by lia.
    assert (HE' : E' = binade q) by lia.
    apply (Qle_trans _ (2 ^ (E + 1))%Q); [|apply (Qle_trans _ (2 ^ E')%Q)].
    + assert (Hy : (p / 2 ^ (E - 23) <= inject_Z (2 ^ 24))%Q).
      { apply Qle_shift_div_r; [exact Hu|].
        rewrite pow2_Z by lia. rewrite <- pow2_plus.
        replace (24 + (E - 23)) with (E + 1) by lia.
        pose proof (pow2_mono (binade p + 1) (E + 1) ltac:(lia)). lra. }
      apply round_half_even_mono in Hy. rewrite round_half_even_Z in Hy.
      rewrite Zle_Qle in Hy. rewrite pow2_Z in Hy by lia.
      assert (E1 : (2 ^ (E + 1) == 2 ^ 24 * 2 ^ (E - 23))%Q).
      { rewrite <- pow2_plus. replace (24 + (E - 23)) with (E + 1) by lia.
        reflexivity. }
      rewrite E1. apply Qmult_le_compat_r; [exact Hy | lra].
    + apply pow2_mono, HEE.
    + assert (Hy : (inject_Z (2 ^ 23) <= q / 2 ^ (E' - 23))%Q).
      { apply Qle_shift_div_l; [exact Hu'|].
        rewrite pow2_Z by lia. rewrite <- pow2_plus.
        replace (23 + (E' - 23)) with E' by lia.
        rewrite HE'. exact Hq1. }
      apply round_half_even_mono in Hy. rewrite round_half_even_Z in Hy.
      rewrite Zle_Qle in Hy. rewrite pow2_Z in Hy by lia.
      assert (E1 : (2 ^ E' == 2 ^ 23 * 2 ^ (E' - 23))%Q).
      { rewrite <- pow2_plus. replace (23 + (E' - 23)) with E' by lia.
        reflexivity. }
      rewrite E1. apply Qmult_le_compat_r; [exact Hy | lra].
Qed.

(** [fround] is a function of the number, not of the fraction that
    represents it. *)
Lemma fround_compat (p q : Q) : (p == q)%Q -> fround p = fround q.
Proof. intros E. unfold fround. rewrite (Qred_complete p q E). reflexivity. Qed.

#[global] Instance fround_proper : Proper (Qeq ==> Qeq) fround.
Proof. intros p q E. rewrite (fround_compat p q E). reflexivity. Qed.

Lemma Qred_sign (q : Q) :
  match Qnum (Qred q) with
  | Z0 => (q == 0)%Q
  | Zpos _ => (0 < q)%Q /\ (0 < Qred q)%Q
  | Zneg _ => (q < 0)%Q /\ (0 < - Qred q)%Q
  end.
Proof.
  pose proof (Qred_correct q) as E.
  destruct (Qred q) as [n d] eqn:Er. simpl.
  destruct n as [|n|n].
  - rewrite <- E. reflexivity.
  - assert (H : (0 < Z.pos n # d)%Q) by reflexivity. split; [|exact H].
    rewrite <- E. exact H.
  - assert (H : (Z.neg n # d < 0)%Q) by reflexivity. split.
    + rewrite <- E. exact H.
    + lra.
Qed.

Lemma fround_nonneg (q : Q) : (0 <= q)%Q -> (0 <= fround q)%Q.
Proof.
  intros Hq. unfold fround. pose proof (Qred_sign q) as Hs.
  destruct (Qnum (Qred q)).
  - lra.
  - apply fround_pos_nonneg, Hs.
  - destruct Hs as [Hneg _]. lra.
Qed.

Lemma fround_nonpos (q : Q) : (q <= 0)%Q -> (fround q <= 0)%Q.
Proof.
  intros Hq. unfold fround. pose proof (Qred_sign q) as Hs.
  destruct (Qnum (Qred q)).
  - lra.
  - destruct Hs as [Hpos _]. lra.
  - pose proof (fround_pos_nonneg (- Qred q) (proj2 Hs)). lra.
Qed.

(** Rounding keeps the order. *)
Lemma fround_mono (p q : Q) : (p <= q)%Q -> (fround p <= fround q)%Q.
Proof.
  intros Hpq.
  destruct (Qlt_le_dec 0 p) as [Hp|Hp].
  - unfold fround.
    pose proof (Qred_sign p) as Hsp. pose proof (Qred_sign q) as Hsq.
    pose proof (Qred_correct p) as Ep. pose proof (Qred_correct q) as Eq.
    destruct (Qnum (Qred p)); [lra | | destruct Hsp; lra].
    destruct (Qnum (Qred q)); [lra | | destruct Hsq; lra].
    apply fround_pos_mono; [apply Hsp | lra].
  - destruct (Qlt_le_dec q 0) as [Hq|Hq].
    + unfold fround.
      pose proof (Qred_sign p) as Hsp. pose proof (Qred_sign q) as Hsq.
      pose proof (Qred_correct p) as Ep. pose proof (Qred_correct q) as Eq.
      destruct (Qnum (Qred q)); [lra | destruct Hsq; lra |].
      destruct (Qnum (Qred p)); [lra | destruct Hsp; lra |].
      apply Qopp_le_compat.
      apply fround_pos_mono; [apply Hsq | lra].
    + pose proof (fround_nonpos p Hp). pose proof (fround_nonneg q Hq). lra.
Qed.

(** The rounding error of a store: at most [2^-24] of the number, or
    [2^-150] for the numbers below the normal range. *)
Lemma fround_near (q : Q) :
  (Qabs (fround q - q) <= Qabs q * 2 ^ (-24) + 2 ^ (-150))%Q.
Proof.
  assert (Hpos : forall r, (0 < r)%Q ->
            (Qabs (fround_pos r - r) <= r * 2 ^ (-24) + 2 ^ (-150))%Q).
  { intros r Hr. pose proof (fround_pos_near r) as Hn.
    destruct (binade_spec r Hr) as [Hb _].
    pose proof (pow2_pos (-24)) as P24. pose proof (pow2_pos (-150)) as P150.
    assert (Hu : (ulp32 r / 2 <= r * 2 ^ (-24) + 2 ^ (-150))%Q).
    { unfold ulp32.
      destruct (Z.max_spec (binade r) (-126)) as [[Hlt ->] | [Hge ->]].
      - change (2 ^ (-126 - 23) / 2)%Q with (2 ^ (-150))%Q. nra.
      - assert (E : (2 ^ (binade r - 23) / 2 == 2 ^ binade r * 2 ^ (-24))%Q).
        { rewrite <- pow2_plus.
          replace (binade r + -24) with (binade r - 23 + -1) by lia.
          rewrite pow2_plus. change (2 ^ (-1))%Q with (1 # 2)%Q. field. }
        rewrite E. nra. }
    lra. }
  unfold fround. pose proof (Qred_sign q) as Hs.
  pose proof (Qred_correct q) as E.
  pose proof (pow2_pos (-150)) as P150.
  destruct (Qnum (Qred q)).
  - assert (E0 : (0 - q == 0)%Q) by (rewrite Hs; reflexivity).
    rewrite E0, Hs. change (Qabs 0) with 0%Q. lra.
  - destruct Hs as [Hq Hr]. specialize (Hpos _ Hr).
    rewrite (Qabs_pos q) by lra.
    apply Qabs_Qle_condition. apply Qabs_Qle_condition in Hpos.
    change (2 ^ (-24))%Q with (1 # 16777216)%Q in *.
    set (d := (2 ^ (-150))%Q) in *. set (f := fround_pos (Qred q)) in *.
    split; lra.
  - destruct Hs as [Hq Hr]. specialize (Hpos _ Hr).
    rewrite (Qabs_neg q) by lra.
    apply Qabs_Qle_condition. apply Qabs_Qle_condition in Hpos.
    change (2 ^ (-24))%Q with (1 # 16777216)%Q in *.
    set (d := (2 ^ (-150))%Q) in *. set (f := fround_pos (- Qred q)) in *.
    split; lra.
Qed.

Lemma fround_0 : fround 0 = 0%Q.
Proof. reflexivity. Qed.

Lemma fround_1 : (fround 1 == 1)%Q.
Proof. vm_compute. reflexivity. Qed.


(** ** Typed-array reads and writes *)

Lemma length_write {A : Type} (a : list A) (i : Z) (v : A) :
  length (write a i v) = length a.
Proof. unfold write. destruct (i <? 0); [reflexivity | apply length_insert]. Qed.

Lemma read_write_eq {A : Type} (d : A) (a : list A) (i : Z) (v : A) :
  0 <= i < Z.of_nat (length a) -> read d (write a i v) i = v.
Proof.
  intros Hi. unfold read, write.
  destruct (Z.ltb_spec i 0); [lia|].
  rewrite list_lookup_insert_eq by lia. reflexivity.
Qed.

Lemma read_write_ne {A : Type} (d : A) (a : list A) (i j : Z) (v : A) :
  i <> j -> 0 <= j -> read d (write a i v) j = read d a j.
Proof.
  intros Hne Hj. unfold read, write.
  destruct (Z.ltb_spec j 0); [lia|].
  destruct (Z.ltb_spec i 0); [reflexivity|].
  rewrite list_lookup_insert_ne by lia. reflexivity.
Qed.

Lemma lookup_write_ne {A : Type} (a : list A) (i : Z) (k : nat) (v : A) :
  i <> Z.of_nat k -> write a i v !! k = a !! k.
Proof.
  intros Hne. unfold write. destruct (Z.ltb_spec i 0); [reflexivity|].
  apply list_lookup_insert_ne. lia.
Qed.

Lemma lookup_write_eq {A : Type} (a : list A) (k : nat) (v : A) :
  (k < length a)%nat -> write a (Z.of_nat k) v !! k = Some v.
Proof.
  intros Hk. unfold write. destruct (Z.ltb_spec (Z.of_nat k) 0); [lia|].
  rewrite Nat2Z.id. apply list_lookup_insert_eq. exact Hk.
Qed.

(** An element of a written array is the written value or an old one. *)
Lemma elem_of_write {A : Type} (a : list A) (i : Z) (v x : A) :
  In x (write a i v) -> x = v \/ In x a.
Proof.
  unfold write. destruct (i <? 0); [auto|].
  intros Hin. apply list_elem_of_In in Hin.
  apply list_elem_of_lookup in Hin as [k Hk].
  destruct (decide (Z.to_nat i = k)) as [<-|Hne].
  - destruct (decide (Z.to_nat i < length a)%nat) as [Hlt|Hge].
    + rewrite list_lookup_insert_eq in Hk by exact Hlt. left. congruence.
    + rewrite list_insert_ge in Hk by lia.
      right. apply list_elem_of_In, list_elem_of_lookup. eauto.
  - rewrite list_lookup_insert_ne in Hk by exact Hne.
    right. apply list_elem_of_In, list_elem_of_lookup. eauto.
Qed.

(** A read returns the default or an element of the array. *)
Lemma read_In {A : Type} (d : A) (a : list A) (i : Z) :
  read d a i = d \/ In (read d a i) a.
Proof.
  unfold read. destruct (i <? 0); [auto|].
  destruct (a !! Z.to_nat i) as [x|] eqn:Hx; simpl; [|auto].
  right. apply list_elem_of_In, list_elem_of_lookup. eauto.
Qed.

Lemma read_lookup {A : Type} (d : A) (a : list A) (k : nat) (x : A) :
  a !! k = Some x -> read d a (Z.of_nat k) = x.
Proof.
  intros Hx. unfold read. destruct (Z.ltb_spec (Z.of_nat k) 0); [lia|].
  rewrite Nat2Z.id, Hx. reflexivity.
Qed.

(** ** Comparisons on rationals *)

Lemma Qltb_true (a b : Q) : Qltb a b = true <-> (a < b)%Q.
Proof.
  unfold Qltb. rewrite negb_true_iff.
  destruct (Qle_bool b a) eqn:E.
  - apply Qle_bool_iff in E. split; [discriminate | intros; lra].
  - split; [intros _ | reflexivity].
    apply Qnot_le_lt. intros Hle. apply Qle_bool_iff in Hle. congruence.
Qed.

Lemma Qltb_false (a b : Q) : Qltb a b = false <-> (b <= a)%Q.
Proof.
  unfold Qltb. rewrite negb_false_iff. apply Qle_bool_iff.
Qed.

Lemma Qleb_true (a b : Q) : Qleb a b = true <-> (a <= b)%Q.
Proof. apply Qle_bool_iff. Qed.

Lemma Qleb_false (a b : Q) : Qleb a b = false <-> (b < a)%Q.
Proof.
  unfold Qleb. destruct (Qle_bool a b) eqn:E.
  - apply Qle_bool_iff in E. split; [discriminate | intros; lra].
  - split; [intros _ | reflexivity].
    apply Qnot_le_lt. intros Hle. apply Qle_bool_iff in Hle. congruence.
Qed.

(** ** Mesh density selection *)

(** C6. [findBestMeshSize(1920, 1080)] with the default budget 250000 and
    tolerance 2000 returns 665 columns and 374 rows: their product lies in
    [248000, 252000] and [|columns/rows - 1920/1080| < 0.01], each checked
    with the binary64 operations of the source. *)
Theorem findBestMeshSize_1920_1080 :
  exists columns rows : float,
    Density.findBestMeshSize 1920 1080 TARGET_MESH MESH_DIFF = (columns, rows)
    /\ columns = 665%float /\ rows = 374%float
    /\ (248000 <=? columns * rows)%float = true
    /\ (columns * rows <=? 252000)%float = true
    /\ (PrimFloat.abs (columns / rows - 1920 / 1080) <? 0.01)%float = true.
Proof.
  exists 665%float, 374%float.
  repeat split; vm_compute; reflexivity.
Qed.

(** The same two bounds in exact arithmetic. *)
Example mesh_665_374_exact :
  248000 <= 665 * 374 <= 252000
  /\ (Qabs ((665 # 374) - (1920 # 1080)) < 0.01)%Q.
Proof. split; [lia | vm_compute; reflexivity]. Qed.

(** ** Depth decoding *)

Lemma shl_byte (a n : Z) :
  0 <= a < 256 -> 0 <= n < 24 -> shl a n = a * 2 ^ n.
Proof.
  intros Ha Hn. unfold shl, toInt32, toUint32.
  assert (Hn' : n mod 2 ^ 32 mod 32 = n).
  { rewrite (Z.mod_small n (2 ^ 32)) by lia. apply Z.mod_small. lia. }
  rewrite Hn'.
  rewrite (Z.mod_small (a + 2 ^ 31) (2 ^ 32)) by lia.
  replace (a + 2 ^ 31 - 2 ^ 31) with a by lia.
  rewrite Z.shiftl_mul_pow2 by lia.
  assert (Hp : 0 < 2 ^ n <= 2 ^ 23).
  { split; [apply Z.pow_pos_nonneg; lia | apply Z.pow_le_mono_r; lia]. }
  rewrite Z.mod_small; [lia|]. nia.
Qed.

Lemma ushr0_shl_24 (a : Z) :
  0 <= a < 256 -> ushr0 (shl a 24) = a * 2 ^ 24.
Proof.
  intros Ha. unfold ushr0, shl, toInt32, toUint32.
  change (24 mod 2 ^ 32 mod 32) with 24.
  rewrite (Z.mod_small (a + 2 ^ 31) (2 ^ 32)) by lia.
  replace (a + 2 ^ 31 - 2 ^ 31) with a by lia.
  rewrite Z.shiftl_mul_pow2 by lia.
  rewrite Zminus_mod_idemp_l.
  replace (a * 2 ^ 24 + 2 ^ 31 - 2 ^ 31) with (a * 2 ^ 24) by lia.
  apply Z.mod_small. lia.
Qed.

(** The depth word is the little-endian reading of the four bytes. *)
Lemma encodedWord_bytes (r g b a : Z) :
  0 <= r < 256 -> 0 <= g < 256 -> 0 <= b < 256 -> 0 <= a < 256 ->
  encodedWord r g b a = a * 2 ^ 24 + b * 2 ^ 16 + g * 2 ^ 8 + r.
Proof.
  intros Hr Hg Hb Ha. unfold encodedWord.
  rewrite ushr0_shl_24 by exact Ha.
  rewrite !shl_byte by lia.
  unfold ushr0, toUint32. apply Z.mod_small. lia.
Qed.

(** A shifted value and a value below the shift have no common bit: their
    sum is their bitwise or. *)
Lemma shiftl_add_lor (hi lo n : Z) :
  0 <= n -> 0 <= lo < 2 ^ n ->
  Z.shiftl hi n + lo = Z.lor (Z.shiftl hi n) lo.
Proof.
  intros Hn Hlo.
  assert (Hland : Z.land (Z.shiftl hi n) lo = 0).
  { apply Z.bits_inj'. intros k Hk.
    rewrite Z.land_spec, Z.bits_0.
    destruct (Z_lt_le_dec k n) as [Hlt|Hge].
    - rewrite Z.shiftl_spec_low by exact Hlt. reflexivity.
    - rewrite <- (Z.mod_small lo (2 ^ n)) by exact Hlo.
      rewrite Z.mod_pow2_bits_high by lia. apply andb_false_r. }
  rewrite Z.add_nocarry_lxor by exact Hland.
  apply Z.lxor_lor. exact Hland.
Qed.

Lemma bytes_lor (r g b a : Z) :
  0 <= r < 256 -> 0 <= g < 256 -> 0 <= b < 256 -> 0 <= a < 256 ->
  a * 2 ^ 24 + b * 2 ^ 16 + g * 2 ^ 8 + r
  = Z.lor (Z.lor (Z.lor (Z.shiftl a 24) (Z.shiftl b 16)) (Z.shiftl g 8)) r.
Proof.
  intros Hr Hg Hb Ha.
  assert (E1 : Z.shiftl a 8 + b = Z.lor (Z.shiftl a 8) b)
    by (apply shiftl_add_lor; lia).
  assert (E2 : Z.shiftl (Z.shiftl a 8 + b) 8 + g
               = Z.lor (Z.shiftl (Z.shiftl a 8 + b) 8) g)
    by (apply shiftl_add_lor; lia).
  assert (E3 : Z.shiftl (Z.shiftl (Z.shiftl a 8 + b) 8 + g) 8 + r
               = Z.lor (Z.shiftl (Z.shiftl (Z.shiftl a 8 + b) 8 + g) 8) r)
    by (apply shiftl_add_lor; lia).
  transitivity (Z.shiftl (Z.shiftl (Z.shiftl a 8 + b) 8 + g) 8 + r).
  { rewrite !Z.shiftl_mul_pow2 by lia. lia. }
  rewrite E3, E2, E1.
  rewrite !Z.shiftl_lor, !Z.shiftl_shiftl by lia.
  reflexivity.
Qed.

(** The colour loop leaves [depthValues] alone. *)
Lemma decode_color_loop_depth (data : list Z) (srcRow leftRow width : Z)
    (st : DecodeState) :
  depthValues (for_range 0 width (decode_color_pixel data srcRow leftRow) st)
  = depthValues st.
Proof.
  apply (for_range_inv (fun t => depthValues t = depthValues st)); [reflexivity|].
  intros j t _ Ht. exact Ht.
Qed.

Lemma decode_depth_pixel_depthValues (data : list Z) (width rightRow y x : Z)
    (st : DecodeState) :
  depthValues (decode_depth_pixel data width rightRow y x st)
  = write (depthValues st) (y * width + x)
      (fround (decodeDepth (readZ data (rightRow + x * 4))
                 (readZ data (rightRow + x * 4 + 1))
                 (readZ data (rightRow + x * 4 + 2))
                 (readZ data (rightRow + x * 4 + 3)))).
Proof.
  unfold decode_depth_pixel.
  destruct (Qltb 0 _); reflexivity.
Qed.

(** The depth the loops store for pixel [(x, y)]. *)
Lemma decode_pixels_depth (img : PngImage) (x y : Z) :
  0 <= x < png_width img / 2 -> 0 <= y < png_height img ->
  readQ (depthValues (decode_pixels img)) (y * (png_width img / 2) + x)
  = fround (decodeDepth (depth_byte img x y 0) (depth_byte img x y 1)
              (depth_byte img x y 2) (depth_byte img x y 3)).
Proof.
  intros Hx Hy. unfold decode_pixels.
  set (fullWidth := png_width img) in *. set (height := png_height img) in *.
  set (width := fullWidth / 2) in *. set (data := png_data img).
  set (px := fun x' y' =>
    fround (decodeDepth (depth_byte img x' y' 0) (depth_byte img x' y' 1)
              (depth_byte img x' y' 2) (depth_byte img x' y' 3))).
  (* rows below [j] are decoded *)
  set (Row := fun (j : Z) (st : DecodeState) =>
    length (depthValues st) = Z.to_nat (width * height)
    /\ forall x' y', 0 <= x' < width -> 0 <= y' < j ->
         readQ (depthValues st) (y' * width + x') = px x' y').
  assert (Hrow : Row height
            (for_range 0 height (decode_row data fullWidth width)
               {| leftPixels := replicate (Z.to_nat (width * height * 4)) 0;
                  depthValues := replicate (Z.to_nat (width * height)) 0%Q;
                  depthMin := PosInfinity; depthMax := 0%Q; console := [] |})).
  { apply (for_range_ind Row); [lia | |].
    - split; [apply length_replicate | intros; lia].
    - intros j st Hj [Hlen Hdone]. unfold decode_row.
      set (st1 := for_range 0 width (decode_color_pixel data _ _) st).
      assert (Hst1 : depthValues st1 = depthValues st)
        by apply decode_color_loop_depth.
      (* columns below [i] of row [j] are decoded *)
      set (Col := fun (i : Z) (t : DecodeState) =>
        length (depthValues t) = Z.to_nat (width * height)
        /\ forall x' y', 0 <= x' < width ->
             (0 <= y' < j \/ (y' = j /\ x' < i)) ->
             readQ (depthValues t) (y' * width + x') = px x' y').
      assert (Hcol : Col width
                (for_range 0 width
                   (decode_depth_pixel data width (j * fullWidth * 4 + width * 4) j)
                   st1)).
      { apply (for_range_ind Col); [lia | |].
        - split; [congruence|].
          intros x' y' Hx' [Hy'|[_ Hlt]]; [|lia].
          rewrite Hst1. apply Hdone; assumption.
        - intros i t Hi [Hlen' Hdone']. unfold Col.
          rewrite decode_depth_pixel_depthValues. split.
          + rewrite length_write. exact Hlen'.
          + intros x' y' Hx' Hcase.
            destruct (Z.eq_dec (y' * width + x') (j * width + i)) as [E|NE].
            * assert (y' = j /\ x' = i) as [-> ->] by nia.
              unfold readQ. rewrite read_write_eq by nia.
              unfold px, depth_byte. fold fullWidth width data.
              rewrite Z.add_0_r. reflexivity.
            * unfold readQ. rewrite read_write_ne by nia.
              apply Hdone'; [exact Hx'|].
              destruct Hcase as [Hy'|[-> Hlt]]; [left; exact Hy'|].
              right. split; [reflexivity|]. nia. }
      destruct Hcol as [Hlen2 Hdone2]. split; [exact Hlen2|].
      intros x' y' Hx' Hy'. apply Hdone2; [exact Hx'|].
      destruct (Z.eq_dec y' j); [right|left]; lia. }
  destruct Hrow as [_ Hall]. apply Hall; [exact Hx | exact Hy].
Qed.

(** C1 (amended). For every depth-half pixel with bytes (R,G,B,A), the
    decoder's word is the unsigned 32-bit integer (A<<24)|(B<<16)|(G<<8)|R,
    the depth it computes is that word divided by 10000, and the depth
    array keeps the binary32 rounding of that depth; bytes (16,0,0,0)
    decode to 0.0016 m, kept as 13743895 / 2^33 = 0.00159999995958..., and
    bytes (0,0,0,1) decode to 1677.7216 m, kept as 13743895 / 2^13 =
    1677.7215576171875. *)
Theorem depth_decoding_exact (img : PngImage) (x y : Z) :
  0 <= x < png_width img / 2 ->
  0 <= y < png_height img ->
  (forall v, In v (png_data img) -> 0 <= v < 256) ->
  let r := depth_byte img x y 0 in
  let g := depth_byte img x y 1 in
  let b := depth_byte img x y 2 in
  let a := depth_byte img x y 3 in
  encodedWord r g b a = littleEndianWord r g b a
  /\ 0 <= littleEndianWord r g b a < 2 ^ 32
  /\ (decodeDepth r g b a == inject_Z (littleEndianWord r g b a) / 10000)%Q
  /\ readQ (depthValues (decode_pixels img)) (y * (png_width img / 2) + x)
     = fround (inject_Z (littleEndianWord r g b a) / 10000)
  /\ (decodeDepth 16 0 0 0 == 0.0016)%Q
  /\ (decodeDepth 0 0 0 1 == 1677.7216)%Q
  /\ (fround (decodeDepth 16 0 0 0) == 13743895 # 8589934592)%Q
  /\ (fround (decodeDepth 0 0 0 1) == 13743895 # 8192)%Q.
Proof.
  intros Hx Hy Hbytes r g b a.
  assert (Hbyte : forall c, 0 <= depth_byte img x y c < 256).
  { intros c. unfold depth_byte, readZ.
    destruct (read_In 0 (png_data img)
                (y * png_width img * 4 + png_width img / 2 * 4 + x * 4 + c))
      as [E|Hin]; [rewrite E; lia | apply Hbytes, Hin]. }
  assert (Hword : encodedWord r g b a = littleEndianWord r g b a).
  { unfold littleEndianWord. rewrite <- bytes_lor by apply Hbyte.
    apply encodedWord_bytes; apply Hbyte. }
  split; [exact Hword|]. split.
  { rewrite <- Hword, encodedWord_bytes by apply Hbyte.
    pose proof (Hbyte 0). pose proof (Hbyte 1).
    pose proof (Hbyte 2). pose proof (Hbyte 3). subst r g b a. lia. }
  split.
  { unfold decodeDepth. rewrite Hword. reflexivity. }
  split.
  { rewrite decode_pixels_depth by assumption.
    unfold decodeDepth. fold r g b a. rewrite Hword. reflexivity. }
  repeat split; vm_compute; reflexivity.
Qed.

(** The theorem at pixel (1, 0) of [tiny_image], whose bytes are
    (0, 0, 0, 1). *)
Lemma depth_decoding_exact_witness :
  readQ (depthValues (decode_pixels tiny_image)) 1
  = fround (inject_Z (littleEndianWord 0 0 0 1) / 10000).
Proof.
  refine (proj1 (proj2 (proj2 (proj2
            (depth_decoding_exact tiny_image 1 0 _ _ _))))).
  - vm_compute. split; [discriminate | reflexivity].
  - vm_compute. split; [discriminate | reflexivity].
  - intros v Hin. simpl in Hin.
    repeat (destruct Hin as [<-|Hin]; [lia|]). contradiction.
Defined.

(** C1, as stated, fails: the bytes (0, 0, 0, 1) of pixel (1, 0) of
    [tiny_image] do not decode to 1677721.6 m: the depth computed is
    16777216 / 10000, and neither it nor the number kept in the depth
    array is 1677721.6. *)
Lemma depth_0001_is_not_1677721_6 :
  ~ (decodeDepth (depth_byte tiny_image 1 0 0) (depth_byte tiny_image 1 0 1)
       (depth_byte tiny_image 1 0 2) (depth_byte tiny_image 1 0 3)
     == 1677721.6)%Q
  /\ ~ (readQ (depthValues (decode_pixels tiny_image)) 1 == 1677721.6)%Q.
Proof. split; vm_compute; discriminate. Qed.

(** The store rounds: the number kept for the bytes (16, 0, 0, 0) of pixel
    (0, 0) of [tiny_image] is not 0.0016. *)
Example depth_16000_is_stored_rounded :
  (readQ (depthValues (decode_pixels tiny_image)) 0
   == 13743895 # 8589934592)%Q
  /\ ~ (readQ (depthValues (decode_pixels tiny_image)) 0 == 0.0016)%Q.
Proof. split; vm_compute; [reflexivity | discriminate]. Qed.

(** The same quotients with the binary64 division of the source. *)
Example depth_quotients_binary64 :
  (Density.Z2float 16 / 10000 =? 0.0016)%float = true
  /\ (Density.Z2float 16777216 / 10000 =? 1677.7216)%float = true
  /\ (Density.Z2float 16777216 / 10000 =? 1677721.6)%float = false.
Proof. vm_compute. repeat split; reflexivity. Qed.

(** ** Odd-width rejection *)

Lemma odd_rem_2 (w : Z) : Z.odd w = true -> Z.rem w 2 <> 0.
Proof.
  intros Hodd E. apply Z.rem_divide in E; [|lia].
  destruct E as [k ->]. rewrite Z.mul_comm, Z.odd_mul in Hodd.
  simpl in Hodd. discriminate.
Qed.

(** C5. When the container decodes to an image of odd width,
    [decodeRgbdeFile] throws the even-width error (the rejection the
    specification calls FormatError) and nothing else happens: no asset is
    produced and no depth bytes were logged, the pixel loops are never
    entered. *)
Theorem odd_width_rejected {M : MathLib} (Blob : Type)
    (parsePng : Blob -> Outcome PngImage) (file : Blob) (img : PngImage) :
  parsePng file = Returned img ->
  Z.odd (png_width img) = true ->
  decodeRgbdeFile Blob parsePng file = ([], Thrown (Error even_width_message)).
Proof.
  intros Hparse Hodd. unfold decodeRgbdeFile. rewrite Hparse.
  destruct (Z.eqb_spec (Z.rem (png_width img) 2) 0) as [E|NE]; simpl.
  - exfalso. exact (odd_rem_2 _ Hodd E).
  - reflexivity.
Qed.

(** The theorem at [odd_image], which is three pixels wide. *)
Lemma odd_width_rejected_witness :
  @decodeRgbdeFile approxMath unit (fun _ => Returned odd_image) tt
  = ([], Thrown (Error even_width_message)).
Proof.
  apply (@odd_width_rejected approxMath unit (fun _ => Returned odd_image) tt odd_image);
    reflexivity.
Defined.

(** An exception of [parsePng] is the outcome of the decode. *)
Lemma parse_error_propagates {M : MathLib} (Blob : Type)
    (parsePng : Blob -> Outcome PngImage) (file : Blob) (e : JsError) :
  parsePng file = Thrown e ->
  decodeRgbdeFile Blob parsePng file = ([], Thrown e).
Proof. intros Hparse. unfold decodeRgbdeFile. rewrite Hparse. reflexivity. Qed.

Lemma new_ImageData_returns (fullWidth height : Z) :
  2 <= fullWidth -> 1 <= height ->
  new_ImageData_throws (fullWidth / 2) height = false.
Proof.
  intros Hw Hh. unfold new_ImageData_throws.
  assert (1 <= fullWidth / 2) by (apply Z.div_le_lower_bound; lia).
  destruct (Z.eqb_spec (fullWidth / 2) 0); [lia|].
  destruct (Z.eqb_spec height 0); [lia | reflexivity].
Qed.

(** An even width passes the guard, and an image with a pixel passes the
    [ImageData] constructor. *)
Lemma even_width_decodes {M : MathLib} (Blob : Type)
    (parsePng : Blob -> Outcome PngImage) (file : Blob) (img : PngImage) :
  parsePng file = Returned img ->
  Z.rem (png_width img) 2 = 0 ->
  2 <= png_width img -> 1 <= png_height img ->
  exists asset,
    snd (decodeRgbdeFile Blob parsePng file) = Returned asset
    /\ asset_width asset = png_width img / 2
    /\ asset_height asset = png_height img.
Proof.
  intros Hparse Heven Hw Hh. unfold decodeRgbdeFile.
  rewrite Hparse, Heven. simpl.
  rewrite new_ImageData_returns by assumption.
  eexists. split; [reflexivity|]. split; reflexivity.
Qed.

(** An image without a pixel is decoded, its statistics are logged, and
    the [ImageData] constructor throws. *)
Lemma empty_image_throws {M : MathLib} (Blob : Type)
    (parsePng : Blob -> Outcome PngImage) (file : Blob) (img : PngImage) :
  parsePng file = Returned img ->
  Z.rem (png_width img) 2 = 0 ->
  png_width img = 0 \/ png_height img = 0 ->
  snd (decodeRgbdeFile Blob parsePng file) = Thrown DOMException.
Proof.
  intros Hparse Heven Hempty. unfold decodeRgbdeFile.
  rewrite Hparse, Heven. simpl. unfold new_ImageData_throws.
  destruct Hempty as [-> | ->]; simpl; [reflexivity|].
  rewrite orb_true_r. reflexivity.
Qed.

(** ** Bilinear sampling *)

Lemma Qmax_cases (a b : Q) : Qmax a b = a \/ Qmax a b = b.
Proof.
  unfold Qmax, GenericMinMax.gmax. destruct (a ?= b)%Q; auto.
Qed.

Lemma Qmin_cases (a b : Q) : Qmin a b = a \/ Qmin a b = b.
Proof.
  unfold Qmin, GenericMinMax.gmin. destruct (a ?= b)%Q; auto.
Qed.

(** [sampleDepth] in terms of the interpolated value and the top-left
    sample. *)
Lemma sampleDepth_unfold (depth : list Q) (width height : Z) (x y fallback : Q) :
  sampleDepth depth width height x y fallback
  = if Qltb 0 (bilinearValue depth width height x y)
    then bilinearValue depth width height x y
    else Qmax (topLeftSample depth width height x y) fallback.
Proof. reflexivity. Qed.

(** Reading a [Float32Array] that was filled with rounded numbers. *)
Lemma readQ_fround (l : list Q) (i : Z) :
  readQ (fround <$> l) i = fround (readQ l i).
Proof.
  unfold readQ, read. destruct (i <? 0); [reflexivity|].
  rewrite list_lookup_fmap. destruct (l !! Z.to_nat i); reflexivity.
Qed.

Lemma read_in_range {A : Type} (d : A) (a : list A) (i : Z) :
  0 <= i < Z.of_nat (length a) -> In (read d a i) a.
Proof.
  intros Hi. unfold read. destruct (Z.ltb_spec i 0); [lia|].
  destruct (lookup_lt_is_Some_2 a (Z.to_nat i) ltac:(lia)) as [x Hx].
  rewrite Hx. simpl. apply list_elem_of_In, list_elem_of_lookup. eauto.
Qed.

Lemma clampCoord_range (size q : Z) : 1 <= size -> 0 <= clampCoord size q < size.
Proof. intros Hs. unfold clampCoord. lia. Qed.

(** C8. On a [width] x [height] grid, a positive bilinear value is
    returned as it is; otherwise the result is [Math.max] of the top-left
    sample of the cell (a sample of the grid) and the fallback minimum,
    hence one of these two numbers: no other sample is searched for. *)
Theorem sampleDepth_fallback (depth : list Q) (width height : Z) (x y fallback : Q) :
  1 <= width -> 1 <= height ->
  length depth = Z.to_nat (width * height) ->
  let value := bilinearValue depth width height x y in
  let d00 := topLeftSample depth width height x y in
  let result := sampleDepth depth width height x y fallback in
  In d00 depth
  /\ ((0 < value)%Q -> result = value)
  /\ ((value <= 0)%Q ->
      result = Qmax d00 fallback /\ (result = d00 \/ result = fallback)).
Proof.
  intros Hw Hh Hlen value d00 result. subst result. rewrite sampleDepth_unfold.
  fold value d00. split; [|split].
  - unfold d00, topLeftSample, readQ. apply read_in_range.
    pose proof (clampCoord_range width (Qfloor x) Hw).
    pose proof (clampCoord_range height (Qfloor y) Hh).
    rewrite Hlen. nia.
  - intros Hpos. apply Qltb_true in Hpos. rewrite Hpos. reflexivity.
  - intros Hneg. apply Qltb_false in Hneg. rewrite Hneg.
    split; [reflexivity | apply Qmax_cases].
Qed.

(** The theorem at the missing sample of the one-row grid [0; 7]: the
    result is the fallback 1. *)
Lemma sampleDepth_fallback_witness :
  sampleDepth [0; 7]%Q 2 1 0 0 1 = Qmax (topLeftSample [0; 7]%Q 2 1 0 0) 1.
Proof.
  refine (proj1 (proj2 (proj2
    (sampleDepth_fallback [0; 7]%Q 2 1 0 0 1 _ _ _)) _));
    vm_compute; congruence.
Defined.

(** On the grid [0; 7] (one row), the sample at [x = 0] is missing and its
    right neighbour is valid: the result is the fallback, not 7. *)
Example sampleDepth_no_valid_search :
  sampleDepth [0; 7]%Q 2 1 0 0 1 = 1%Q.
Proof. reflexivity. Qed.

(** Between two samples the positive interpolation is returned. *)
Example sampleDepth_interpolates :
  (sampleDepth [2; 4]%Q 2 1 0.5 0 1 == 3)%Q.
Proof. vm_compute. reflexivity. Qed.

(** ** The denoiser *)

Lemma read_Some {A : Type} (d : A) (a : list A) (k : nat) :
  (k < length a)%nat -> a !! k = Some (read d a (Z.of_nat k)).
Proof.
  intros Hk. destruct (lookup_lt_is_Some_2 a k Hk) as [x Hx].
  rewrite (read_lookup d a k x Hx). exact Hx.
Qed.

Lemma In_insert_sorted (a x : Q) (l : list Q) :
  In x (insert_sorted a l) -> x = a \/ In x l.
Proof.
  induction l as [|b l IH]; simpl.
  - intros [<-|[]]. left. reflexivity.
  - destruct (Qleb a b); simpl.
    + intros [<-|[<-|Hin]]; auto.
    + intros [<-|Hin]; [auto|]. destruct (IH Hin); auto.
Qed.

Lemma In_sort_numeric (x : Q) (l : list Q) :
  In x (sort_numeric l) -> In x l.
Proof.
  induction l as [|a l IH]; simpl; [auto|].
  intros Hin. apply In_insert_sorted in Hin as [->|Hin]; auto.
Qed.

(** Sorting keeps the number of elements. *)
Lemma length_insert_sorted (a : Q) (l : list Q) :
  length (insert_sorted a l) = Datatypes.S (length l).
Proof.
  induction l as [|b l IH]; simpl; [reflexivity|].
  destruct (Qleb a b); simpl; [reflexivity | rewrite IH; reflexivity].
Qed.

Lemma length_sort_numeric (l : list Q) : length (sort_numeric l) = length l.
Proof.
  induction l as [|a l IH]; simpl; [reflexivity|].
  rewrite length_insert_sorted, IH. reflexivity.
Qed.

Lemma readQ_from_grid (depth : list Q) (i : Z) : from_grid depth (readQ depth i).
Proof. apply read_In. Qed.

Section DenoiserProperties.
Context {M : MathLib}.

Lemma window3x3_from_grid (depth : list Q) (width height x y : Z) :
  forall v, In v (window3x3 depth width height x y) -> from_grid depth v.
Proof.
  unfold window3x3.
  apply (for_range_inv (fun w => forall v, In v w -> from_grid depth v)).
  - intros v [].
  - intros ky w _ Hw.
    apply (for_range_inv (fun w => forall v, In v w -> from_grid depth v));
      [exact Hw|].
    intros kx w' _ Hw' v Hin. apply in_app_or in Hin as [Hin|[<-|[]]].
    + apply Hw', Hin.
    + apply readQ_from_grid.
Qed.

(** The median is one of the depths of the grid (or the default). *)
Lemma median_from_grid (depth : list Q) (width height x y : Z) :
  from_grid depth (median_of (window3x3 depth width height x y)).
Proof.
  unfold median_of.
  destruct (readQ_from_grid (sort_numeric (window3x3 depth width height x y))
              (Z.of_nat (length (sort_numeric (window3x3 depth width height x y))) / 2))
    as [E|Hin].
  - left. exact E.
  - apply (window3x3_from_grid depth width height x y).
    apply In_sort_numeric, Hin.
Qed.

(** What a step of pass A can do to the result. *)
Lemma reduceDepthSpikes_pixel_cases (depth : list Q) (colors : list Z)
    (width height y x : Z) (result : list Q) :
  reduceDepthSpikes_pixel depth colors width height y x result = result
  \/ ((0 < readQ depth (y * width + x))%Q
      /\ reduceDepthSpikes_pixel depth colors width height y x result
         = write result (y * width + x)
             (median_of (window3x3 depth width height x y))).
Proof.
  unfold reduceDepthSpikes_pixel.
  destruct (Qleb (readQ depth (y * width + x)) 0) eqn:Hc; [left; reflexivity|].
  apply Qleb_false in Hc.
  destruct (Qleb _ DEPTH_SPIKE_THRESHOLD); [left; reflexivity|].
  destruct (_ && _); [right; split; [exact Hc | reflexivity] | left; reflexivity].
Qed.

Lemma reduceDepthSpikes_pixel_inv (depth : list Q) (colors : list Z)
    (width height y x : Z) (result : list Q) :
  spike_inv depth result ->
  spike_inv depth (reduceDepthSpikes_pixel depth colors width height y x result).
Proof.
  intros (Hlen & Hfrom & Hkeep).
  destruct (reduceDepthSpikes_pixel_cases depth colors width height y x result)
    as [->|[Hpos ->]]; [repeat split; assumption|].
  split; [rewrite length_write; exact Hlen|]. split.
  - intros v Hin. apply elem_of_write in Hin as [->|Hin].
    + apply median_from_grid.
    + apply Hfrom, Hin.
  - intros k d Hk Hd.
    rewrite lookup_write_ne; [apply Hkeep; assumption|].
    intros E. rewrite E in Hpos.
    unfold readQ in Hpos. rewrite (read_lookup _ _ _ _ Hk) in Hpos. lra.
Qed.

Lemma reduceDepthSpikes_inv (depth : list Q) (colors : list Z) (width height : Z) :
  spike_inv depth (reduceDepthSpikes depth colors width height).
Proof.
  unfold reduceDepthSpikes.
  apply (for_range_inv (spike_inv depth)).
  - split; [reflexivity|]. split; [intros v Hin; right; exact Hin | auto].
  - intros y result _ Hinv.
    apply (for_range_inv (spike_inv depth)); [exact Hinv|].
    intros x result' _ Hinv'. apply reduceDepthSpikes_pixel_inv, Hinv'.
Qed.

Lemma kernel_nonneg (k : Z) : (0 <= readQ SPATIAL_KERNEL k)%Q.
Proof.
  destruct (readQ_from_grid SPATIAL_KERNEL k) as [->|Hin]; [lra|].
  simpl in Hin.
  repeat (destruct Hin as [<-|Hin]; [unfold Qle; simpl; lia|]).
  contradiction.
Qed.

Hypothesis exp_nonneg : exp_nonnegative M.

(** The two sums of pass B are non-negative on a grid without negative
    depths. *)
Lemma smooth_weights_nonneg (depth : list Q) (colors : list Z)
    (width height x y : Z) (center cr cg cb : Q) :
  (forall i, 0 <= readQ depth i)%Q ->
  let st := smooth_weights depth colors width height x y center cr cg cb in
  (0 <= accum st)%Q /\ (0 <= weightSum st)%Q.
Proof.
  intros Hgrid. unfold smooth_weights.
  apply (for_range_inv (fun st => (0 <= accum st)%Q /\ (0 <= weightSum st)%Q)).
  - simpl. split; lra.
  - intros ky st _ Hst.
    apply (for_range_inv (fun st => (0 <= accum st)%Q /\ (0 <= weightSum st)%Q));
      [exact Hst|].
    intros kx st' _ [Ha Hw]. cbv zeta. simpl accum. simpl weightSum.
    match goal with
    | |- (0 <= _ + ?n * (?s * ?dw * ?cw))%Q /\ _ =>
        assert (Hweight : (0 <= s * dw * cw)%Q)
          by (apply Qmult_le_0_compat;
              [apply Qmult_le_0_compat; [apply kernel_nonneg | apply exp_nonneg]
              | apply exp_nonneg]);
        pose proof (Qmult_le_0_compat n (s * dw * cw) (Hgrid _) Hweight)
    end.
    split; lra.
Qed.

(** The value pass B stores is a valid depth when the grid has none that
    is negative. *)
Lemma smoothed_value_valid (depth : list Q) (colors : list Z)
    (width height y x : Z) :
  (forall i, 0 <= readQ depth i)%Q ->
  valid_depth (smoothed_value depth colors width height y x).
Proof.
  intros Hgrid. unfold smoothed_value.
  set (center := readQ depth (y * width + x)).
  destruct (Qleb center 0) eqn:Hc.
  - apply Qleb_true in Hc. left. pose proof (Hgrid (y * width + x)).
    fold center in H. lra.
  - apply Qleb_false in Hc. right.
    match goal with
    | |- context [smooth_weights ?d ?c ?w ?h ?x ?y ?ce ?cr ?cg ?cb] =>
        destruct (smooth_weights_nonneg d c w h x y ce cr cg cb Hgrid) as [Ha Hw];
        set (st := smooth_weights d c w h x y ce cr cg cb) in *
    end.
    unfold SMOOTH_BLEND.
    destruct (Qltb 0 (weightSum st)) eqn:Hws.
    + apply Qltb_true in Hws.
      assert (Hq : (0 <= accum st / weightSum st)%Q).
      { apply Qle_shift_div_l; [exact Hws | lra]. }
      lra.
    + lra.
Qed.

End DenoiserProperties.

(** A row-major loop that stores [f y x] at [y * width + x] fills the
    whole grid. *)
Lemma fill_grid (f : Z -> Z -> Q) (width height : Z) (init : list Q) :
  0 <= width -> 0 <= height ->
  length init = Z.to_nat (width * height) ->
  let out :=
    for_range 0 height (fun y r =>
      for_range 0 width (fun x r => write r (y * width + x) (f y x)) r) init in
  length out = length init
  /\ forall x y, 0 <= x < width -> 0 <= y < height ->
       readQ out (y * width + x) = f y x.
Proof.
  intros Hw Hh Hlen out.
  set (Row := fun (j : Z) (r : list Q) =>
    length r = length init
    /\ forall x y, 0 <= x < width -> 0 <= y < j -> readQ r (y * width + x) = f y x).
  assert (Hrow : Row height out).
  { apply (for_range_ind Row); [exact Hh | |].
    - split; [reflexivity | intros; lia].
    - intros j r Hj [Hlr Hdone].
      set (Col := fun (i : Z) (t : list Q) =>
        length t = length init
        /\ forall x y, 0 <= x < width -> (0 <= y < j \/ (y = j /\ x < i)) ->
             readQ t (y * width + x) = f y x).
      assert (Hcol : Col width
                (for_range 0 width (fun x t => write t (j * width + x) (f j x)) r)).
      { apply (for_range_ind Col); [exact Hw | |].
        - split; [exact Hlr|].
          intros x y Hx [Hy|[_ Hlt]]; [apply Hdone; assumption | lia].
        - intros i t Hi [Hlt Hdone']. unfold Col. split.
          + rewrite length_write. exact Hlt.
          + intros x y Hx Hcase.
            destruct (Z.eq_dec (y * width + x) (j * width + i)) as [E|NE].
            * assert (y = j /\ x = i) as [-> ->] by nia.
              unfold readQ. apply read_write_eq. nia.
            * unfold readQ. rewrite read_write_ne by nia.
              apply Hdone'; [exact Hx|].
              destruct Hcase as [Hy|[-> Hlt']]; [left; exact Hy|].
              right. split; [reflexivity|]. nia. }
      destruct Hcol as [Hl2 Hd2]. split; [exact Hl2|].
      intros x y Hx Hy. apply Hd2; [exact Hx|].
      destruct (Z.eq_dec y j); [right | left]; lia. }
  exact Hrow.
Qed.

Section DenoiserTheorem.
Context {M : MathLib}.

(** Pass B stores [smoothed_value] at every pixel of the grid. *)
Lemma applyEdgeAwareSmooth_spec (depth : list Q) (colors : list Z)
    (width height : Z) :
  0 <= width -> 0 <= height ->
  length depth = Z.to_nat (width * height) ->
  length (applyEdgeAwareSmooth depth colors width height) = length depth
  /\ forall k : nat, (k < length depth)%nat ->
       applyEdgeAwareSmooth depth colors width height !! k
       = Some (smoothed_value depth colors width height
                 (Z.of_nat k / width) (Z.of_nat k mod width)).
Proof.
  intros Hw Hh Hlen. unfold applyEdgeAwareSmooth.
  destruct (fill_grid (smoothed_value depth colors width height) width height
              (replicate (length depth) 0%Q) Hw Hh) as [Hl Hfill].
  { rewrite length_replicate. exact Hlen. }
  rewrite length_replicate in Hl. split; [exact Hl|].
  intros k Hk.
  assert (Hpos : 0 < width) by nia.
  pose proof (Z.div_mod (Z.of_nat k) width ltac:(lia)) as Hdm.
  pose proof (Z.mod_pos_bound (Z.of_nat k) width Hpos) as Hmod.
  assert (Hdiv : 0 <= Z.of_nat k / width < height).
  { split; [apply Z.div_pos; lia|]. apply Z.div_lt_upper_bound; nia. }
  rewrite (read_Some 0%Q) by (rewrite Hl; exact Hk).
  f_equal.
  replace (Z.of_nat k) with (Z.of_nat k / width * width + Z.of_nat k mod width) at 1
    by lia.
  apply Hfill; assumption.
Qed.

(** Non-positive pixels pass through pass B. *)
Lemma smoothed_value_passthrough (depth : list Q) (colors : list Z)
    (width height y x : Z) :
  (readQ depth (y * width + x) <= 0)%Q ->
  smoothed_value depth colors width height y x = readQ depth (y * width + x).
Proof.
  intros Hc. unfold smoothed_value.
  apply Qleb_true in Hc. rewrite Hc. reflexivity.
Qed.

(** Non-positive pixels pass through both passes unchanged, whatever the
    other depths are. *)
Lemma denoiser_passthrough (depth : list Q) (colors : list Z)
    (width height : Z) (k : nat) (d : Q) :
  0 <= width -> 0 <= height ->
  length depth = Z.to_nat (width * height) ->
  depth !! k = Some d -> (d <= 0)%Q ->
  reduceDepthSpikes depth colors width height !! k = Some d
  /\ preprocessDepth depth colors width height !! k = Some d.
Proof.
  intros Hw Hh Hlen Hk Hd.
  destruct (reduceDepthSpikes_inv depth colors width height)
    as (HlenA & _ & Hkeep).
  pose proof (Hkeep k d Hk Hd) as HA.
  split; [exact HA|].
  unfold preprocessDepth.
  set (spikeReduced := reduceDepthSpikes depth colors width height) in *.
  destruct (applyEdgeAwareSmooth_spec spikeReduced colors width height Hw Hh)
    as [_ HB]; [congruence|].
  assert (Hlt : (k < length spikeReduced)%nat)
    by (apply lookup_lt_is_Some; eauto).
  rewrite (HB k Hlt).
  assert (Hpos : 0 < width) by nia.
  pose proof (Z.div_mod (Z.of_nat k) width ltac:(lia)) as Hdm.
  assert (Hidx : Z.of_nat k / width * width + Z.of_nat k mod width = Z.of_nat k)
    by lia.
  rewrite smoothed_value_passthrough; rewrite Hidx; unfold readQ;
    rewrite (read_lookup _ _ _ _ HA); [reflexivity | exact Hd].
Qed.

(** Pass A keeps a grid of valid depths valid. *)
Lemma reduceDepthSpikes_valid (depth : list Q) (colors : list Z)
    (width height : Z) :
  (forall d, In d depth -> valid_depth d) ->
  forall d, In d (reduceDepthSpikes depth colors width height) -> valid_depth d.
Proof.
  intros Hvalid d Hin.
  destruct (reduceDepthSpikes_inv depth colors width height) as (_ & Hfrom & _).
  destruct (Hfrom d Hin) as [->|Hin'].
  - left. reflexivity.
  - apply Hvalid, Hin'.
Qed.

(** No read of a grid of valid depths is negative. *)
Lemma valid_grid_reads (depth : list Q) :
  (forall d, In d depth -> valid_depth d) ->
  forall i, (0 <= readQ depth i)%Q.
Proof.
  intros Hvalid i.
  destruct (readQ_from_grid depth i) as [->|Hin]; [lra|].
  destruct (Hvalid _ Hin) as [E|Hpos]; lra.
Qed.

(** Pass B keeps a grid of valid depths valid. *)
Lemma applyEdgeAwareSmooth_valid (depth : list Q) (colors : list Z)
    (width height : Z) :
  exp_nonnegative M ->
  0 <= width -> 0 <= height ->
  length depth = Z.to_nat (width * height) ->
  (forall d, In d depth -> valid_depth d) ->
  forall d, In d (applyEdgeAwareSmooth depth colors width height) -> valid_depth d.
Proof.
  intros Hexp Hw Hh Hlen Hvalid d Hin.
  destruct (applyEdgeAwareSmooth_spec depth colors width height Hw Hh Hlen)
    as [HlenB HB].
  apply list_elem_of_In, list_elem_of_lookup in Hin as [k Hk].
  assert (Hlt : (k < length depth)%nat).
  { rewrite <- HlenB. apply lookup_lt_is_Some. eauto. }
  rewrite (HB k Hlt) in Hk. injection Hk as <-.
  apply smoothed_value_valid; [exact Hexp | apply valid_grid_reads, Hvalid].
Qed.

(** C4. On a grid whose depths are all 0 or strictly positive, both
    denoiser passes (spike rejection, then joint bilateral smoothing) give
    a grid of the same size whose depths are all 0 or strictly positive,
    and every pixel of non-positive depth has the same value after pass A
    and after pass B. *)
Theorem denoiser_sign_invariant (depth : list Q) (colors : list Z)
    (width height : Z) :
  exp_nonnegative M ->
  0 <= width -> 0 <= height ->
  length depth = Z.to_nat (width * height) ->
  length colors = Z.to_nat (width * height * 4) ->
  (forall d, In d depth -> valid_depth d) ->
  let spikeReduced := reduceDepthSpikes depth colors width height in
  let smoothed := applyEdgeAwareSmooth spikeReduced colors width height in
  preprocessDepth depth colors width height = smoothed
  /\ length spikeReduced = length depth
  /\ length smoothed = length depth
  /\ (forall d, In d spikeReduced -> valid_depth d)
  /\ (forall d, In d smoothed -> valid_depth d)
  /\ (forall (k : nat) (d : Q), depth !! k = Some d -> (d <= 0)%Q ->
        spikeReduced !! k = Some d /\ smoothed !! k = Some d).
Proof.
  intros Hexp Hw Hh Hlen _ Hvalid spikeReduced smoothed.
  destruct (reduceDepthSpikes_inv depth colors width height) as (HlenA & _ & _).
  fold spikeReduced in HlenA.
  assert (HvalidA : forall d, In d spikeReduced -> valid_depth d)
    by (apply reduceDepthSpikes_valid, Hvalid).
  assert (HlenA' : length spikeReduced = Z.to_nat (width * height)) by congruence.
  destruct (applyEdgeAwareSmooth_spec spikeReduced colors width height Hw Hh HlenA')
    as [HlenB _].
  fold smoothed in HlenB.
  split; [reflexivity|]. split; [exact HlenA|].
  split; [congruence|]. split; [exact HvalidA|]. split.
  - apply applyEdgeAwareSmooth_valid; assumption.
  - intros k d Hk Hd.
    exact (denoiser_passthrough depth colors width height k d Hw Hh Hlen Hk Hd).
Qed.

End DenoiserTheorem.

Lemma exp_approx_nonneg : exp_nonnegative approxMath.
Proof.
  intros x. simpl. unfold exp_approx.
  set (y := (1 + x / 2 + x * x / 8)%Q). nra.
Qed.

(** The theorem on the 2x2 grid [tiny_depth], whose first sample is
    missing: it is still missing after both passes. *)
Lemma denoiser_sign_invariant_witness :
  @reduceDepthSpikes approxMath tiny_depth tiny_colors 2 2 !! 0%nat = Some 0%Q
  /\ @applyEdgeAwareSmooth approxMath
       (@reduceDepthSpikes approxMath tiny_depth tiny_colors 2 2) tiny_colors 2 2
     !! 0%nat = Some 0%Q.
Proof.
  refine (proj2 (proj2 (proj2 (proj2 (proj2
    (@denoiser_sign_invariant approxMath tiny_depth tiny_colors 2 2
       exp_approx_nonneg _ _ _ _ _))))) 0%nat 0%Q _ _);
    try (vm_compute; congruence).
  intros v Hv. simpl in Hv. unfold valid_depth.
  repeat (destruct Hv as [<-|Hv]; [first [left; reflexivity | right; reflexivity]|]).
  contradiction.
Defined.

(** ** The heap *)

Lemma store_f32_other (h : Heap) (r r' : ref) (i : Z) (v : Q) :
  r' <> r -> store_f32 h r i v !! r' = h !! r'.
Proof.
  intros Hne. unfold store_f32.
  destruct (h !! r) as [[l|l]|]; try reflexivity.
  apply lookup_insert_ne. congruence.
Qed.

Lemma store_u32_other (h : Heap) (r r' : ref) (i v : Z) :
  r' <> r -> store_u32 h r i v !! r' = h !! r'.
Proof.
  intros Hne. unfold store_u32.
  destruct (h !! r) as [[l|l]|]; try reflexivity.
  apply lookup_insert_ne. congruence.
Qed.

(** A store through [r] is a write to the elements behind [r]. *)
Lemma f32_store_f32 (h : Heap) (r : ref) (i : Z) (v : Q) :
  f32 (store_f32 h r i v) r = write (f32 h r) i (fround v).
Proof.
  unfold f32, store_f32.
  destruct (h !! r) as [[l|l]|] eqn:E.
  - rewrite lookup_insert_eq. reflexivity.
  - rewrite E. unfold write. destruct (i <? 0); reflexivity.
  - rewrite E. unfold write. destruct (i <? 0); reflexivity.
Qed.

Lemma u32_store_u32 (h : Heap) (r : ref) (i v : Z) :
  u32 (store_u32 h r i v) r = write (u32 h r) i (toUint32 v).
Proof.
  unfold u32, store_u32.
  destruct (h !! r) as [[l|l]|] eqn:E.
  - rewrite E. unfold write. destruct (i <? 0); reflexivity.
  - rewrite lookup_insert_eq. reflexivity.
  - rewrite E. unfold write. destruct (i <? 0); reflexivity.
Qed.

Lemma f32_lookup_eq (h h' : Heap) (r : ref) :
  h' !! r = h !! r -> f32 h' r = f32 h r.
Proof. intros E. unfold f32. rewrite E. reflexivity. Qed.

Lemma u32_lookup_eq (h h' : Heap) (r : ref) :
  h' !! r = h !! r -> u32 h' r = u32 h r.
Proof. intros E. unfold u32. rewrite E. reflexivity. Qed.

(** A float store never changes an integer array, and conversely. *)
Lemma u32_store_f32 (h : Heap) (r r' : ref) (i : Z) (v : Q) :
  u32 (store_f32 h r i v) r' = u32 h r'.
Proof.
  destruct (decide (r' = r)) as [->|Hne].
  - unfold u32, store_f32. destruct (h !! r) as [[l|l]|] eqn:E.
    + rewrite lookup_insert_eq. reflexivity.
    + rewrite E. reflexivity.
    + rewrite E. reflexivity.
  - apply u32_lookup_eq, store_f32_other, Hne.
Qed.

Lemma f32_store_u32 (h : Heap) (r r' : ref) (i v : Z) :
  f32 (store_u32 h r i v) r' = f32 h r'.
Proof.
  destruct (decide (r' = r)) as [->|Hne].
  - unfold f32, store_u32. destruct (h !! r) as [[l|l]|] eqn:E.
    + rewrite E. reflexivity.
    + rewrite lookup_insert_eq. reflexivity.
    + rewrite E. reflexivity.
  - apply f32_lookup_eq, store_u32_other, Hne.
Qed.

Lemma store_f32_shape (h : Heap) (r r' : ref) (i : Z) (v : Q) :
  shape <$> (store_f32 h r i v !! r') = shape <$> (h !! r').
Proof.
  destruct (decide (r' = r)) as [->|Hne].
  - unfold store_f32. destruct (h !! r) as [[l|l]|] eqn:E; rewrite ?E; try reflexivity.
    rewrite lookup_insert_eq. simpl. rewrite length_write. reflexivity.
  - rewrite store_f32_other by exact Hne. reflexivity.
Qed.

Lemma store_u32_shape (h : Heap) (r r' : ref) (i v : Z) :
  shape <$> (store_u32 h r i v !! r') = shape <$> (h !! r').
Proof.
  destruct (decide (r' = r)) as [->|Hne].
  - unfold store_u32. destruct (h !! r) as [[l|l]|] eqn:E; rewrite ?E; try reflexivity.
    rewrite lookup_insert_eq. simpl. rewrite length_write. reflexivity.
  - rewrite store_u32_other by exact Hne. reflexivity.
Qed.

Lemma shape_float (h h' : Heap) (r : ref) (l : list Q) :
  shape <$> (h' !! r) = shape <$> (h !! r) ->
  h !! r = Some (Float32Array l) ->
  exists l', h' !! r = Some (Float32Array l') /\ length l' = length l.
Proof.
  intros Hs Hl. rewrite Hl in Hs. simpl in Hs.
  destruct (h' !! r) as [[l'|l']|]; simpl in Hs; try discriminate.
  injection Hs as Hs. eauto.
Qed.

Lemma shape_uint (h h' : Heap) (r : ref) (l : list Z) :
  shape <$> (h' !! r) = shape <$> (h !! r) ->
  h !! r = Some (Uint32Array l) ->
  exists l', h' !! r = Some (Uint32Array l') /\ length l' = length l.
Proof.
  intros Hs Hl. rewrite Hl in Hs. simpl in Hs.
  destruct (h' !! r) as [[l'|l']|]; simpl in Hs; try discriminate.
  injection Hs as Hs. eauto.
Qed.

(** A float array of known length, in a heap of the same shapes. *)
Ltac float_array_kept Hshape H :=
  let l := fresh "l" in
  let Hl := fresh "Hl" in
  let Hlen := fresh "Hlen" in
  let l' := fresh "l'" in
  let Hl' := fresh "Hl'" in
  let Hlen' := fresh "Hlen'" in
  destruct H as (l & Hl & Hlen);
  destruct (shape_float _ _ _ l (Hshape _) Hl) as (l' & Hl' & Hlen');
  exists l'; split; [exact Hl' | lia].

(** ** Depth remapping *)

Section RemapProperties.
Context {M : MathLib}.

(** Frame of one iteration, and of the loop: only the array behind
    [positions] is stored to. *)
Lemma update_body_other (m : Mesh) (minDepth : Q) (o : Options) (i : Z)
    (h : Heap) (r : ref) :
  r <> positions m -> update_body m minDepth o i h !! r = h !! r.
Proof.
  intros Hne. unfold update_body.
  rewrite !store_f32_other by exact Hne. reflexivity.
Qed.

Lemma update_body_shape (m : Mesh) (minDepth : Q) (o : Options) (i : Z)
    (h : Heap) (r : ref) :
  shape <$> (update_body m minDepth o i h !! r) = shape <$> (h !! r).
Proof. unfold update_body. rewrite !store_f32_shape. reflexivity. Qed.

Lemma updateVertexPositions_other (h : Heap) (m : Mesh) (o : Options) (r : ref) :
  r <> positions m -> updateVertexPositions h m o !! r = h !! r.
Proof.
  intros Hne. unfold updateVertexPositions.
  apply (for_range_inv (fun t : Heap => t !! r = h !! r)); [reflexivity|].
  intros j t _ Ht. rewrite update_body_other by exact Hne. exact Ht.
Qed.

Lemma updateVertexPositions_shape (h : Heap) (m : Mesh) (o : Options) (r : ref) :
  shape <$> (updateVertexPositions h m o !! r) = shape <$> (h !! r).
Proof.
  unfold updateVertexPositions.
  apply (for_range_inv (fun t : Heap => shape <$> (t !! r) = shape <$> (h !! r)));
    [reflexivity|].
  intros j t _ Ht. rewrite update_body_shape. exact Ht.
Qed.

(** The position the loop leaves for every vertex: the binary32 rounding
    of the stored ray times the remapped base depth. *)
Lemma updateVertexPositions_spec (h : Heap) (m : Mesh) (o : Options) :
  positions m <> rayDirections m ->
  positions m <> baseDepths m ->
  Z.of_nat (length (f32 h (baseDepths m))) * 3
  <= Z.of_nat (length (f32 h (positions m))) ->
  forall i k,
    0 <= i < Z.of_nat (length (f32 h (baseDepths m))) -> 0 <= k < 3 ->
    position_of (updateVertexPositions h m o) m i k
    = fround (ray_of h m i k
              * remapped_depth (Qmax (baseDepthMin m) MIN_DEPTH_CLAMP) o
                  (baseDepth_of h m i)).
Proof.
  intros Hrd Hbd Hlen.
  set (n := Z.of_nat (length (f32 h (baseDepths m)))) in *.
  set (minDepth := Qmax (baseDepthMin m) MIN_DEPTH_CLAMP).
  set (Inv := fun (j : Z) (t : Heap) =>
    t !! rayDirections m = h !! rayDirections m
    /\ t !! baseDepths m = h !! baseDepths m
    /\ length (f32 t (positions m)) = length (f32 h (positions m))
    /\ forall i k, 0 <= i < j -> 0 <= k < 3 ->
         position_of t m i k
         = fround (ray_of h m i k
                   * remapped_depth minDepth o (baseDepth_of h m i))).
  assert (HInv : Inv n (updateVertexPositions h m o)).
  { unfold updateVertexPositions. fold n minDepth.
    apply (for_range_ind Inv); [lia | |].
    - repeat split; intros; lia.
    - intros j t Hj (Hr & Hb & Hl & Hdone). unfold Inv.
      split; [rewrite update_body_other by congruence; exact Hr|].
      split; [rewrite update_body_other by congruence; exact Hb|].
      unfold position_of, update_body.
      rewrite !f32_store_f32.
      rewrite (f32_lookup_eq h t _ Hr), (f32_lookup_eq h t _ Hb).
      split; [rewrite !length_write; exact Hl|].
      intros i k Hi Hk. unfold readQ.
      destruct (Z.eq_dec i j) as [->|Hne].
      + unfold ray_of, baseDepth_of, readQ.
        assert (k = 0 \/ k = 1 \/ k = 2) as [-> | [-> | ->]] by lia.
        * rewrite read_write_ne, read_write_ne by lia.
          rewrite Z.add_0_r. apply read_write_eq. lia.
        * rewrite read_write_ne by lia.
          apply read_write_eq. rewrite length_write. lia.
        * apply read_write_eq. rewrite !length_write. lia.
      + rewrite !read_write_ne by lia.
        apply Hdone; lia. }
  destruct HInv as (_ & _ & _ & Hall). exact Hall.
Qed.

(** A mesh descriptor is still one after a remap. *)
Lemma updateVertexPositions_descriptor (h : Heap) (m : Mesh) (o : Options) :
  MeshDescriptor h m -> MeshDescriptor (updateVertexPositions h m o) m.
Proof.
  intros [Hd Hp Hr Hb Hu Hi].
  split; [exact Hd| | | | |].
  - float_array_kept (updateVertexPositions_shape h m o) Hp.
  - float_array_kept (updateVertexPositions_shape h m o) Hr.
  - float_array_kept (updateVertexPositions_shape h m o) Hb.
  - float_array_kept (updateVertexPositions_shape h m o) Hu.
  - destruct Hi as (l & Hl).
    destruct (shape_uint h _ _ l (updateVertexPositions_shape h m o _) Hl)
      as (l' & Hl' & _).
    exists l'. exact Hl'.
Qed.

End RemapProperties.

Lemma descriptor_positions_apart (h : Heap) (m : Mesh) :
  MeshDescriptor h m ->
  rayDirections m <> positions m /\ baseDepths m <> positions m
  /\ uvs m <> positions m /\ indices m <> positions m.
Proof.
  intros [Hd _ _ _ _ _].
  apply NoDup_cons in Hd as [Hnotin _].
  rewrite !not_elem_of_cons in Hnotin.
  destruct Hnotin as (H1 & H2 & H3 & H4 & _).
  repeat split; congruence.
Qed.

Lemma descriptor_lengths (h : Heap) (m : Mesh) :
  MeshDescriptor h m ->
  Z.of_nat (length (f32 h (baseDepths m))) = vertexCount m
  /\ Z.of_nat (length (f32 h (positions m))) = vertexCount m * 3.
Proof.
  intros [_ (lp & Hp & Hlp) _ (lb & Hb & Hlb) _ _].
  unfold f32. rewrite Hp, Hb. split; assumption.
Qed.

Section RemapTheorems.
Context {M : MathLib}.

(** The position of every vertex of a mesh descriptor after a remap. *)
Lemma remap_position (h : Heap) (m : Mesh) (o : Options) (i k : Z) :
  MeshDescriptor h m ->
  0 <= i < vertexCount m -> 0 <= k < 3 ->
  position_of (updateVertexPositions h m o) m i k
  = fround (ray_of h m i k
            * remapped_depth (Qmax (baseDepthMin m) MIN_DEPTH_CLAMP) o
                (baseDepth_of h m i)).
Proof.
  intros Hmd Hi Hk.
  destruct (descriptor_positions_apart h m Hmd) as (Hr & Hb & _).
  destruct (descriptor_lengths h m Hmd) as (Hlb & Hlp).
  apply updateVertexPositions_spec; try congruence; lia.
Qed.

Lemma remap_ray (h : Heap) (m : Mesh) (o : Options) (i k : Z) :
  MeshDescriptor h m ->
  ray_of (updateVertexPositions h m o) m i k = ray_of h m i k.
Proof.
  intros Hmd. destruct (descriptor_positions_apart h m Hmd) as (Hr & _).
  unfold ray_of. f_equal.
  apply f32_lookup_eq, updateVertexPositions_other, Hr.
Qed.

(** C9. A remap stores to the positions array only: the arrays behind
    [rayDirections], [baseDepths], [uvs] and [indices], and every other
    object of the heap, are what they were before the call; the mesh is
    still a descriptor. *)
Theorem remap_frame (h : Heap) (m : Mesh) (o : Options) :
  MeshDescriptor h m ->
  let h' := updateVertexPositions h m o in
  h' !! rayDirections m = h !! rayDirections m
  /\ h' !! baseDepths m = h !! baseDepths m
  /\ h' !! uvs m = h !! uvs m
  /\ h' !! indices m = h !! indices m
  /\ (forall r : ref, r <> positions m -> h' !! r = h !! r)
  /\ MeshDescriptor h' m.
Proof.
  intros Hmd h'.
  destruct (descriptor_positions_apart h m Hmd) as (Hr & Hb & Hu & Hi).
  split; [apply updateVertexPositions_other, Hr|].
  split; [apply updateVertexPositions_other, Hb|].
  split; [apply updateVertexPositions_other, Hu|].
  split; [apply updateVertexPositions_other, Hi|].
  split.
  - intros r Hne. apply updateVertexPositions_other, Hne.
  - apply updateVertexPositions_descriptor, Hmd.
Qed.

Lemma identity_remapped_depth (minDepth : Q) (o : Options) (base : Q) :
  identity_options o ->
  (remapped_depth minDepth o base == Qmax base (minDepth + 0.001))%Q.
Proof.
  intros (Hmode & Hmag & Hfar).
  unfold remapped_depth, scaled_depth. rewrite Hfar. simpl min_farLimit.
  destruct (String.eqb_spec (mode o) "log") as [E|_]; [contradiction|].
  apply Q.max_compat; [|reflexivity].
  rewrite Hmag. ring.
Qed.


Lemma far_remapped_depth (minDepth : Q) (o : Options) (base f : Q) :
  farClip o = Num f ->
  (f < scaled_depth minDepth o base)%Q ->
  (remapped_depth minDepth o base == f)%Q.
Proof.
  intros Hfar Hscaled. unfold remapped_depth. rewrite Hfar. simpl min_farLimit.
  apply Q.min_r.
  pose proof (Q.le_max_l (scaled_depth minDepth o base) (minDepth + 0.001)).
  lra.
Qed.

(** A dot product whose left factors are within [e_k] of [d] times the
    right factors. *)
Lemma dot_product_error (p0 p1 p2 a0 a1 a2 d e0 e1 e2 : Q) :
  (Qabs (p0 - a0 * d) <= e0)%Q ->
  (Qabs (p1 - a1 * d) <= e1)%Q ->
  (Qabs (p2 - a2 * d) <= e2)%Q ->
  (Qabs (p0 * a0 + p1 * a1 + p2 * a2 - d * (a0 * a0 + a1 * a1 + a2 * a2))
   <= e0 * Qabs a0 + e1 * Qabs a1 + e2 * Qabs a2)%Q.
Proof.
  intros H0 H1 H2.
  assert (E : (p0 * a0 + p1 * a1 + p2 * a2 - d * (a0 * a0 + a1 * a1 + a2 * a2)
               == (p0 - a0 * d) * a0 + ((p1 - a1 * d) * a1 + (p2 - a2 * d) * a2))%Q)
    by ring.
  rewrite E.
  eapply Qle_trans; [apply Qabs_triangle|].
  eapply Qle_trans;
    [apply Qplus_le_compat; [apply Qle_refl | apply Qabs_triangle]|].
  rewrite !Qabs_Qmult.
  pose proof (Qabs_nonneg a0). pose proof (Qabs_nonneg a1).
  pose proof (Qabs_nonneg a2).
  nra.
Qed.

(** C3 (amended). With [farClip = 5], a vertex whose shaped and magnified
    depth exceeds 5 gets, in every component, the binary32 rounding of
    [5 * rayDirection].  Its length along the stored ray is within
    [5 * 2^-24 * |ray|^2 + 2^-150 * (|x| + |y| + |z|)] of [5 * |ray|^2];
    it is exactly 5 where the three products are binary32 numbers and the
    stored ray has unit length. *)
Theorem remap_far_clamp (h : Heap) (m : Mesh) (o : Options) (i : Z) :
  MeshDescriptor h m ->
  farClip o = Num 5 ->
  0 <= i < vertexCount m ->
  (5 < scaled_depth (Qmax (baseDepthMin m) MIN_DEPTH_CLAMP) o (baseDepth_of h m i))%Q ->
  let h' := updateVertexPositions h m o in
  let x := ray_of h' m i 0 in
  let y := ray_of h' m i 1 in
  let z := ray_of h' m i 2 in
  (forall k, 0 <= k < 3 -> position_of h' m i k = fround (ray_of h' m i k * 5))
  /\ (Qabs (along_ray h' m i - 5 * (x * x + y * y + z * z))
      <= 5 * 2 ^ (-24) * (x * x + y * y + z * z)
         + 2 ^ (-150) * (Qabs x + Qabs y + Qabs z))%Q
  /\ ((forall k, 0 <= k < 3 -> is_binary32 (ray_of h' m i k * 5)) ->
      unit_ray h' m i -> (along_ray h' m i == 5)%Q).
Proof.
  intros Hmd Hfar Hi Hscaled h' x y z.
  assert (Hpos : forall k, 0 <= k < 3 ->
            position_of h' m i k = fround (ray_of h' m i k * 5)).
  { intros k Hk. unfold h'. rewrite remap_position, remap_ray by assumption.
    apply fround_compat.
    rewrite (far_remapped_depth _ o _ 5 Hfar Hscaled). reflexivity. }
  split; [exact Hpos|]. split.
  - assert (Hnear : forall k, 0 <= k < 3 ->
              (Qabs (position_of h' m i k - ray_of h' m i k * 5)
               <= Qabs (ray_of h' m i k) * (5 * 2 ^ (-24)) + 2 ^ (-150))%Q).
    { intros k Hk. rewrite (Hpos k Hk).
      eapply Qle_trans; [apply fround_near|].
      rewrite Qabs_Qmult. change (Qabs 5) with 5%Q.
      apply Qle_lteq. right. ring. }
    pose proof (dot_product_error _ _ _ _ _ _ _ _ _ _
                  (Hnear 0 ltac:(lia)) (Hnear 1 ltac:(lia)) (Hnear 2 ltac:(lia)))
      as Hdot.
    fold x y z in Hdot. unfold along_ray. fold x y z.
    eapply Qle_trans; [exact Hdot|].
    assert (Hsq : forall a : Q, (Qabs a * Qabs a == a * a)%Q).
    { intros a. rewrite <- Qabs_Qmult. apply Qabs_pos. nra. }
    apply Qle_lteq. right.
    transitivity (5 * 2 ^ (-24)
                  * (Qabs x * Qabs x + Qabs y * Qabs y + Qabs z * Qabs z)
                  + 2 ^ (-150) * (Qabs x + Qabs y + Qabs z))%Q; [ring|].
    rewrite !Hsq. reflexivity.
  - intros Hb32 Hunit. unfold unit_ray, along_ray in *.
    rewrite (Hpos 0), (Hpos 1), (Hpos 2) by lia.
    pose proof (Hb32 0 ltac:(lia)) as B0. pose proof (Hb32 1 ltac:(lia)) as B1.
    pose proof (Hb32 2 ltac:(lia)) as B2. unfold is_binary32 in B0, B1, B2.
    rewrite B0, B1, B2.
    fold x y z in Hunit |- *.
    transitivity (5 * (x * x + y * y + z * z))%Q; [ring|].
    rewrite Hunit. reflexivity.
Qed.

End RemapTheorems.

(** ** The remap on the concrete meshes *)

Lemma NoDup_five_refs : NoDup [0%nat; 1%nat; 2%nat; 3%nat; 4%nat].
Proof. apply (bool_decide_unpack _). vm_compute. exact I. Qed.

Lemma centre_descriptor : MeshDescriptor centre_heap centre_mesh.
Proof.
  split; simpl; [exact NoDup_five_refs | | | | |];
    eexists; (split; [vm_compute; reflexivity | reflexivity])
    || (vm_compute; reflexivity).
Qed.

Lemma far_descriptor : MeshDescriptor far_heap centre_mesh.
Proof.
  split; simpl; [exact NoDup_five_refs | | | | |];
    eexists; (split; [vm_compute; reflexivity | reflexivity])
    || (vm_compute; reflexivity).
Qed.


(** The remap frame on the centre vertex. *)
Lemma remap_frame_witness :
  @updateVertexPositions approxMath centre_heap centre_mesh far_options
    !! rayDirections centre_mesh
  = centre_heap !! rayDirections centre_mesh.
Proof.
  exact (proj1 (@remap_frame approxMath centre_heap centre_mesh far_options
                  centre_descriptor)).
Defined.





(** The position the identity remap gives the vertex of [centre_heap]:
    the binary32 number next to [-1.001]. *)
Example remap_identity_nearest_vertex_position :
  (position_of
     (@updateVertexPositions approxMath centre_heap centre_mesh linear_options)
     centre_mesh 0 2 == - (8396997 # 8388608))%Q
  /\ fround (- 1.001) = (- (8396997 # 8388608))%Q.
Proof. split; vm_compute; reflexivity. Qed.

(** The first component of the vertex of [oblique_heap] after the
    identity remap, and the product it rounds. *)
Example remap_identity_oblique_position :
  (position_of
     (@updateVertexPositions approxMath oblique_heap centre_mesh linear_options)
     centre_mesh 0 0 == 8808039 # 8388608)%Q
  /\ (ray_of oblique_heap centre_mesh 0 0 * baseDepth_of oblique_heap centre_mesh 0
      == 35232155 # 33554432)%Q.
Proof. split; vm_compute; reflexivity. Qed.

(** The far clamp on the vertex of [far_heap], whose ray is the axis
    [(0, 0, -1)]: its depth 8 exceeds 5, and its length along the ray is 5. *)
Lemma remap_far_clamp_witness :
  (along_ray (@updateVertexPositions approxMath far_heap centre_mesh far_options)
     centre_mesh 0 == 5)%Q.
Proof.
  refine (proj2 (proj2 (@remap_far_clamp approxMath far_heap centre_mesh
                          far_options 0 far_descriptor _ _ _)) _ _).
  - reflexivity.
  - vm_compute. split; congruence.
  - vm_compute. reflexivity.
  - intros k Hk.
    assert (Ek : k = 0 \/ k = 1 \/ k = 2) by lia.
    destruct Ek as [-> | [-> | ->]]; vm_compute; reflexivity.
  - vm_compute. reflexivity.
Defined.

(** C3, as stated, fails away from the axes.  The vertex of
    [oblique_far_heap] stores the binary32 rounding of the unit ray
    [(1/3, 2/3, -2/3)] and has base depth 8; after a remap with far clip 5
    neither the length of its position along the stored ray nor the
    length of the position itself is 5. *)
Lemma remap_far_clamp_off_axis :
  ~ (along_ray oblique_far_remapped centre_mesh 0 == 5)%Q
  /\ ~ (position_of oblique_far_remapped centre_mesh 0 0
          * position_of oblique_far_remapped centre_mesh 0 0
        + position_of oblique_far_remapped centre_mesh 0 1
          * position_of oblique_far_remapped centre_mesh 0 1
        + position_of oblique_far_remapped centre_mesh 0 2
          * position_of oblique_far_remapped centre_mesh 0 2
        == 5 * 5)%Q
  /\ ~ (position_of oblique_far_remapped centre_mesh 0 0
        == ray_of oblique_far_remapped centre_mesh 0 0 * 5)%Q.
Proof. repeat split; vm_compute; discriminate. Qed.

(** The numbers of that vertex: the stored ray, the stored position, and
    the length of the position along the ray, 5.00000038743.... *)
Example remap_far_clamp_off_axis_values :
  (ray_of oblique_far_remapped centre_mesh 0 0 == 11184811 # 33554432)%Q
  /\ (position_of oblique_far_remapped centre_mesh 0 0 == 13981014 # 8388608)%Q
  /\ (5 < along_ray oblique_far_remapped centre_mesh 0 < 5 + (1 # 2000000))%Q.
Proof. repeat split; vm_compute; reflexivity. Qed.

(** ** Mesh reconstruction *)

Lemma alloc_fresh (h : Heap) (a : TypedArray) : h !! (alloc h a).2 = None.
Proof. unfold alloc. simpl. apply not_elem_of_dom, is_fresh. Qed.

Lemma alloc_new (h : Heap) (a : TypedArray) :
  (alloc h a).1 !! (alloc h a).2 = Some a.
Proof. unfold alloc. simpl. apply lookup_insert_eq. Qed.

Lemma alloc_old (h : Heap) (a : TypedArray) (r : ref) :
  r <> (alloc h a).2 -> (alloc h a).1 !! r = h !! r.
Proof. intros Hne. unfold alloc in *. simpl in *. apply lookup_insert_ne. congruence. Qed.

(** The heap after the five constructor calls. *)
Lemma allocate_buffers_spec (h : Heap) (vertCount indexLength : Z) :
  let h' := (allocate_buffers h vertCount indexLength).1 in
  let bufs := (allocate_buffers h vertCount indexLength).2 in
  NoDup [b_positions bufs; b_rayDirections bufs; b_baseDepths bufs;
         b_uvs bufs; b_indices bufs]
  /\ h' !! b_positions bufs
     = Some (Float32Array (replicate (Z.to_nat (vertCount * 3)) 0%Q))
  /\ h' !! b_rayDirections bufs
     = Some (Float32Array (replicate (Z.to_nat (vertCount * 3)) 0%Q))
  /\ h' !! b_baseDepths bufs
     = Some (Float32Array (replicate (Z.to_nat vertCount) 0%Q))
  /\ h' !! b_uvs bufs
     = Some (Float32Array (replicate (Z.to_nat (vertCount * 2)) 0%Q))
  /\ h' !! b_indices bufs
     = Some (Uint32Array (replicate (Z.to_nat indexLength) 0))
  /\ (forall r, is_Some (h !! r) -> h' !! r = h !! r).
Proof.
  unfold allocate_buffers.
  set (a1 := Float32Array (replicate (Z.to_nat (vertCount * 3)) 0%Q)).
  set (a3 := Float32Array (replicate (Z.to_nat vertCount) 0%Q)).
  set (a4 := Float32Array (replicate (Z.to_nat (vertCount * 2)) 0%Q)).
  set (a5 := Uint32Array (replicate (Z.to_nat indexLength) 0)).
  pose proof (alloc_fresh h a1) as F1. pose proof (alloc_new h a1) as N1.
  pose proof (alloc_old h a1) as O1.
  destruct (alloc h a1) as [h1 r1]. simpl in F1, N1, O1.
  pose proof (alloc_fresh h1 a1) as F2. pose proof (alloc_new h1 a1) as N2.
  pose proof (alloc_old h1 a1) as O2.
  destruct (alloc h1 a1) as [h2 r2]. simpl in F2, N2, O2.
  pose proof (alloc_fresh h2 a3) as F3. pose proof (alloc_new h2 a3) as N3.
  pose proof (alloc_old h2 a3) as O3.
  destruct (alloc h2 a3) as [h3 r3]. simpl in F3, N3, O3.
  pose proof (alloc_fresh h3 a4) as F4. pose proof (alloc_new h3 a4) as N4.
  pose proof (alloc_old h3 a4) as O4.
  destruct (alloc h3 a4) as [h4 r4]. simpl in F4, N4, O4.
  pose proof (alloc_fresh h4 a5) as F5. pose proof (alloc_new h4 a5) as N5.
  pose proof (alloc_old h4 a5) as O5.
  destruct (alloc h4 a5) as [h5 r5]. simpl in F5, N5, O5.
  simpl.
  assert (D12 : r1 <> r2) by (intros ->; congruence).
  assert (D13 : r1 <> r3) by (intros ->; rewrite O2 in F3 by congruence; congruence).
  assert (D23 : r2 <> r3) by (intros ->; congruence).
  assert (D14 : r1 <> r4).
  { intros ->. rewrite O3, O2 in F4 by congruence. congruence. }
  assert (D24 : r2 <> r4) by (intros ->; rewrite O3 in F4 by congruence; congruence).
  assert (D34 : r3 <> r4) by (intros ->; congruence).
  assert (D15 : r1 <> r5).
  { intros ->. rewrite O4, O3, O2 in F5 by congruence. congruence. }
  assert (D25 : r2 <> r5).
  { intros ->. rewrite O4, O3 in F5 by congruence. congruence. }
  assert (D35 : r3 <> r5) by (intros ->; rewrite O4 in F5 by congruence; congruence).
  assert (D45 : r4 <> r5) by (intros ->; congruence).
  split.
  { repeat (apply NoDup_cons; split; [rewrite ?not_elem_of_cons; repeat split;
      try congruence; apply not_elem_of_nil|]). apply NoDup_nil. exact I. }
  split; [rewrite O5, O4, O3, O2 by congruence; exact N1|].
  split; [rewrite O5, O4, O3 by congruence; exact N2|].
  split; [rewrite O5, O4 by congruence; exact N3|].
  split; [rewrite O5 by congruence; exact N4|].
  split; [exact N5|].
  intros r [x Hx].
  assert (r <> r1) by (intros ->; congruence).
  assert (r <> r2) by (intros ->; rewrite O1 in F2 by congruence; congruence).
  assert (r <> r3) by (intros ->; rewrite O2, O1 in F3 by congruence; congruence).
  assert (r <> r4) by (intros ->; rewrite O3, O2, O1 in F4 by congruence; congruence).
  assert (r <> r5).
  { intros ->. rewrite O4, O3, O2, O1 in F5 by congruence. congruence. }
  rewrite O5, O4, O3, O2, O1 by congruence. reflexivity.
Qed.

Lemma toUint32_bounds (v : Z) : 0 <= v -> 0 <= toUint32 v <= v.
Proof.
  intros Hv. unfold toUint32.
  pose proof (Z.mod_pos_bound v (2 ^ 32) ltac:(lia)).
  pose proof (Z.mod_le v (2 ^ 32) Hv ltac:(lia)). lia.
Qed.

Section MeshProperties.
Context {M : MathLib}.

Lemma vertex_body_shape (bufs : Buffers) (depth : list Q)
    (width height meshX meshY : Z) (depthMin tanHalfX tanHalfY : Q)
    (lat lon : Z) (st : VertexState) (r : ref) :
  shape <$> (vs_heap (vertex_body bufs depth width height meshX meshY depthMin
                        tanHalfX tanHalfY lat lon st) !! r)
  = shape <$> (vs_heap st !! r).
Proof.
  unfold vertex_body. destruct (normalize3 _ _ _) as [[d0 d1] d2]. simpl.
  rewrite !store_f32_shape. reflexivity.
Qed.

Lemma vertex_body_u32 (bufs : Buffers) (depth : list Q)
    (width height meshX meshY : Z) (depthMin tanHalfX tanHalfY : Q)
    (lat lon : Z) (st : VertexState) (r : ref) :
  u32 (vs_heap (vertex_body bufs depth width height meshX meshY depthMin
                  tanHalfX tanHalfY lat lon st)) r
  = u32 (vs_heap st) r.
Proof.
  unfold vertex_body. destruct (normalize3 _ _ _) as [[d0 d1] d2]. simpl.
  rewrite !u32_store_f32. reflexivity.
Qed.

Lemma vertex_body_other (bufs : Buffers) (depth : list Q)
    (width height meshX meshY : Z) (depthMin tanHalfX tanHalfY : Q)
    (lat lon : Z) (st : VertexState) (r : ref) :
  r <> b_positions bufs -> r <> b_rayDirections bufs ->
  r <> b_baseDepths bufs -> r <> b_uvs bufs ->
  vs_heap (vertex_body bufs depth width height meshX meshY depthMin
             tanHalfX tanHalfY lat lon st) !! r
  = vs_heap st !! r.
Proof.
  intros H1 H2 H3 H4.
  unfold vertex_body. destruct (normalize3 _ _ _) as [[d0 d1] d2]. simpl.
  rewrite !store_f32_other by assumption. reflexivity.
Qed.

(** Any property of the heap that every vertex step keeps is kept by the
    vertex loop. *)
Lemma vertex_loop_inv (P : Heap -> Prop) (bufs : Buffers) (depth : list Q)
    (width height meshX meshY : Z) (depthMin tanHalfX tanHalfY : Q) (h : Heap) :
  P h ->
  (forall lat lon st, P (vs_heap st) ->
     P (vs_heap (vertex_body bufs depth width height meshX meshY depthMin
                   tanHalfX tanHalfY lat lon st))) ->
  P (vs_heap (vertex_loop bufs depth width height meshX meshY depthMin
                tanHalfX tanHalfY h)).
Proof.
  intros Hh Hstep. unfold vertex_loop.
  apply (for_range_inv (fun st => P (vs_heap st))); [exact Hh|].
  intros lat st _ Hst.
  apply (for_range_inv (fun st => P (vs_heap st))); [exact Hst|].
  intros lon st' _ Hst'. apply Hstep, Hst'.
Qed.

(** The vertex loop runs its body [(meshX + 1) * (meshY + 1)] times:
    [index] ends at the vertex count. *)
Lemma vertex_loop_index (bufs : Buffers) (depth : list Q)
    (width height meshX meshY : Z) (depthMin tanHalfX tanHalfY : Q) (h : Heap) :
  0 <= meshX -> 0 <= meshY ->
  vs_index (vertex_loop bufs depth width height meshX meshY depthMin
              tanHalfX tanHalfY h)
  = (meshX + 1) * (meshY + 1).
Proof.
  intros Hx Hy. unfold vertex_loop.
  replace ((meshX + 1) * (meshY + 1)) with ((meshY + 1) * (meshX + 1)) by lia.
  apply (for_range_ind (fun lat st => vs_index st = lat * (meshX + 1)));
    [lia | reflexivity |].
  intros lat st Hlat Hst.
  replace ((lat + 1) * (meshX + 1)) with (lat * (meshX + 1) + (meshX + 1)) by lia.
  apply (for_range_ind (fun lon st' => vs_index st' = lat * (meshX + 1) + lon));
    [lia | lia |].
  intros lon st' Hlon Hst'. unfold vertex_body.
  destruct (normalize3 _ _ _) as [[d0 d1] d2]. simpl. lia.
Qed.

Lemma triangle_body_shape (ind : ref) (meshX lat lon : Z) (st : Heap * Z) (r : ref) :
  shape <$> ((triangle_body ind meshX lat lon st).1 !! r) = shape <$> (st.1 !! r).
Proof.
  unfold triangle_body. destruct st as [h tri]. simpl.
  rewrite !store_u32_shape. reflexivity.
Qed.

Lemma triangle_body_other (ind : ref) (meshX lat lon : Z) (st : Heap * Z) (r : ref) :
  r <> ind -> (triangle_body ind meshX lat lon st).1 !! r = st.1 !! r.
Proof.
  intros Hne. unfold triangle_body. destruct st as [h tri]. simpl.
  rewrite !store_u32_other by exact Hne. reflexivity.
Qed.

Lemma triangle_loop_inv (P : Heap * Z -> Prop) (ind : ref) (meshX meshY : Z) (h : Heap) :
  P (h, 0) ->
  (forall lat lon st, 0 <= lat < meshY -> 0 <= lon < meshX ->
     P st -> P (triangle_body ind meshX lat lon st)) ->
  P (triangle_loop ind meshX meshY h).
Proof.
  intros Hh Hstep. unfold triangle_loop.
  apply (for_range_inv P); [exact Hh|].
  intros lat st Hlat Hst.
  apply (for_range_inv P); [exact Hst|].
  intros lon st' Hlon Hst'. apply Hstep; assumption.
Qed.

(** Every index the triangle loop stores is below the vertex count. *)
Lemma triangle_loop_bound (ind : ref) (meshX meshY : Z) (h : Heap) :
  (forall v, In v (u32 h ind) -> 0 <= v < (meshX + 1) * (meshY + 1)) ->
  forall v, In v (u32 (triangle_loop ind meshX meshY h).1 ind) ->
            0 <= v < (meshX + 1) * (meshY + 1).
Proof.
  intros Hinit.
  apply (triangle_loop_inv
           (fun st => forall v, In v (u32 st.1 ind) ->
                                0 <= v < (meshX + 1) * (meshY + 1)));
    [exact Hinit|].
  intros lat lon [t tri] Hlat Hlon Hst v. unfold triangle_body. simpl.
  rewrite !u32_store_u32. intros Hin.
  repeat (apply elem_of_write in Hin as [->|Hin];
          [match goal with
           | |- _ <= toUint32 ?x < _ =>
               pose proof (toUint32_bounds x ltac:(nia)); nia
           end|]).
  apply Hst, Hin.
Qed.

(** The triangle loop runs its body [meshX * meshY] times: [tri] ends at
    the length of the index array. *)
Lemma triangle_loop_tri (ind : ref) (meshX meshY : Z) (h : Heap) :
  0 <= meshX -> 0 <= meshY ->
  (triangle_loop ind meshX meshY h).2 = meshX * meshY * 6.
Proof.
  intros Hx Hy. unfold triangle_loop.
  replace (meshX * meshY * 6) with (meshY * meshX * 6) by lia.
  apply (for_range_ind (fun lat (st : Heap * Z) => st.2 = lat * meshX * 6));
    [lia | reflexivity |].
  intros lat st Hlat Hst.
  replace ((lat + 1) * meshX * 6) with ((lat * meshX + meshX) * 6) by lia.
  apply (for_range_ind
           (fun lon (st' : Heap * Z) => st'.2 = (lat * meshX + lon) * 6));
    [lia | lia |].
  intros lon [t tri] Hlon Hst'. unfold triangle_body. simpl in *. lia.
Qed.

End MeshProperties.

Section MeshTheorems.
Context {M : MathLib}.

(** What [generatePerspectiveMesh] returns on a tessellation without
    negative sides. *)
Lemma generatePerspectiveMesh_returns (h : Heap) (depth : list Q)
    (width height meshX meshY : Z) (depthMin depthMax : Q)
    (centerZ fovDegrees : option Q) :
  0 <= meshX -> 0 <= meshY ->
  exists (h' : Heap) (mesh : Mesh),
    generatePerspectiveMesh h depth width height meshX meshY depthMin depthMax
      centerZ fovDegrees = Returned (h', mesh)
    /\ MeshDescriptor h' mesh
    /\ vertexCount mesh = (meshX + 1) * (meshY + 1)
    /\ Z.of_nat (length (u32 h' (indices mesh))) = meshX * meshY * 6
    /\ indexCount mesh = meshX * meshY * 6
    /\ (forall v, In v (u32 h' (indices mesh)) -> 0 <= v < vertexCount mesh).
Proof.
  intros Hx Hy. unfold generatePerspectiveMesh.
  set (vertCount := (meshX + 1) * (meshY + 1)).
  assert (Hvc : 1 <= vertCount) by (unfold vertCount; nia).
  replace ((vertCount <? 0) || (meshX * meshY * 6 <? 0)) with false
    by (symmetry; apply orb_false_intro; apply Z.ltb_ge; nia).
  pose proof (allocate_buffers_spec h vertCount (meshX * meshY * 6)) as Hspec.
  destruct (allocate_buffers h vertCount (meshX * meshY * 6)) as [h5 bufs].
  simpl in Hspec.
  destruct Hspec as (Hnd & Hp & Hr & Hb & Hu & Hi & _).
  match goal with
  | |- context [vertex_loop bufs depth width height meshX meshY depthMin ?tx ?ty h5] =>
      set (vst := vertex_loop bufs depth width height meshX meshY depthMin tx ty h5)
  end.
  assert (Hvshape : forall r, shape <$> (vs_heap vst !! r) = shape <$> (h5 !! r)).
  { intros r. unfold vst.
    apply (vertex_loop_inv (fun t => shape <$> (t !! r) = shape <$> (h5 !! r)));
      [reflexivity|].
    intros lat lon st Hst. rewrite vertex_body_shape. exact Hst. }
  assert (Hvu32 : u32 (vs_heap vst) (b_indices bufs) = u32 h5 (b_indices bufs)).
  { unfold vst.
    apply (vertex_loop_inv
             (fun t => u32 t (b_indices bufs) = u32 h5 (b_indices bufs)));
      [reflexivity|].
    intros lat lon st Hst. rewrite vertex_body_u32. exact Hst. }
  assert (Htshape : forall r,
            shape <$> ((triangle_loop (b_indices bufs) meshX meshY (vs_heap vst)).1 !! r)
            = shape <$> (h5 !! r)).
  { intros r.
    apply (triangle_loop_inv
             (fun st => shape <$> (st.1 !! r) = shape <$> (h5 !! r)));
      [apply Hvshape|].
    intros lat lon st _ _ Hst. rewrite triangle_body_shape. exact Hst. }
  pose proof (triangle_loop_bound (b_indices bufs) meshX meshY (vs_heap vst))
    as Hbound.
  destruct (triangle_loop (b_indices bufs) meshX meshY (vs_heap vst)) as [h6 tri].
  simpl in Htshape, Hbound.
  destruct (shape_uint h5 h6 _ _ (Htshape _) Hi) as (li & Hli & Hleni).
  rewrite length_replicate in Hleni.
  assert (Hu32 : u32 h6 (b_indices bufs) = li) by (unfold u32; rewrite Hli; reflexivity).
  exists h6. eexists. split; [reflexivity|]. simpl.
  split.
  { split; simpl.
    - exact Hnd.
    - destruct (shape_float h5 h6 _ _ (Htshape _) Hp) as (l & Hl & Hlen).
      rewrite length_replicate in Hlen. exists l. split; [exact Hl | lia].
    - destruct (shape_float h5 h6 _ _ (Htshape _) Hr) as (l & Hl & Hlen).
      rewrite length_replicate in Hlen. exists l. split; [exact Hl | lia].
    - destruct (shape_float h5 h6 _ _ (Htshape _) Hb) as (l & Hl & Hlen).
      rewrite length_replicate in Hlen. exists l. split; [exact Hl | lia].
    - destruct (shape_float h5 h6 _ _ (Htshape _) Hu) as (l & Hl & Hlen).
      rewrite length_replicate in Hlen. exists l. split; [exact Hl | lia].
    - exists li. exact Hli. }
  split; [reflexivity|].
  rewrite Hu32. split; [nia|]. split; [nia|].
  rewrite <- Hu32. apply Hbound.
  intros v Hin. rewrite Hvu32 in Hin. unfold u32 in Hin. rewrite Hi in Hin.
  apply list_elem_of_In, elem_of_replicate in Hin as [-> _].
  fold vertCount. lia.
Qed.

(** C7. For a tessellation of at least one column and one row, the mesh
    the reconstructor returns has [vertexCount = (columns+1)*(rows+1)] and
    an index array of length [columns*rows*6] (also its [indexCount]), and
    its four float arrays are sized by [vertexCount]. *)
Theorem mesh_shape_invariant (h : Heap) (depth : list Q)
    (width height meshX meshY : Z) (depthMin depthMax : Q)
    (centerZ fovDegrees : option Q) :
  1 <= meshX -> 1 <= meshY ->
  exists (h' : Heap) (mesh : Mesh),
    generatePerspectiveMesh h depth width height meshX meshY depthMin depthMax
      centerZ fovDegrees = Returned (h', mesh)
    /\ vertexCount mesh = (meshX + 1) * (meshY + 1)
    /\ Z.of_nat (length (u32 h' (indices mesh))) = meshX * meshY * 6
    /\ indexCount mesh = meshX * meshY * 6
    /\ MeshDescriptor h' mesh.
Proof.
  intros Hx Hy.
  destruct (generatePerspectiveMesh_returns h depth width height meshX meshY
              depthMin depthMax centerZ fovDegrees ltac:(lia) ltac:(lia))
    as (h' & mesh & E & Hmd & Hvc & Hlen & Hic & _).
  exists h', mesh. repeat (split; [assumption|]). exact Hmd.
Qed.

(** C10. For a tessellation of at least one column and one row, every
    entry of the index array the reconstructor returns is a vertex number:
    it is below [vertexCount = (columns+1)*(rows+1)]. *)
Theorem index_buffer_valid (h : Heap) (depth : list Q)
    (width height meshX meshY : Z) (depthMin depthMax : Q)
    (centerZ fovDegrees : option Q) :
  1 <= meshX -> 1 <= meshY ->
  exists (h' : Heap) (mesh : Mesh),
    generatePerspectiveMesh h depth width height meshX meshY depthMin depthMax
      centerZ fovDegrees = Returned (h', mesh)
    /\ vertexCount mesh = (meshX + 1) * (meshY + 1)
    /\ forall (k : nat) (v : Z),
         u32 h' (indices mesh) !! k = Some v -> 0 <= v < vertexCount mesh.
Proof.
  intros Hx Hy.
  destruct (generatePerspectiveMesh_returns h depth width height meshX meshY
              depthMin depthMax centerZ fovDegrees ltac:(lia) ltac:(lia))
    as (h' & mesh & E & _ & Hvc & _ & _ & Hbound).
  exists h', mesh. split; [exact E|]. split; [exact Hvc|].
  intros k v Hk. apply Hbound.
  apply list_elem_of_In, list_elem_of_lookup. eauto.
Qed.

End MeshTheorems.

(** ** The reconstructor on a concrete tessellation *)

(** Two columns and one row over the grid [tiny_depth]: six vertices, two
    cells, four triangles. *)
Example mesh_2x1_indices :
  match @generatePerspectiveMesh approxMath ∅ tiny_depth 2 2 2 1 1 2
          None (Some 60%Q) with
  | Returned (h', mesh) =>
      u32 h' (indices mesh) = [0; 3; 1; 1; 3; 4; 1; 4; 2; 2; 4; 5]
      /\ vertexCount mesh = 6
      /\ map Qred (f32 h' (baseDepths mesh)) = [1; 1 # 2; 1; 2; 7 # 4; 3 # 2]%Q
  | Thrown _ => False
  end.
Proof. vm_compute. repeat split; reflexivity. Qed.

(** A negative side makes the first constructor throw. *)
Example mesh_negative_side :
  @generatePerspectiveMesh approxMath ∅ tiny_depth 2 2 (-3) 1 1 2 None None
  = Thrown RangeError.
Proof. reflexivity. Qed.

(** The shape invariant on that tessellation. *)
Lemma mesh_shape_invariant_witness :
  exists (h' : Heap) (mesh : Mesh),
    @generatePerspectiveMesh approxMath ∅ tiny_depth 2 2 2 1 1 2
      None (Some 60%Q) = Returned (h', mesh)
    /\ vertexCount mesh = (2 + 1) * (1 + 1)
    /\ Z.of_nat (length (u32 h' (indices mesh))) = 2 * 1 * 6
    /\ indexCount mesh = 2 * 1 * 6
    /\ MeshDescriptor h' mesh.
Proof.
  apply (@mesh_shape_invariant approxMath ∅ tiny_depth 2 2 2 1 1 2
           None (Some 60%Q)); lia.
Defined.

(** The index bound on that tessellation. *)
Lemma index_buffer_valid_witness :
  exists (h' : Heap) (mesh : Mesh),
    @generatePerspectiveMesh approxMath ∅ tiny_depth 2 2 2 1 1 2
      None (Some 60%Q) = Returned (h', mesh)
    /\ vertexCount mesh = (2 + 1) * (1 + 1)
    /\ forall (k : nat) (v : Z),
         u32 h' (indices mesh) !! k = Some v -> 0 <= v < vertexCount mesh.
Proof.
  apply (@index_buffer_valid approxMath ∅ tiny_depth 2 2 2 1 1 2
           None (Some 60%Q)); lia.
Defined.

(** ** The decoded asset *)

Lemma decodeDepth_nonneg (r g b a : Z) : (0 <= decodeDepth r g b a)%Q.
Proof.
  unfold decodeDepth. apply Qle_shift_div_l; [reflexivity|].
  rewrite Qmult_0_l. change 0%Q with (inject_Z 0). rewrite <- Zle_Qle.
  unfold encodedWord, ushr0, toUint32.
  apply Z.mod_pos_bound. lia.
Qed.

(** The arrays keep their allocated lengths through the pixel loops, and
    the depth array never holds a negative number. *)
Lemma decode_pixels_shape (img : PngImage) :
  let width := png_width img / 2 in
  let st := decode_pixels img in
  length (leftPixels st) = Z.to_nat (width * png_height img * 4)
  /\ length (depthValues st) = Z.to_nat (width * png_height img)
  /\ forall v, In v (depthValues st) -> (0 <= v)%Q.
Proof.
  intros width st. subst st. unfold decode_pixels. fold width.
  set (Inv := fun st : DecodeState =>
    length (leftPixels st) = Z.to_nat (width * png_height img * 4)
    /\ length (depthValues st) = Z.to_nat (width * png_height img)
    /\ forall v, In v (depthValues st) -> (0 <= v)%Q).
  apply (for_range_inv Inv).
  - unfold Inv. simpl. rewrite !length_replicate.
    split; [reflexivity|]. split; [reflexivity|].
    intros v Hin. apply list_elem_of_In, elem_of_replicate in Hin as [-> _]. lra.
  - intros y st _ Hst. unfold decode_row.
    apply (for_range_inv Inv).
    + apply (for_range_inv Inv); [exact Hst|].
      intros x t _ (Hl & Hd & Hv). unfold Inv, decode_color_pixel. simpl.
      rewrite !length_write. repeat split; assumption.
    + intros x t _ (Hl & Hd & Hv). unfold Inv.
      rewrite decode_depth_pixel_depthValues, length_write.
      split; [unfold decode_depth_pixel; destruct (Qltb 0 _); exact Hl|].
      split; [exact Hd|].
      intros v Hin. apply elem_of_write in Hin as [->|Hin].
      * apply fround_nonneg, decodeDepth_nonneg.
      * apply Hv, Hin.
Qed.

(** End to end: the depth grid of every decoded asset has one valid depth
    per pixel. *)
Lemma decoded_asset_depth_valid {M : MathLib} (Blob : Type)
    (parsePng : Blob -> Outcome PngImage) (file : Blob) (img : PngImage) :
  exp_nonnegative M ->
  parsePng file = Returned img ->
  Z.rem (png_width img) 2 = 0 ->
  2 <= png_width img -> 1 <= png_height img ->
  exists asset,
    snd (decodeRgbdeFile Blob parsePng file) = Returned asset
    /\ length (asset_depth asset)
       = Z.to_nat (asset_width asset * asset_height asset)
    /\ forall d, In d (asset_depth asset) -> valid_depth d.
Proof.
  intros Hexp Hparse Heven Hw Hh.
  unfold decodeRgbdeFile. rewrite Hparse, Heven. simpl.
  rewrite new_ImageData_returns by assumption.
  eexists. split; [reflexivity|]. simpl.
  destruct (decode_pixels_shape img) as (_ & Hlen & Hnonneg).
  set (width := png_width img / 2) in *.
  assert (Hw' : 0 <= width) by (apply Z.div_pos; lia).
  assert (Hvalid : forall d, In d (depthValues (decode_pixels img)) -> valid_depth d).
  { intros d Hin. pose proof (Hnonneg d Hin) as Hd. unfold valid_depth.
    destruct (Qlt_le_dec 0 d) as [Hpos|Hle]; [right; exact Hpos | left; lra]. }
  destruct (reduceDepthSpikes_inv (depthValues (decode_pixels img))
              (leftPixels (decode_pixels img)) width (png_height img))
    as (HlenA & _ & _).
  unfold preprocessDepth.
  assert (HlenA' : length (reduceDepthSpikes (depthValues (decode_pixels img))
                             (leftPixels (decode_pixels img)) width (png_height img))
                   = Z.to_nat (width * png_height img)) by congruence.
  split.
  - rewrite (proj1 (applyEdgeAwareSmooth_spec _ _ width (png_height img)
                      Hw' ltac:(lia) HlenA')).
    exact HlenA'.
  - apply applyEdgeAwareSmooth_valid; try assumption; try lia.
    apply reduceDepthSpikes_valid, Hvalid.
Qed.

(** The spike of the specification: depth 1 everywhere except 2 at the
    centre of a 3x3 grid of one colour; pass A replaces the centre by the
    median 1. *)
Example spike_rejected :
  @reduceDepthSpikes approxMath [1; 1; 1; 1; 2; 1; 1; 1; 1]%Q
    (concat (replicate 9 [7; 7; 7; 255])) 3 3
  = [1; 1; 1; 1; 1; 1; 1; 1; 1]%Q.
Proof. vm_compute. reflexivity. Qed.

(** A depth edge: the right column is 2 m behind the left one. The median
    of the centre's window is its own depth, and pass A keeps the grid. *)
Example depth_edge_kept :
  @reduceDepthSpikes approxMath [1; 1; 3; 1; 1; 3; 1; 1; 3]%Q
    (concat (replicate 9 [7; 7; 7; 255])) 3 3
  = [1; 1; 3; 1; 1; 3; 1; 1; 3]%Q.
Proof. vm_compute. reflexivity. Qed.

(** ** Reconstruction followed by remaps *)

(** After any sequence of remaps of a reconstructed mesh, the four other
    arrays are the ones the reconstructor left. *)
Lemma remaps_keep_reconstruction {M : MathLib} (h : Heap) (m : Mesh)
    (os : list Options) (r : ref) :
  MeshDescriptor h m ->
  r <> positions m ->
  let h' := fold_left (fun t o => updateVertexPositions t m o) os h in
  h' !! r = h !! r /\ MeshDescriptor h' m.
Proof.
  intros Hmd Hne. revert h Hmd.
  induction os as [|o os IH]; intros h Hmd; simpl.
  - split; [reflexivity | exact Hmd].
  - destruct (IH (updateVertexPositions h m o)
                (updateVertexPositions_descriptor h m o Hmd)) as [E Hmd'].
    split; [|exact Hmd'].
    rewrite E. apply updateVertexPositions_other, Hne.
Qed.

(** ** The contents of the index array *)

Lemma read_six_writes (a : list Z) (t v0 v1 v2 v3 v4 v5 c : Z) :
  0 <= t -> t + 6 <= Z.of_nat (length a) -> 0 <= c < 6 ->
  readZ (write (write (write (write (write (write a t v0) (t + 1) v1)
           (t + 2) v2) (t + 3) v3) (t + 4) v4) (t + 5) v5) (t + c)
  = readZ [v0; v1; v2; v3; v4; v5] c.
Proof.
  intros Ht Hlen Hc. unfold readZ.
  assert (c = 0 \/ c = 1 \/ c = 2 \/ c = 3 \/ c = 4 \/ c = 5)
    as [-> | [-> | [-> | [-> | [-> | ->]]]]] by lia.
  - rewrite !read_write_ne by lia. rewrite Z.add_0_r.
    apply read_write_eq. lia.
  - rewrite !read_write_ne by lia.
    apply read_write_eq. rewrite !length_write. lia.
  - rewrite !read_write_ne by lia.
    apply read_write_eq. rewrite !length_write. lia.
  - rewrite !read_write_ne by lia.
    apply read_write_eq. rewrite !length_write. lia.
  - rewrite !read_write_ne by lia.
    apply read_write_eq. rewrite !length_write. lia.
  - apply read_write_eq. rewrite !length_write. lia.
Qed.

Lemma read_outside_six_writes (a : list Z) (t v0 v1 v2 v3 v4 v5 j : Z) :
  0 <= j < t ->
  readZ (write (write (write (write (write (write a t v0) (t + 1) v1)
           (t + 2) v2) (t + 3) v3) (t + 4) v4) (t + 5) v5) j
  = readZ a j.
Proof. intros Hj. unfold readZ. rewrite !read_write_ne by lia. reflexivity. Qed.

(** Cell by cell, the index array holds the two triangles of
    [cell_indices], each index modulo 2^32. *)
Lemma triangle_loop_spec (ind : ref) (meshX meshY : Z) (h : Heap) :
  0 <= meshX -> 0 <= meshY ->
  Z.of_nat (length (u32 h ind)) = meshX * meshY * 6 ->
  forall lat lon c,
    0 <= lat < meshY -> 0 <= lon < meshX -> 0 <= c < 6 ->
    readZ (u32 (triangle_loop ind meshX meshY h).1 ind)
      ((lat * meshX + lon) * 6 + c)
    = toUint32 (readZ (cell_indices meshX lat lon) c).
Proof.
  intros Hx Hy Hlen.
  set (Cells := fun (before : Z -> Z -> Prop) (tri : Z) (st : Heap * Z) =>
    st.2 = tri
    /\ length (u32 st.1 ind) = length (u32 h ind)
    /\ forall lat lon c, 0 <= lat -> 0 <= lon < meshX -> 0 <= c < 6 ->
         before lat lon ->
         readZ (u32 st.1 ind) ((lat * meshX + lon) * 6 + c)
         = toUint32 (readZ (cell_indices meshX lat lon) c)).
  assert (Hall : Cells (fun lat _ => lat < meshY) (meshY * meshX * 6)
                   (triangle_loop ind meshX meshY h)).
  { unfold triangle_loop.
    apply (for_range_ind
             (fun j => Cells (fun lat _ => lat < j) (j * meshX * 6)));
      [exact Hy | |].
    - split; [reflexivity|]. split; [reflexivity | intros; lia].
    - intros j st Hj (Htri & Hl & Hdone).
      assert (Hrow : Cells (fun lat lon => lat < j \/ (lat = j /\ lon < meshX))
                       ((j * meshX + meshX) * 6)
                       (for_range 0 meshX (triangle_body ind meshX j) st)).
      { apply (for_range_ind
                 (fun i => Cells (fun lat lon => lat < j \/ (lat = j /\ lon < i))
                             ((j * meshX + i) * 6)));
          [exact Hx | |].
        - split; [lia|]. split; [exact Hl|].
          intros lat lon c Hlat Hlon Hc [Hb|[_ Hb]]; [|lia].
          apply Hdone; assumption.
        - intros i [t tri] Hi (Htri' & Hl' & Hdone'). simpl in Htri'. subst tri.
          unfold Cells, triangle_body. simpl.
          rewrite !u32_store_u32, !length_write.
          split; [lia|]. split; [exact Hl'|].
          intros lat lon c Hlat Hlon Hc Hbefore.
          destruct (Z.eq_dec lat j) as [->|Hnj];
            [destruct (Z.eq_dec lon i) as [->|Hni]|].
          + rewrite read_six_writes by (simpl in Hl'; nia).
            assert (c = 0 \/ c = 1 \/ c = 2 \/ c = 3 \/ c = 4 \/ c = 5)
              as [-> | [-> | [-> | [-> | [-> | ->]]]]] by lia; reflexivity.
          + rewrite read_outside_six_writes by nia.
            apply Hdone'; try assumption. right. split; [reflexivity | lia].
          + rewrite read_outside_six_writes by nia.
            apply Hdone'; try assumption. left. lia. }
      destruct Hrow as (Htri2 & Hl2 & Hdone2).
      split; [lia|]. split; [exact Hl2|].
      intros lat lon c Hlat Hlon Hc Hbefore. apply Hdone2; try assumption.
      destruct (Z.eq_dec lat j); [right | left]; lia. }
  destruct Hall as (_ & _ & Hcells).
  intros lat lon c Hlat Hlon Hc. apply Hcells; lia.
Qed.

(** ** The base depths of a reconstructed mesh *)

Lemma f32_store_f32_ne (h : Heap) (r r' : ref) (i : Z) (v : Q) :
  r' <> r -> f32 (store_f32 h r i v) r' = f32 h r'.
Proof. intros Hne. apply f32_lookup_eq, store_f32_other, Hne. Qed.

Section BaseDepths.
Context {M : MathLib}.

(** One vertex step stores the sampled depth at [index] and moves on. *)
Lemma vertex_body_baseDepths (bufs : Buffers) (depth : list Q)
    (width height meshX meshY : Z) (depthMin tanHalfX tanHalfY : Q)
    (lat lon : Z) (st : VertexState) :
  b_baseDepths bufs <> b_positions bufs ->
  b_baseDepths bufs <> b_rayDirections bufs ->
  b_baseDepths bufs <> b_uvs bufs ->
  let st' := vertex_body bufs depth width height meshX meshY depthMin
               tanHalfX tanHalfY lat lon st in
  vs_index st' = vs_index st + 1
  /\ f32 (vs_heap st') (b_baseDepths bufs)
     = write (f32 (vs_heap st) (b_baseDepths bufs)) (vs_index st)
         (fround (sampleDepth depth width height
                    (vertex_pixelX width meshX lon)
                    (vertex_pixelY height meshY lat) depthMin)).
Proof.
  intros Hp Hr Hu. unfold vertex_body.
  destruct (normalize3 _ _ _) as [[d0 d1] d2]. simpl.
  split; [reflexivity|].
  rewrite !f32_store_f32_ne by exact Hu.
  rewrite f32_store_f32.
  rewrite !f32_store_f32_ne by assumption.
  reflexivity.
Qed.

(** Vertex [lat * (meshX + 1) + lon] gets the depth sampled at its image
    coordinates. *)
Lemma vertex_loop_baseDepths (bufs : Buffers) (depth : list Q)
    (width height meshX meshY : Z) (depthMin tanHalfX tanHalfY : Q) (h : Heap) :
  0 <= meshX -> 0 <= meshY ->
  b_baseDepths bufs <> b_positions bufs ->
  b_baseDepths bufs <> b_rayDirections bufs ->
  b_baseDepths bufs <> b_uvs bufs ->
  Z.of_nat (length (f32 h (b_baseDepths bufs))) = (meshX + 1) * (meshY + 1) ->
  forall lat lon, 0 <= lat <= meshY -> 0 <= lon <= meshX ->
    readQ (f32 (vs_heap (vertex_loop bufs depth width height meshX meshY
                           depthMin tanHalfX tanHalfY h)) (b_baseDepths bufs))
      (lat * (meshX + 1) + lon)
    = fround (sampleDepth depth width height
                (vertex_pixelX width meshX lon)
                (vertex_pixelY height meshY lat) depthMin).
Proof.
  intros Hx Hy Hp Hr Hu Hlen.
  set (bd := b_baseDepths bufs) in *.
  set (Done := fun (before : Z -> Z -> Prop) (index : Z) (st : VertexState) =>
    vs_index st = index
    /\ length (f32 (vs_heap st) bd) = length (f32 h bd)
    /\ forall lat lon, 0 <= lat -> 0 <= lon <= meshX -> before lat lon ->
         readQ (f32 (vs_heap st) bd) (lat * (meshX + 1) + lon)
         = fround (sampleDepth depth width height
                     (vertex_pixelX width meshX lon)
                     (vertex_pixelY height meshY lat) depthMin)).
  assert (Hall : Done (fun lat _ => lat < meshY + 1)
                   ((meshY + 1) * (meshX + 1))
                   (vertex_loop bufs depth width height meshX meshY depthMin
                      tanHalfX tanHalfY h)).
  { unfold vertex_loop.
    apply (for_range_ind
             (fun j => Done (fun lat _ => lat < j) (j * (meshX + 1))));
      [lia | |].
    - split; [reflexivity|]. split; [reflexivity | intros; lia].
    - intros j st Hj (Hidx & Hl & Hdone).
      assert (Hrow : Done (fun lat lon => lat < j \/ (lat = j /\ lon < meshX + 1))
                       (j * (meshX + 1) + (meshX + 1))
                       (for_range 0 (meshX + 1)
                          (vertex_body bufs depth width height meshX meshY
                             depthMin tanHalfX tanHalfY j) st)).
      { apply (for_range_ind
                 (fun i => Done (fun lat lon => lat < j \/ (lat = j /\ lon < i))
                             (j * (meshX + 1) + i)));
          [lia | |].
        - split; [lia|]. split; [exact Hl|].
          intros lat lon Hlat Hlon [Hb|[_ Hb]]; [|lia].
          apply Hdone; assumption.
        - intros i t Hi (Hidx' & Hl' & Hdone').
          destruct (vertex_body_baseDepths bufs depth width height meshX meshY
                      depthMin tanHalfX tanHalfY j i t Hp Hr Hu) as [Hi1 Hw].
          fold bd in Hw. unfold Done. rewrite Hi1, Hw, length_write, Hidx'.
          split; [lia|]. split; [exact Hl'|].
          intros lat lon Hlat Hlon Hbefore. unfold readQ.
          destruct (Z.eq_dec lat j) as [->|Hnj];
            [destruct (Z.eq_dec lon i) as [->|Hni]|].
          + apply read_write_eq. rewrite Hl'. nia.
          + rewrite read_write_ne by lia.
            apply Hdone'; try assumption. right. split; [reflexivity | lia].
          + rewrite read_write_ne by nia.
            apply Hdone'; try assumption. left. lia. }
      destruct Hrow as (Hidx2 & Hl2 & Hdone2).
      split; [lia|]. split; [exact Hl2|].
      intros lat lon Hlat Hlon Hbefore. apply Hdone2; try assumption.
      destruct (Z.eq_dec lat j); [right | left]; lia. }
  destruct Hall as (_ & _ & Hcells).
  intros lat lon Hlat Hlon. apply Hcells; lia.
Qed.

End BaseDepths.

(** On a grid that holds the same positive depth everywhere, every sample
    is that depth. *)
Lemma sampleDepth_uniform (depth : list Q) (width height : Z) (x y fallback d : Q) :
  1 <= width -> 1 <= height ->
  length depth = Z.to_nat (width * height) ->
  (forall v, In v depth -> v = d) ->
  (0 < d)%Q ->
  (sampleDepth depth width height x y fallback == d)%Q.
Proof.
  intros Hw Hh Hlen Hall Hd.
  assert (Hread : forall q p : Z,
            readQ depth (clampCoord height q * width + clampCoord width p) = d).
  { intros q p. apply Hall. unfold readQ. apply read_in_range.
    pose proof (clampCoord_range width p Hw).
    pose proof (clampCoord_range height q Hh).
    rewrite Hlen. nia. }
  assert (Hvalue : (bilinearValue depth width height x y == d)%Q).
  { unfold bilinearValue. rewrite !Hread. ring. }
  rewrite sampleDepth_unfold.
  assert (Hpos : Qltb 0 (bilinearValue depth width height x y) = true).
  { apply Qltb_true. rewrite Hvalue. exact Hd. }
  rewrite Hpos. exact Hvalue.
Qed.

Section UniformGrid.
Context {M : MathLib}.

(** The base depths [generatePerspectiveMesh] leaves in the heap. *)
Lemma generatePerspectiveMesh_baseDepths (h : Heap) (depth : list Q)
    (width height meshX meshY : Z) (depthMin depthMax : Q)
    (centerZ fovDegrees : option Q) (h' : Heap) (mesh : Mesh) :
  0 <= meshX -> 0 <= meshY ->
  generatePerspectiveMesh h depth width height meshX meshY depthMin depthMax
    centerZ fovDegrees = Returned (h', mesh) ->
  baseDepthMin mesh = Qmax depthMin MIN_DEPTH_CLAMP
  /\ forall lat lon, 0 <= lat <= meshY -> 0 <= lon <= meshX ->
       baseDepth_of h' mesh (lat * (meshX + 1) + lon)
       = fround (sampleDepth depth width height
                   (vertex_pixelX width meshX lon)
                   (vertex_pixelY height meshY lat) depthMin).
Proof.
  intros Hx Hy. unfold generatePerspectiveMesh.
  set (vertCount := (meshX + 1) * (meshY + 1)).
  replace ((vertCount <? 0) || (meshX * meshY * 6 <? 0)) with false
    by (symmetry; apply orb_false_intro; apply Z.ltb_ge; unfold vertCount; nia).
  pose proof (allocate_buffers_spec h vertCount (meshX * meshY * 6)) as Hspec.
  destruct (allocate_buffers h vertCount (meshX * meshY * 6)) as [h5 bufs].
  simpl in Hspec.
  destruct Hspec as (Hnd & _ & _ & Hb & _ & _ & _).
  match goal with
  | |- context [vertex_loop bufs depth width height meshX meshY depthMin ?tx ?ty h5] =>
      pose proof (vertex_loop_baseDepths bufs depth width height meshX meshY
                    depthMin tx ty h5 Hx Hy) as Hbase;
      set (vst := vertex_loop bufs depth width height meshX meshY depthMin tx ty h5)
        in *
  end.
  assert (Hf32 : f32 (triangle_loop (b_indices bufs) meshX meshY (vs_heap vst)).1
                   (b_baseDepths bufs)
                 = f32 (vs_heap vst) (b_baseDepths bufs)).
  { apply (triangle_loop_inv
             (fun st => f32 st.1 (b_baseDepths bufs)
                        = f32 (vs_heap vst) (b_baseDepths bufs)));
      [reflexivity|].
    intros lat lon [t tri] _ _ Hst. unfold triangle_body. simpl in *.
    rewrite !f32_store_u32. exact Hst. }
  destruct (triangle_loop (b_indices bufs) meshX meshY (vs_heap vst)) as [h6 tri].
  simpl in Hf32.
  intros E. injection E as <- <-. simpl.
  split; [reflexivity|].
  intros lat lon Hlat Hlon. unfold baseDepth_of. simpl. rewrite Hf32.
  apply NoDup_cons in Hnd as [Hp Hnd]. apply NoDup_cons in Hnd as [Hr Hnd].
  apply NoDup_cons in Hnd as [Hbu _].
  rewrite !not_elem_of_cons in Hp, Hr, Hbu.
  apply Hbase; try assumption; try (intuition congruence).
  unfold f32. rewrite Hb, length_replicate. unfold vertCount. nia.
Qed.

(** On every image of one positive binary32 depth [d >= 0.15], whatever
    the tessellation and the field of view, the identity remap puts every
    vertex at depth [d + 0.001] along its ray, not at [d]. *)
Lemma uniform_grid_identity_remap (h : Heap) (depth : list Q)
    (width height meshX meshY : Z) (d depthMax : Q)
    (centerZ fovDegrees : option Q) (o : Options) :
  1 <= width -> 1 <= height ->
  length depth = Z.to_nat (width * height) ->
  (forall v, In v depth -> v = d) ->
  is_binary32 d ->
  (MIN_DEPTH_CLAMP <= d)%Q ->
  0 <= meshX -> 0 <= meshY ->
  identity_options o ->
  exists (h' : Heap) (mesh : Mesh),
    generatePerspectiveMesh h depth width height meshX meshY d depthMax
      centerZ fovDegrees = Returned (h', mesh)
    /\ forall i k, 0 <= i < vertexCount mesh -> 0 <= k < 3 ->
         position_of (updateVertexPositions h' mesh o) mesh i k
         = fround (ray_of h' mesh i k * (d + 0.001)).
Proof.
  intros Hw Hh Hlen Hall Hb32 Hd Hx Hy Hid.
  destruct (generatePerspectiveMesh_returns h depth width height meshX meshY
              d depthMax centerZ fovDegrees Hx Hy)
    as (h' & mesh & E & Hmd & Hvc & _).
  destruct (generatePerspectiveMesh_baseDepths h depth width height meshX meshY
              d depthMax centerZ fovDegrees h' mesh Hx Hy E) as [Hmin Hbase].
  exists h', mesh. split; [exact E|].
  intros i k Hi Hk.
  rewrite remap_position by assumption.
  apply fround_compat.
  rewrite identity_remapped_depth by exact Hid.
  assert (Hpos : 0 < meshX + 1) by lia.
  pose proof (Z.div_mod i (meshX + 1) ltac:(lia)) as Hdm.
  pose proof (Z.mod_pos_bound i (meshX + 1) Hpos) as Hmod.
  assert (Hdiv : 0 <= i / (meshX + 1) <= meshY).
  { split; [apply Z.div_pos; lia|].
    assert (i / (meshX + 1) < meshY + 1); [|lia].
    apply Z.div_lt_upper_bound; nia. }
  replace i with (i / (meshX + 1) * (meshX + 1) + i mod (meshX + 1)) at 2 by lia.
  rewrite Hbase by lia.
  assert (Hdpos : (0 < d)%Q) by (unfold MIN_DEPTH_CLAMP in Hd; lra).
  rewrite (sampleDepth_uniform depth width height _ _ d d Hw Hh Hlen Hall Hdpos).
  unfold is_binary32 in Hb32. rewrite Hb32.
  rewrite Hmin.
  rewrite (Q.max_l d MIN_DEPTH_CLAMP) by exact Hd.
  rewrite (Q.max_l d MIN_DEPTH_CLAMP) by exact Hd.
  rewrite Q.max_r by lra. reflexivity.
Qed.

End UniformGrid.

(* ===================================================================== *)
(** * Further properties of the source *)
(* ===================================================================== *)

(** ** Loops that fill an array block by block *)

Lemma length_write_block {A : Type} (vs : list A) :
  forall (a : list A) (s : Z), length (write_block a s vs) = length a.
Proof.
  induction vs as [|v vs IH]; intros a s; simpl; [reflexivity|].
  rewrite IH. apply length_write.
Qed.

Lemma read_write_block_outside {A : Type} (d : A) (vs : list A) :
  forall (a : list A) (s i : Z),
    i < s \/ s + Z.of_nat (length vs) <= i ->
    read d (write_block a s vs) i = read d a i.
Proof.
  induction vs as [|v vs IH]; intros a s i Hi; simpl; [reflexivity|].
  simpl length in Hi.
  rewrite IH by lia.
  destruct (Z_lt_dec i 0) as [Hneg|Hpos].
  - unfold read. destruct (Z.ltb_spec i 0); [reflexivity | lia].
  - apply read_write_ne; lia.
Qed.

Lemma read_write_block_inside {A : Type} (d : A) (vs : list A) :
  forall (a : list A) (s c : Z),
    0 <= s -> s + Z.of_nat (length vs) <= Z.of_nat (length a) ->
    0 <= c < Z.of_nat (length vs) ->
    read d (write_block a s vs) (s + c) = read d vs c.
Proof.
  induction vs as [|v vs IH]; intros a s c Hs Hlen Hc; simpl in *; [lia|].
  destruct (Z.eq_dec c 0) as [->|Hc0].
  - rewrite read_write_block_outside by lia.
    rewrite Z.add_0_r. rewrite read_write_eq by lia. reflexivity.
  - replace (s + c) with ((s + 1) + (c - 1)) by lia.
    rewrite IH by (rewrite ?length_write; lia).
    unfold read. destruct (Z.ltb_spec (c - 1) 0); [lia|].
    destruct (Z.ltb_spec c 0); [lia|].
    replace (Z.to_nat c) with (Datatypes.S (Z.to_nat (c - 1))) by lia.
    reflexivity.
Qed.

Lemma write_block_2 {A : Type} (a : list A) (s : Z) (v0 v1 : A) :
  write (write a s v0) (s + 1) v1 = write_block a s [v0; v1].
Proof. reflexivity. Qed.

Lemma write_block_3 {A : Type} (a : list A) (s : Z) (v0 v1 v2 : A) :
  write (write (write a s v0) (s + 1) v1) (s + 2) v2
  = write_block a s [v0; v1; v2].
Proof. simpl. f_equal. lia. Qed.

Lemma write_block_4 {A : Type} (a : list A) (s : Z) (v0 v1 v2 v3 : A) :
  write (write (write (write a s v0) (s + 1) v1) (s + 2) v2) (s + 3) v3
  = write_block a s [v0; v1; v2; v3].
Proof.
  simpl. replace (s + 1 + 1) with (s + 2) by lia.
  replace (s + 2 + 1) with (s + 3) by lia. reflexivity.
Qed.

(** One row: step [x] stores the block [vals x] at [base + x * k]. *)
Lemma fill_row {S A : Type} (d : A) (get : S -> list A) (I : Z -> S -> Prop)
    (body : Z -> S -> S) (base k W : Z) (vals : Z -> list A) (s : S) :
  0 <= k -> 0 <= W -> 0 <= base ->
  base + W * k <= Z.of_nat (length (get s)) ->
  (forall x, 0 <= x < W -> Z.of_nat (length (vals x)) = k) ->
  I 0 s ->
  (forall x t, 0 <= x < W -> I x t ->
     I (x + 1) (body x t)
     /\ get (body x t) = write_block (get t) (base + x * k) (vals x)) ->
  let s' := for_range 0 W body s in
  I W s'
  /\ length (get s') = length (get s)
  /\ (forall x c, 0 <= x < W -> 0 <= c < k ->
        read d (get s') (base + x * k + c) = read d (vals x) c)
  /\ (forall i, i < base \/ base + W * k <= i ->
        read d (get s') i = read d (get s) i).
Proof.
  intros Hk HW Hbase Hlen Hvals HI Hbody s'.
  set (Inv := fun (j : Z) (t : S) =>
    I j t
    /\ length (get t) = length (get s)
    /\ (forall x c, 0 <= x < j -> 0 <= c < k ->
          read d (get t) (base + x * k + c) = read d (vals x) c)
    /\ (forall i, i < base \/ base + j * k <= i ->
          read d (get t) i = read d (get s) i)).
  assert (Hinv : Inv W s').
  { apply (for_range_ind Inv); [exact HW | |].
    - repeat split; [exact HI | intros; lia].
    - intros j t Hj (HIj & Hl & Hdone & Hrest).
      destruct (Hbody j t Hj HIj) as [HI' Hget].
      unfold Inv. rewrite Hget, length_write_block.
      split; [exact HI'|]. split; [exact Hl|]. split.
      + intros x c Hx Hc.
        destruct (Z.eq_dec x j) as [->|Hne].
        * apply read_write_block_inside; rewrite ?(Hvals j Hj); nia.
        * rewrite read_write_block_outside by (rewrite (Hvals j Hj); nia).
          apply Hdone; lia.
      + intros i Hi.
        rewrite read_write_block_outside by (rewrite (Hvals j Hj); nia).
        apply Hrest. nia. }
  destruct Hinv as (H1 & H2 & H3 & H4). repeat split; assumption.
Qed.

(** All rows: row [y] fills the cells [(y * W + x) * k] and leaves the
    other rows alone. *)
Lemma fill_rows {S A : Type} (d : A) (get : S -> list A) (J : Z -> S -> Prop)
    (rowbody : Z -> S -> S) (k W H : Z) (vals : Z -> Z -> list A) (s : S) :
  0 <= k -> 0 <= W -> 0 <= H ->
  J 0 s ->
  (forall y t, 0 <= y < H -> J y t -> length (get t) = length (get s) ->
     J (y + 1) (rowbody y t)
     /\ length (get (rowbody y t)) = length (get t)
     /\ (forall x c, 0 <= x < W -> 0 <= c < k ->
           read d (get (rowbody y t)) ((y * W + x) * k + c)
           = read d (vals y x) c)
     /\ (forall i, i < y * W * k \/ (y + 1) * W * k <= i ->
           read d (get (rowbody y t)) i = read d (get t) i)) ->
  let s' := for_range 0 H rowbody s in
  J H s'
  /\ length (get s') = length (get s)
  /\ (forall y x c, 0 <= y < H -> 0 <= x < W -> 0 <= c < k ->
        read d (get s') ((y * W + x) * k + c) = read d (vals y x) c).
Proof.
  intros Hk HW HH HJ Hrow s'.
  set (Inv := fun (j : Z) (t : S) =>
    J j t
    /\ length (get t) = length (get s)
    /\ (forall y x c, 0 <= y < j -> 0 <= x < W -> 0 <= c < k ->
          read d (get t) ((y * W + x) * k + c) = read d (vals y x) c)).
  assert (Hinv : Inv H s').
  { apply (for_range_ind Inv); [exact HH | |].
    - repeat split; [exact HJ | intros; lia].
    - intros j t Hj (HJj & Hl & Hdone).
      destruct (Hrow j t Hj HJj Hl) as (HJ' & Hl' & Hcells & Hrest).
      unfold Inv. split; [exact HJ'|]. split; [congruence|].
      intros y x c Hy Hx Hc.
      destruct (Z.eq_dec y j) as [->|Hne].
      + apply Hcells; assumption.
      + rewrite Hrest by nia. apply Hdone; lia. }
  exact Hinv.
Qed.

(** ** The colour half of a decoded container *)

(** The depth loop leaves [leftPixels] alone. *)
Lemma decode_depth_loop_leftPixels (data : list Z) (width rightRow y : Z)
    (st : DecodeState) :
  leftPixels (for_range 0 width (decode_depth_pixel data width rightRow y) st)
  = leftPixels st.
Proof.
  apply (for_range_inv (fun t => leftPixels t = leftPixels st)); [reflexivity|].
  intros j t _ Ht. unfold decode_depth_pixel.
  destruct (Qltb 0 _); exact Ht.
Qed.

(** X1. The colour half is copied verbatim and made opaque: for every
    pixel [(x, y)] of the left half, the three colour bytes of
    [leftPixels] are those of the container and the alpha byte is 255,
    whatever alpha the container had. *)
Theorem decode_color_half (img : PngImage) (x y c : Z) :
  0 <= x < png_width img / 2 ->
  0 <= y < png_height img ->
  0 <= c < 3 ->
  let width := png_width img / 2 in
  let lp := leftPixels (decode_pixels img) in
  readZ lp ((y * width + x) * 4 + c)
  = readZ (png_data img) ((y * png_width img + x) * 4 + c)
  /\ readZ lp ((y * width + x) * 4 + 3) = 255.
Proof.
  intros Hx Hy Hc width lp. subst lp. unfold decode_pixels.
  set (fullWidth := png_width img) in *. set (height := png_height img) in *.
  fold width. set (data := png_data img).
  set (vals := fun y x : Z =>
    [readZ data (y * fullWidth * 4 + x * 4);
     readZ data (y * fullWidth * 4 + x * 4 + 1);
     readZ data (y * fullWidth * 4 + x * 4 + 2); 255]).
  match goal with
  | |- context [for_range 0 height ?row ?init] =>
      destruct (fill_rows 0 leftPixels (fun _ _ => True) row 4 width height
                  vals init) as (_ & _ & Hcells)
  end; try lia; try exact I.
  - intros j t Hj _ Hl. simpl in Hl. rewrite length_replicate in Hl.
    unfold decode_row. rewrite decode_depth_loop_leftPixels.
    destruct (fill_row 0 leftPixels (fun _ _ => True)
                (decode_color_pixel data (j * fullWidth * 4) (j * width * 4))
                (j * width * 4) 4 width (vals j) t)
      as (_ & Hl' & Hin & Hout); try lia; try nia.
    + intros; reflexivity.
    + intros i t' _ _. split; [exact I | apply write_block_4].
    + split; [exact I|]. split; [exact Hl'|]. split.
      * intros x' c' Hx' Hc'.
        replace ((j * width + x') * 4 + c') with (j * width * 4 + x' * 4 + c')
          by lia.
        apply Hin; assumption.
      * intros i Hi. apply Hout. lia.
  - unfold readZ. split.
    + rewrite (Hcells y x c) by lia. unfold vals, readZ.
      assert (c = 0 \/ c = 1 \/ c = 2) as [-> | [-> | ->]] by lia;
        unfold read at 1; simpl; f_equal; lia.
    + rewrite (Hcells y x 3) by lia. reflexivity.
Qed.

(** The theorem at pixel (1, 1) of [tiny_image]: its green byte is 23. *)
Lemma decode_color_half_witness :
  readZ (leftPixels (decode_pixels tiny_image)) ((1 * (4 / 2) + 1) * 4 + 1)
  = readZ (png_data tiny_image) ((1 * 4 + 1) * 4 + 1).
Proof.
  refine (proj1 (decode_color_half tiny_image 1 1 1 _ _ _));
    vm_compute; split; congruence.
Defined.

(** X2. Every container of even width with at least one pixel per half
    decodes to an asset of half the width and the same height, with four
    colour bytes and one depth per pixel, every depth being 0 or positive,
    and with the statistics of that depth grid; a container of width or
    height 0 is rejected by the [ImageData] constructor at the end of the
    decode. *)
Theorem decoded_asset_shape {M : MathLib} (Blob : Type)
    (parsePng : Blob -> Outcome PngImage) (file : Blob) (img : PngImage) :
  exp_nonnegative M ->
  parsePng file = Returned img ->
  Z.rem (png_width img) 2 = 0 ->
  0 <= png_width img -> 0 <= png_height img ->
  (png_width img = 0 \/ png_height img = 0 ->
   snd (decodeRgbdeFile Blob parsePng file) = Thrown DOMException)
  /\ (png_width img <> 0 -> png_height img <> 0 ->
      exists asset,
        snd (decodeRgbdeFile Blob parsePng file) = Returned asset
        /\ asset_width asset * 2 = png_width img
        /\ asset_height asset = png_height img
        /\ 1 <= asset_width asset /\ 1 <= asset_height asset
        /\ length (asset_leftPixels asset)
           = Z.to_nat (asset_width asset * asset_height asset * 4)
        /\ length (asset_depth asset)
           = Z.to_nat (asset_width asset * asset_height asset)
        /\ (forall d, In d (asset_depth asset) -> valid_depth d)
        /\ asset_depthStats asset = computeDepthStats (asset_depth asset)).
Proof.
  intros Hexp Hparse Heven Hw Hh.
  split; [apply empty_image_throws; assumption|].
  intros Hw0 Hh0.
  assert (Hw2 : 2 <= png_width img).
  { apply Z.rem_divide in Heven; [|lia]. destruct Heven as [q Eq]. lia. }
  assert (Hh1 : 1 <= png_height img) by lia.
  destruct (decoded_asset_depth_valid Blob parsePng file img Hexp Hparse Heven
              Hw2 Hh1) as (asset & E & Hlen & Hvalid).
  exists asset. split; [exact E|].
  unfold decodeRgbdeFile in E. rewrite Hparse, Heven in E. simpl in E.
  rewrite new_ImageData_returns in E by assumption.
  injection E as <-. simpl in *.
  assert (Hhalf : png_width img / 2 * 2 = png_width img).
  { apply Z.rem_divide in Heven; [|lia]. destruct Heven as [q ->].
    rewrite Z.div_mul by lia. reflexivity. }
  split; [exact Hhalf|].
  split; [reflexivity|].
  split; [lia|]. split; [lia|].
  split; [exact (proj1 (decode_pixels_shape img))|].
  split; [exact Hlen|]. split; [exact Hvalid | reflexivity].
Qed.

(** The theorem on [tiny_image]. *)
Lemma decoded_asset_shape_witness :
  exists asset,
    snd (@decodeRgbdeFile approxMath unit (fun _ => Returned tiny_image) tt)
    = Returned asset
    /\ asset_width asset * 2 = png_width tiny_image
    /\ asset_height asset = png_height tiny_image
    /\ 1 <= asset_width asset /\ 1 <= asset_height asset
    /\ length (asset_leftPixels asset)
       = Z.to_nat (asset_width asset * asset_height asset * 4)
    /\ length (asset_depth asset)
       = Z.to_nat (asset_width asset * asset_height asset)
    /\ (forall d, In d (asset_depth asset) -> valid_depth d)
    /\ asset_depthStats asset = computeDepthStats (asset_depth asset).
Proof.
  apply (@decoded_asset_shape approxMath unit (fun _ => Returned tiny_image) tt
           tiny_image exp_approx_nonneg); vm_compute; congruence.
Defined.

(** An image of height 0 reaches the [ImageData] constructor, which
    throws. *)
Example empty_image_rejected :
  snd (@decodeRgbdeFile approxMath unit
         (fun _ => Returned {| png_width := 4; png_height := 0; png_data := [] |})
         tt)
  = Thrown DOMException.
Proof. reflexivity. Qed.

(** ** Depth statistics *)

Lemma stats_loop_inv (depth : list Q) :
  stats_inv depth (Z.of_nat (length depth))
    (for_range 0 (Z.of_nat (length depth))
       (fun i st => stats_step (readQ depth i) st) (PosInfinity, 0%Q)).
Proof.
  apply (for_range_ind (stats_inv depth)); [lia | |].
  - left. split; [reflexivity | intros; lia].
  - intros j st Hj Hinv.
    destruct (lookup_lt_is_Some_2 depth (Z.to_nat j) ltac:(lia)) as [dj Hdj].
    assert (Hread : readQ depth j = dj).
    { unfold readQ. rewrite <- (Z2Nat.id j) by lia. apply read_lookup, Hdj. }
    rewrite Hread. unfold stats_step.
    assert (Hdjin : In dj depth)
      by (apply list_elem_of_In, list_elem_of_lookup; eauto).
    assert (Hsplit : forall (k : nat), Z.of_nat k < j + 1 ->
              Z.of_nat k < j \/ k = Z.to_nat j) by (intros; lia).
    destruct (Qltb 0 dj) eqn:Hpos.
    + apply Qltb_true in Hpos. right.
      destruct Hinv as [[-> Hnone] | (m & Hm & Hmin & Hmpos & Hle & Hall)].
      * exists dj. simpl. replace (Qltb 0 dj) with true
          by (symmetry; apply Qltb_true; exact Hpos).
        split; [reflexivity|]. split; [exact Hdjin|].
        split; [exact Hpos|]. split; [lra|].
        intros k d Hk Hd Hdpos.
        destruct (Hsplit k Hk) as [Hlt | ->].
        -- pose proof (Hnone k d Hlt Hd). lra.
        -- assert (d = dj) by congruence. subst d. lra.
      * destruct st as [mn mx]. simpl in *. subst mn. simpl.
        destruct (Qltb dj m) eqn:E1; destruct (Qltb mx dj) eqn:E2;
          try apply Qltb_true in E1; try apply Qltb_false in E1;
          try apply Qltb_true in E2; try apply Qltb_false in E2.
        -- exists dj. simpl. split; [reflexivity|]. split; [exact Hdjin|].
           split; [exact Hpos|].
           split; [lra|]. intros k d Hk Hd Hdpos.
           destruct (Hsplit k Hk) as [Hlt | ->].
           ++ pose proof (Hall k d Hlt Hd Hdpos). lra.
           ++ assert (d = dj) by congruence. subst d. lra.
        -- exists dj. simpl. split; [reflexivity|]. split; [exact Hdjin|].
           split; [exact Hpos|].
           split; [lra|]. intros k d Hk Hd Hdpos.
           destruct (Hsplit k Hk) as [Hlt | ->].
           ++ pose proof (Hall k d Hlt Hd Hdpos). lra.
           ++ assert (d = dj) by congruence. subst d. lra.
        -- exists m. simpl. split; [reflexivity|]. split; [exact Hmin|].
           split; [exact Hmpos|].
           split; [lra|]. intros k d Hk Hd Hdpos.
           destruct (Hsplit k Hk) as [Hlt | ->].
           ++ pose proof (Hall k d Hlt Hd Hdpos). lra.
           ++ assert (d = dj) by congruence. subst d. lra.
        -- exists m. simpl. split; [reflexivity|]. split; [exact Hmin|].
           split; [exact Hmpos|].
           split; [lra|]. intros k d Hk Hd Hdpos.
           destruct (Hsplit k Hk) as [Hlt | ->].
           ++ pose proof (Hall k d Hlt Hd Hdpos). lra.
           ++ assert (d = dj) by congruence. subst d. lra.
    + apply Qltb_false in Hpos.
      destruct Hinv as [[-> Hnone] | (m & Hm & Hmin & Hmpos & Hle & Hall)].
      * left. split; [reflexivity|]. intros k d Hk Hd.
        destruct (Hsplit k Hk) as [Hlt | ->].
        -- exact (Hnone k d Hlt Hd).
        -- assert (d = dj) by congruence. subst d. exact Hpos.
      * right. exists m. split; [exact Hm|]. split; [exact Hmin|].
        split; [exact Hmpos|].
        split; [exact Hle|]. intros k d Hk Hd Hdpos.
        destruct (Hsplit k Hk) as [Hlt | ->].
        -- exact (Hall k d Hlt Hd Hdpos).
        -- assert (d = dj) by congruence. subst d. lra.
Qed.

(** X3. The statistics of any depth grid: the minimum is positive and at
    most the maximum, every positive depth of the grid lies between the
    two, and a grid without a positive depth gets the floor 0.15 and the
    maximum 0.15 + 1. *)
Theorem computeDepthStats_bounds (depth : list Q) :
  let s := computeDepthStats depth in
  (0 < stats_min s)%Q
  /\ (stats_min s <= stats_max s)%Q
  /\ (forall d, In d depth -> (0 < d)%Q -> (stats_min s <= d <= stats_max s)%Q)
  /\ ((forall d, In d depth -> (d <= 0)%Q) ->
      stats_min s = MIN_DEPTH_CLAMP /\ stats_max s = (MIN_DEPTH_CLAMP + 1)%Q).
Proof.
  intros s. subst s. unfold computeDepthStats.
  pose proof (stats_loop_inv depth) as Hinv.
  destruct (for_range 0 (Z.of_nat (length depth)) _ _) as [mn mx].
  destruct Hinv as [[E Hnone] | (m & Hm & Hmin & Hmpos & Hle & Hall)].
  - injection E as -> ->. simpl.
    split; [unfold MIN_DEPTH_CLAMP; lra|].
    split; [lra|]. split.
    + intros d Hin Hd.
      apply list_elem_of_In, list_elem_of_lookup in Hin as [k Hk].
      pose proof (Hnone k d ltac:(apply lookup_lt_Some in Hk; lia) Hk). lra.
    + intros _. split; reflexivity.
  - simpl in Hm, Hle. subst mn. simpl.
    assert (Hmx : Qleb mx 0 = false) by (apply Qleb_false; lra).
    rewrite Hmx. simpl.
    split; [exact Hmpos|]. split; [exact Hle|]. split.
    + intros d Hin Hd.
      apply list_elem_of_In, list_elem_of_lookup in Hin as [k Hk].
      apply (Hall k d); [apply lookup_lt_Some in Hk; lia | exact Hk | exact Hd].
    + intros Hnonpos. pose proof (Hnonpos m Hmin). lra.
Qed.

(** ** The denoiser on flat and on bounded grids *)

Lemma clampIndex_range (value size : Z) :
  1 <= size -> 0 <= clampIndex value size < size.
Proof.
  intros Hs. unfold clampIndex.
  destruct (Z.ltb_spec value 0); [lia|].
  destruct (Z.geb_spec value size); lia.
Qed.

Section FlatGrid.
Context {M : MathLib}.

(** The window is the list of the nine clamped neighbours. *)
Lemma window3x3_nine (depth : list Q) (width height x y : Z) :
  window3x3 depth width height x y
  = map (fun k : Z * Z =>
           readQ depth (clampIndex (y + fst k) height * width
                        + clampIndex (x + snd k) width))
      [(-1, -1); (-1, 0); (-1, 1); (0, -1); (0, 0); (0, 1);
       (1, -1); (1, 0); (1, 1)].
Proof. reflexivity. Qed.

(** Inside the grid, the window holds nine samples of the grid: the
    clamped neighbour coordinates never leave it. *)
Lemma window3x3_in_grid (depth : list Q) (width height x y : Z) :
  1 <= width -> 1 <= height ->
  length depth = Z.to_nat (width * height) ->
  length (window3x3 depth width height x y) = 9%nat
  /\ forall v, In v (window3x3 depth width height x y) -> In v depth.
Proof.
  intros Hw Hh Hlen. rewrite window3x3_nine. split; [reflexivity|].
  intros v Hin. apply in_map_iff in Hin as ((ky & kx) & <- & _).
  unfold readQ. apply read_in_range.
  pose proof (clampIndex_range (y + ky) height Hh).
  pose proof (clampIndex_range (x + kx) width Hw).
  simpl. rewrite Hlen. nia.
Qed.

Lemma median_in_grid (depth : list Q) (width height x y : Z) :
  1 <= width -> 1 <= height ->
  length depth = Z.to_nat (width * height) ->
  In (median_of (window3x3 depth width height x y)) depth.
Proof.
  intros Hw Hh Hlen.
  destruct (window3x3_in_grid depth width height x y Hw Hh Hlen) as [H9 Hin].
  apply Hin, In_sort_numeric. unfold median_of, readQ.
  apply read_in_range. rewrite length_sort_numeric, H9.
  vm_compute. split; congruence.
Qed.

(** Pass A leaves a grid of one depth as it is. *)
Lemma reduceDepthSpikes_flat (depth : list Q) (colors : list Z)
    (width height : Z) (d : Q) :
  length depth = Z.to_nat (width * height) ->
  (forall v, In v depth -> v = d) ->
  reduceDepthSpikes depth colors width height = depth.
Proof.
  intros Hlen Hall. unfold reduceDepthSpikes.
  apply (for_range_inv (fun r => r = depth)); [reflexivity|].
  intros y r Hy ->.
  apply (for_range_inv (fun r => r = depth)); [reflexivity|].
  intros x r Hx ->.
  unfold reduceDepthSpikes_pixel.
  destruct (Qleb (readQ depth (y * width + x)) 0); [reflexivity|].
  assert (Hc : readQ depth (y * width + x) = d).
  { apply Hall. unfold readQ. apply read_in_range. rewrite Hlen. nia. }
  assert (Hm : median_of (window3x3 depth width height x y) = d)
    by (apply Hall, median_in_grid; [lia | lia | exact Hlen]).
  rewrite Hc, Hm.
  assert (Hnear : Qleb (Qabs (d - d)) DEPTH_SPIKE_THRESHOLD = true).
  { apply Qleb_true, Qabs_Qle_condition. unfold DEPTH_SPIKE_THRESHOLD.
    split; lra. }
  rewrite Hnear. reflexivity.
Qed.

(** On a grid of one depth the weighted sum is that depth times the sum
    of the weights, whatever the colours and the weights are. *)
Lemma smooth_weights_flat (depth : list Q) (colors : list Z)
    (width height x y : Z) (center cr cg cb d : Q) :
  (forall ky kx, readQ depth (clampIndex (y + ky) height * width
                              + clampIndex (x + kx) width) = d) ->
  let st := smooth_weights depth colors width height x y center cr cg cb in
  (accum st == d * weightSum st)%Q.
Proof.
  intros Hn. unfold smooth_weights.
  apply (for_range_inv (fun st => (accum st == d * weightSum st)%Q)).
  - simpl. ring.
  - intros ky st _ Hst.
    apply (for_range_inv (fun st => (accum st == d * weightSum st)%Q));
      [exact Hst|].
    intros kx st' _ Hst'. cbv zeta. simpl accum. simpl weightSum.
    rewrite (Hn ky kx), Hst'. ring.
Qed.

(** X4. A grid that holds one depth everywhere is a fixed point of the
    denoiser, whatever the colours: pass A returns it unchanged and every
    value pass B stores equals that depth. *)
Theorem denoiser_flat_fixed_point (depth : list Q) (colors : list Z)
    (width height : Z) (d : Q) :
  0 <= width -> 0 <= height ->
  length depth = Z.to_nat (width * height) ->
  (forall v, In v depth -> v = d) ->
  reduceDepthSpikes depth colors width height = depth
  /\ length (preprocessDepth depth colors width height) = length depth
  /\ forall v, In v (preprocessDepth depth colors width height) -> (v == d)%Q.
Proof.
  intros Hw Hh Hlen Hall.
  pose proof (reduceDepthSpikes_flat depth colors width height d Hlen Hall) as HA.
  split; [exact HA|]. unfold preprocessDepth. rewrite HA.
  destruct (applyEdgeAwareSmooth_spec depth colors width height Hw Hh Hlen)
    as [HlenB HB].
  split; [exact HlenB|].
  intros v Hin. apply list_elem_of_In, list_elem_of_lookup in Hin as [k Hk].
  assert (Hlt : (k < length depth)%nat).
  { rewrite <- HlenB. apply lookup_lt_is_Some. eauto. }
  rewrite (HB k Hlt) in Hk. injection Hk as <-.
  assert (Hpos : 0 < width) by nia.
  pose proof (Z.mod_pos_bound (Z.of_nat k) width Hpos) as Hmod.
  assert (Hdiv : 0 <= Z.of_nat k / width < height).
  { split; [apply Z.div_pos; lia|]. apply Z.div_lt_upper_bound; nia. }
  set (y := Z.of_nat k / width) in *. set (x := Z.of_nat k mod width) in *.
  unfold smoothed_value.
  assert (Hc : readQ depth (y * width + x) = d).
  { apply Hall. unfold readQ. apply read_in_range. rewrite Hlen. nia. }
  rewrite Hc.
  destruct (Qleb d 0); [reflexivity|].
  match goal with
  | |- context [smooth_weights ?dp ?c ?w ?h ?x ?y ?ce ?cr ?cg ?cb] =>
      pose proof (smooth_weights_flat dp c w h x y ce cr cg cb d) as Hflat;
      set (st := smooth_weights dp c w h x y ce cr cg cb) in *
  end.
  assert (Hacc : (accum st == d * weightSum st)%Q).
  { apply Hflat.
    intros ky kx. apply Hall.
    { unfold readQ. apply read_in_range.
      pose proof (clampIndex_range (y + ky) height ltac:(lia)).
      pose proof (clampIndex_range (x + kx) width ltac:(lia)).
      rewrite Hlen. nia. } }
  destruct (Qltb 0 (weightSum st)) eqn:Hws.
  - apply Qltb_true in Hws.
    assert (E : (accum st / weightSum st == d)%Q)
      by (rewrite Hacc; field; lra).
    rewrite E. ring.
  - ring.
Qed.

Hypothesis exp_nonneg : exp_nonnegative M.

(** The weighted sum of pass B is at most the bound of the grid times the
    sum of the weights. *)
Lemma smooth_weights_bounded (depth : list Q) (colors : list Z)
    (width height x y : Z) (center cr cg cb hi : Q) :
  (forall i, 0 <= readQ depth i <= hi)%Q ->
  let st := smooth_weights depth colors width height x y center cr cg cb in
  (accum st <= hi * weightSum st)%Q.
Proof.
  intros Hgrid. unfold smooth_weights.
  apply (for_range_inv (fun st => (accum st <= hi * weightSum st)%Q)).
  - simpl. lra.
  - intros ky st _ Hst.
    apply (for_range_inv (fun st => (accum st <= hi * weightSum st)%Q));
      [exact Hst|].
    intros kx st' _ Hst'. cbv zeta. simpl accum. simpl weightSum.
    match goal with
    | |- (_ + ?n * (?s * ?dw * ?cw) <= _)%Q =>
        assert (Hweight : (0 <= s * dw * cw)%Q)
          by (apply Qmult_le_0_compat;
              [apply Qmult_le_0_compat; [apply kernel_nonneg | apply exp_nonneg]
              | apply exp_nonneg]);
        pose proof (Hgrid (clampIndex (y + ky) height * width
                           + clampIndex (x + kx) width)) as Hn;
        set (wt := (s * dw * cw)%Q) in *;
        set (nb := n) in *
    end.
    assert (Hprod : (nb * wt <= hi * wt)%Q).
    { apply Qmult_le_compat_r; [apply Hn | exact Hweight]. }
    lra.
Qed.

Lemma smoothed_value_bounded (depth : list Q) (colors : list Z)
    (width height y x : Z) (hi : Q) :
  (forall i, 0 <= readQ depth i <= hi)%Q ->
  (0 <= smoothed_value depth colors width height y x <= hi)%Q.
Proof.
  intros Hgrid.
  assert (Hlow : (0 <= smoothed_value depth colors width height y x)%Q).
  { destruct (smoothed_value_valid exp_nonneg depth colors width height y x)
      as [E|Hpos]; [intros i; apply Hgrid | lra | lra]. }
  split; [exact Hlow|].
  unfold smoothed_value.
  pose proof (Hgrid (y * width + x)) as Hc.
  set (center := readQ depth (y * width + x)) in *.
  destruct (Qleb center 0); [apply Hc|].
  match goal with
  | |- context [smooth_weights ?d ?c ?w ?h ?x ?y ?ce ?cr ?cg ?cb] =>
      pose proof (smooth_weights_bounded d c w h x y ce cr cg cb hi Hgrid) as Hb;
      set (st := smooth_weights d c w h x y ce cr cg cb) in *
  end.
  unfold SMOOTH_BLEND. cbv zeta in Hb.
  destruct (Qltb 0 (weightSum st)) eqn:Hws.
  - apply Qltb_true in Hws.
    assert (Hq : (accum st / weightSum st <= hi)%Q).
    { apply Qle_shift_div_r; [exact Hws | exact Hb]. }
    lra.
  - lra.
Qed.

(** X5. The denoiser never widens the depth range: if every depth of the
    grid lies in [0, hi], so does every depth after both passes. *)
Theorem denoiser_range (depth : list Q) (colors : list Z)
    (width height : Z) (hi : Q) :
  0 <= width -> 0 <= height ->
  length depth = Z.to_nat (width * height) ->
  (0 <= hi)%Q ->
  (forall v, In v depth -> (0 <= v <= hi)%Q) ->
  forall v, In v (preprocessDepth depth colors width height) ->
            (0 <= v <= hi)%Q.
Proof.
  intros Hw Hh Hlen Hhi Hgrid v Hin. unfold preprocessDepth in Hin.
  destruct (reduceDepthSpikes_inv depth colors width height)
    as (HlenA & HfromA & _).
  set (spikeReduced := reduceDepthSpikes depth colors width height) in *.
  assert (HreadA : forall i, (0 <= readQ spikeReduced i <= hi)%Q).
  { intros i. destruct (readQ_from_grid spikeReduced i) as [->|Hi]; [lra|].
    destruct (HfromA _ Hi) as [->|Hi']; [lra | apply Hgrid, Hi']. }
  assert (HlenA' : length spikeReduced = Z.to_nat (width * height)) by congruence.
  destruct (applyEdgeAwareSmooth_spec spikeReduced colors width height Hw Hh HlenA')
    as [HlenB HB].
  apply list_elem_of_In, list_elem_of_lookup in Hin as [k Hk].
  assert (Hlt : (k < length spikeReduced)%nat).
  { rewrite <- HlenB. apply lookup_lt_is_Some. eauto. }
  rewrite (HB k Hlt) in Hk. injection Hk as <-.
  apply smoothed_value_bounded, HreadA.
Qed.

End FlatGrid.

(** The theorem on a 2x2 grid of depth 5. *)
Lemma denoiser_flat_fixed_point_witness :
  @reduceDepthSpikes approxMath [5; 5; 5; 5]%Q tiny_colors 2 2 = [5; 5; 5; 5]%Q.
Proof.
  refine (proj1 (@denoiser_flat_fixed_point approxMath [5; 5; 5; 5]%Q
                   tiny_colors 2 2 5 _ _ _ _)); try (vm_compute; congruence).
  intros v Hv. simpl in Hv.
  repeat (destruct Hv as [<-|Hv]; [reflexivity|]). contradiction.
Defined.

(** The theorem on [tiny_depth], whose depths lie in [0, 2]. *)
Lemma denoiser_range_witness :
  Forall (fun v => (0 <= v <= 2)%Q)
    (@preprocessDepth approxMath tiny_depth tiny_colors 2 2).
Proof.
  apply List.Forall_forall.
  refine (@denoiser_range approxMath exp_approx_nonneg tiny_depth tiny_colors
            2 2 2 _ _ _ _ _); try (vm_compute; congruence).
  intros v Hv. simpl in Hv.
  repeat (destruct Hv as [<-|Hv]; [split; vm_compute; congruence|]).
  contradiction.
Defined.

(** ** Bilinear sampling stays inside the grid *)

Lemma floor_ceiling (x : Q) : Qfloor x <= Qceiling x <= Qfloor x + 1.
Proof.
  pose proof (Qfloor_le x) as H1. pose proof (Qle_ceiling x) as H2.
  pose proof (Qlt_floor x) as H3. pose proof (Qceiling_lt x) as H4.
  split.
  - rewrite Zle_Qle. lra.
  - assert (Qceiling x - 1 < Qfloor x + 1); [|lia].
    rewrite Zlt_Qlt. lra.
Qed.

(** Along one axis the two clamped coordinates coincide, or the
    interpolation parameter lies in [0, 1]. *)
Lemma sample_axis (size : Z) (x : Q) :
  1 <= size ->
  clampCoord size (Qfloor x) = clampCoord size (Qceiling x)
  \/ (0 <= x - inject_Z (clampCoord size (Qfloor x)) <= 1)%Q.
Proof.
  intros Hs. pose proof (floor_ceiling x) as Hfc.
  unfold clampCoord.
  destruct (Z_lt_dec (Qfloor x) 0) as [Hneg|Hnn]; [left; lia|].
  destruct (Z_le_dec (size - 1) (Qfloor x)) as [Hbig|Hin]; [left; lia|].
  right. replace (Z.max 0 (Z.min (size - 1) (Qfloor x))) with (Qfloor x) by lia.
  pose proof (Qfloor_le x) as H1. pose proof (Qlt_floor x) as H3.
  rewrite inject_Z_plus in H3. change (inject_Z 1) with 1%Q in H3. lra.
Qed.

(** A linear interpolation between two values of an interval stays in it
    when the parameter is in [0, 1] or the two values are the same. *)
Lemma lerp_bounds (a b t lo hi : Q) :
  (lo <= a <= hi)%Q -> (lo <= b <= hi)%Q ->
  a = b \/ (0 <= t <= 1)%Q ->
  (lo <= a + (b - a) * t <= hi)%Q.
Proof.
  intros Ha Hb [<-|Ht].
  - assert (E : (a + (a - a) * t == a)%Q) by ring.
    rewrite E. exact Ha.
  - assert (E : (a + (b - a) * t == (1 - t) * a + t * b)%Q) by ring.
    rewrite E. split; nra.
Qed.

Lemma bilinearValue_bounds (depth : list Q) (width height : Z) (x y lo hi : Q) :
  1 <= width -> 1 <= height ->
  length depth = Z.to_nat (width * height) ->
  (forall v, In v depth -> (lo <= v <= hi)%Q) ->
  (lo <= bilinearValue depth width height x y <= hi)%Q.
Proof.
  intros Hw Hh Hlen Hgrid.
  assert (Hread : forall q p : Z,
            (lo <= readQ depth (clampCoord height q * width + clampCoord width p)
             <= hi)%Q).
  { intros q p. apply Hgrid. unfold readQ. apply read_in_range.
    pose proof (clampCoord_range width p Hw).
    pose proof (clampCoord_range height q Hh).
    rewrite Hlen. nia. }
  unfold bilinearValue.
  destruct (sample_axis width x Hw) as [Ex|Htx];
    destruct (sample_axis height y Hh) as [Ey|Hty].
  - rewrite <- Ex, <- Ey.
    apply lerp_bounds; [| |left; reflexivity];
      (apply lerp_bounds; [apply Hread | apply Hread | left; reflexivity]).
  - rewrite <- Ex.
    apply lerp_bounds; [| |right; exact Hty];
      (apply lerp_bounds; [apply Hread | apply Hread | left; reflexivity]).
  - rewrite <- Ey.
    apply lerp_bounds; [| |left; reflexivity];
      (apply lerp_bounds; [apply Hread | apply Hread | right; exact Htx]).
  - apply lerp_bounds; [| |right; exact Hty];
      (apply lerp_bounds; [apply Hread | apply Hread | right; exact Htx]).
Qed.

(** The sample is positive as soon as the fallback is. *)
Lemma sampleDepth_positive (depth : list Q) (width height : Z) (x y fallback : Q) :
  (0 < fallback)%Q -> (0 < sampleDepth depth width height x y fallback)%Q.
Proof.
  intros Hf. rewrite sampleDepth_unfold.
  destruct (Qltb 0 (bilinearValue depth width height x y)) eqn:E.
  - apply Qltb_true, E.
  - pose proof (Q.le_max_r (topLeftSample depth width height x y) fallback). lra.
Qed.

(** X6. [sampleDepth] never extrapolates: on a grid whose depths all lie
    in [lo, hi] with [lo] positive, the sample at any coordinates, inside
    the image or not, lies in [lo, hi]; with a positive fallback the
    sample is positive and at most [max(hi, fallback)], whatever the grid
    holds. *)
Theorem sampleDepth_bounds (depth : list Q) (width height : Z)
    (x y fallback lo hi : Q) :
  1 <= width -> 1 <= height ->
  length depth = Z.to_nat (width * height) ->
  (forall v, In v depth -> (lo <= v <= hi)%Q) ->
  let result := sampleDepth depth width height x y fallback in
  ((0 < lo)%Q -> (lo <= result <= hi)%Q)
  /\ ((0 < fallback)%Q -> (0 < result <= Qmax hi fallback)%Q).
Proof.
  intros Hw Hh Hlen Hgrid result.
  pose proof (bilinearValue_bounds depth width height x y lo hi Hw Hh Hlen Hgrid)
    as Hv.
  assert (Hd00 : (lo <= topLeftSample depth width height x y <= hi)%Q).
  { apply Hgrid. unfold topLeftSample, readQ. apply read_in_range.
    pose proof (clampCoord_range width (Qfloor x) Hw).
    pose proof (clampCoord_range height (Qfloor y) Hh).
    rewrite Hlen. nia. }
  subst result. split.
  - intros Hlo. rewrite sampleDepth_unfold.
    destruct (Qltb 0 (bilinearValue depth width height x y)) eqn:E;
      [exact Hv|].
    apply Qltb_false in E. lra.
  - intros Hf. split; [apply sampleDepth_positive, Hf|].
    rewrite sampleDepth_unfold.
    destruct (Qltb 0 (bilinearValue depth width height x y)) eqn:E.
    + pose proof (Q.le_max_l hi fallback). lra.
    + apply Q.max_le_compat_r. apply Hd00.
Qed.

(** The theorem on [tiny_depth], whose depths lie in [0, 2], sampled at
    the centre of the grid. *)
Lemma sampleDepth_bounds_witness :
  (0 < sampleDepth tiny_depth 2 2 (1 # 2) (1 # 2) (3 # 20)
   <= Qmax 2 (3 # 20))%Q.
Proof.
  refine (proj2 (sampleDepth_bounds tiny_depth 2 2 (1 # 2) (1 # 2) (3 # 20) 0 2
                   _ _ _ _) _); try (vm_compute; congruence).
  intros v Hv. simpl in Hv.
  repeat (destruct Hv as [<-|Hv]; [split; vm_compute; congruence|]).
  contradiction.
Defined.

(** ** The arrays the vertex loop fills *)

(** A loop nest that stores one block of [k] values per step, at the
    running index: cell [(y, x)] ends up in block [y * W + x]. *)
Lemma grid_fill {S A : Type} (d : A) (get : S -> list A) (idx : S -> Z)
    (body : Z -> Z -> S -> S) (k W H : Z) (vals : Z -> Z -> list A) (s : S) :
  0 <= k -> 0 <= W -> 0 <= H ->
  idx s = 0 ->
  Z.of_nat (length (get s)) = W * H * k ->
  (forall y x, Z.of_nat (length (vals y x)) = k) ->
  (forall y x t,
     idx (body y x t) = idx t + 1
     /\ get (body y x t) = write_block (get t) (idx t * k) (vals y x)) ->
  let s' := for_range 0 H (fun y t => for_range 0 W (body y) t) s in
  idx s' = H * W
  /\ length (get s') = length (get s)
  /\ (forall y x c, 0 <= y < H -> 0 <= x < W -> 0 <= c < k ->
        read d (get s') ((y * W + x) * k + c) = read d (vals y x) c).
Proof.
  intros Hk HW HH Hidx Hlen Hvals Hbody.
  apply (fill_rows d get (fun y t => idx t = y * W)
           (fun y t => for_range 0 W (body y) t) k W H vals s);
    [exact Hk | exact HW | exact HH | lia |].
  intros y t Hy HJ Hl.
  destruct (fill_row d get (fun x t' => idx t' = y * W + x) (body y)
              (y * W * k) k W (vals y) t) as (HI & Hl' & Hcells & Hrest);
    [exact Hk | exact HW | nia | rewrite Hl; nia
    | intros; apply Hvals | lia | |].
  - intros x t' Hx HIx. destruct (Hbody y x t') as [E1 E2].
    split; [lia|]. rewrite E2, HIx. f_equal. ring.
  - split; [lia|]. split; [exact Hl'|]. split.
    + intros x c Hx Hc.
      replace ((y * W + x) * k + c) with (y * W * k + x * k + c) by ring.
      apply Hcells; assumption.
    + intros i Hi. apply Hrest. nia.
Qed.

Section VertexLoop.
Context {M : MathLib}.

(** What one vertex step stores, array by array. *)
Lemma vertex_body_stores (bufs : Buffers) (depth : list Q)
    (width height meshX meshY : Z) (depthMin tanHalfX tanHalfY : Q)
    (lat lon : Z) (st : VertexState) :
  NoDup [b_positions bufs; b_rayDirections bufs; b_baseDepths bufs; b_uvs bufs] ->
  let st' := vertex_body bufs depth width height meshX meshY depthMin
               tanHalfX tanHalfY lat lon st in
  let i := vs_index st in
  let z := readQ (vertex_position tanHalfX tanHalfY depth width height
                    meshX meshY depthMin lat lon) 2 in
  vs_index st' = i + 1
  /\ f32 (vs_heap st') (b_positions bufs)
     = write_block (f32 (vs_heap st) (b_positions bufs)) (i * 3)
         (fround <$> vertex_position tanHalfX tanHalfY depth width height
                       meshX meshY depthMin lat lon)
  /\ f32 (vs_heap st') (b_rayDirections bufs)
     = write_block (f32 (vs_heap st) (b_rayDirections bufs)) (i * 3)
         (fround <$> vertex_ray tanHalfX tanHalfY meshX meshY lat lon)
  /\ f32 (vs_heap st') (b_baseDepths bufs)
     = write_block (f32 (vs_heap st) (b_baseDepths bufs)) (i * 1)
         [fround (vertex_depth depth width height meshX meshY depthMin lat lon)]
  /\ f32 (vs_heap st') (b_uvs bufs)
     = write_block (f32 (vs_heap st) (b_uvs bufs)) (i * 2)
         (fround <$> vertex_uv width meshX meshY lat lon)
  /\ vs_baseMinZ st'
     = (if lt_number z (vs_baseMinZ st) then Num z else vs_baseMinZ st)
  /\ vs_baseMaxZ st'
     = (if gt_number z (vs_baseMaxZ st) then Num z else vs_baseMaxZ st).
Proof.
  intros Hnd.
  apply NoDup_cons in Hnd as [Hp Hnd]. apply NoDup_cons in Hnd as [Hr Hnd].
  apply NoDup_cons in Hnd as [Hb _].
  rewrite !not_elem_of_cons in Hp. rewrite !not_elem_of_cons in Hr.
  rewrite !not_elem_of_cons in Hb.
  destruct Hp as (Hpr & Hpb & Hpu & _). destruct Hr as (Hrb & Hru & _).
  destruct Hb as (Hbu & _).
  assert (Hrp : b_rayDirections bufs <> b_positions bufs) by congruence.
  assert (Hbp : b_baseDepths bufs <> b_positions bufs) by congruence.
  assert (Hup : b_uvs bufs <> b_positions bufs) by congruence.
  assert (Hbr : b_baseDepths bufs <> b_rayDirections bufs) by congruence.
  assert (Hur : b_uvs bufs <> b_rayDirections bufs) by congruence.
  assert (Hub : b_uvs bufs <> b_baseDepths bufs) by congruence.
  unfold vertex_body, vertex_position, vertex_ray, vertex_uv, vertex_depth,
    vertex_dir, vertex_pixelX, vertex_pixelY.
  destruct (normalize3 _ _ _) as [[d0 d1] d2]. cbv zeta. simpl vs_index.
  simpl vs_heap. simpl vs_baseMinZ. simpl vs_baseMaxZ.
  split; [reflexivity|].
  split; [|split; [|split; [|split]]];
    repeat first [rewrite f32_store_f32
                 | rewrite f32_store_f32_ne by assumption].
  - apply write_block_3.
  - apply write_block_3.
  - rewrite Z.mul_1_r. reflexivity.
  - apply write_block_2.
  - split; reflexivity.
Qed.

(** The four float arrays after the vertex loop: vertex
    [lat * (meshX + 1) + lon] holds the numbers computed for row [lat] and
    column [lon]. *)
Lemma vertex_loop_arrays (bufs : Buffers) (depth : list Q)
    (width height meshX meshY : Z) (depthMin tanHalfX tanHalfY : Q) (h : Heap) :
  0 <= meshX -> 0 <= meshY ->
  NoDup [b_positions bufs; b_rayDirections bufs; b_baseDepths bufs; b_uvs bufs] ->
  Z.of_nat (length (f32 h (b_positions bufs))) = (meshX + 1) * (meshY + 1) * 3 ->
  Z.of_nat (length (f32 h (b_rayDirections bufs))) = (meshX + 1) * (meshY + 1) * 3 ->
  Z.of_nat (length (f32 h (b_baseDepths bufs))) = (meshX + 1) * (meshY + 1) * 1 ->
  Z.of_nat (length (f32 h (b_uvs bufs))) = (meshX + 1) * (meshY + 1) * 2 ->
  let h' := vs_heap (vertex_loop bufs depth width height meshX meshY depthMin
                       tanHalfX tanHalfY h) in
  forall lat lon, 0 <= lat <= meshY -> 0 <= lon <= meshX ->
    let i := lat * (meshX + 1) + lon in
    (forall c, 0 <= c < 3 ->
       readQ (f32 h' (b_positions bufs)) (i * 3 + c)
       = fround (readQ (vertex_position tanHalfX tanHalfY depth width height
                          meshX meshY depthMin lat lon) c))
    /\ (forall c, 0 <= c < 3 ->
          readQ (f32 h' (b_rayDirections bufs)) (i * 3 + c)
          = fround (readQ (vertex_ray tanHalfX tanHalfY meshX meshY lat lon) c))
    /\ readQ (f32 h' (b_baseDepths bufs)) i
       = fround (vertex_depth depth width height meshX meshY depthMin lat lon)
    /\ (forall c, 0 <= c < 2 ->
          readQ (f32 h' (b_uvs bufs)) (i * 2 + c)
          = fround (readQ (vertex_uv width meshX meshY lat lon) c)).
Proof.
  intros Hx Hy Hnd Hlp Hlr Hlb Hlu h' lat lon Hlat Hlon i.
  pose (body := fun y x t =>
    vertex_body bufs depth width height meshX meshY depthMin tanHalfX tanHalfY
      y x t).
  pose (s0 := {| vs_heap := h; vs_index := 0;
                 vs_baseMinZ := PosInfinity; vs_baseMaxZ := NegInfinity |}).
  assert (Hfill : forall (r : ref) (k : Z) (vals : Z -> Z -> list Q),
            0 <= k ->
            Z.of_nat (length (f32 h r)) = (meshX + 1) * (meshY + 1) * k ->
            (forall y x, Z.of_nat (length (vals y x)) = k) ->
            (forall y x t,
               f32 (vs_heap (body y x t)) r
               = write_block (f32 (vs_heap t) r) (vs_index t * k) (vals y x)) ->
            forall c, 0 <= c < k ->
              readQ (f32 h' r) (i * k + c) = readQ (vals lat lon) c).
  { intros r k vals Hk Hlen Hvals Hstep c Hc.
    destruct (grid_fill 0%Q (fun t => f32 (vs_heap t) r) vs_index body
                k (meshX + 1) (meshY + 1) vals s0) as (_ & _ & Hcells);
      [exact Hk | lia | lia | reflexivity | exact Hlen | exact Hvals | |].
    - intros y x t. split; [|apply Hstep].
      apply (vertex_body_stores bufs depth width height meshX meshY depthMin
               tanHalfX tanHalfY y x t Hnd).
    - apply Hcells; lia. }
  pose proof (fun y x t =>
    vertex_body_stores bufs depth width height meshX meshY depthMin
      tanHalfX tanHalfY y x t Hnd) as Hst.
  cbv zeta in Hst.
  split; [|split; [|split]].
  - intros c Hc. rewrite <- readQ_fround. revert c Hc.
    apply (Hfill _ 3 (fun y x => fround <$> vertex_position tanHalfX tanHalfY
                                   depth width height meshX meshY depthMin y x));
      [lia | exact Hlp | | intros y x t; apply Hst].
    intros y x. unfold vertex_position.
    destruct (vertex_dir _ _ _ _ _ _) as [[d0 d1] d2]. reflexivity.
  - intros c Hc. rewrite <- readQ_fround. revert c Hc.
    apply (Hfill _ 3 (fun y x => fround <$> vertex_ray tanHalfX tanHalfY
                                   meshX meshY y x));
      [lia | exact Hlr | | intros y x t; apply Hst].
    intros y x. unfold vertex_ray.
    destruct (vertex_dir _ _ _ _ _ _) as [[d0 d1] d2]. reflexivity.
  - pose proof (Hfill _ 1 (fun y x => [fround (vertex_depth depth width height
                                                 meshX meshY depthMin y x)])
                  ltac:(lia) Hlb ltac:(reflexivity)
                  ltac:(intros y x t; apply Hst) 0 ltac:(lia)) as E.
    replace (i * 1 + 0) with i in E by lia. exact E.
  - intros c Hc. rewrite <- readQ_fround. revert c Hc.
    apply (Hfill _ 2 (fun y x => fround <$> vertex_uv width meshX meshY y x));
      [lia | exact Hlu | reflexivity | intros y x t; apply Hst].
Qed.

(** The triangle loop stores into the index array only. *)
Lemma triangle_loop_f32 (ind : ref) (meshX meshY : Z) (h : Heap) (r : ref) :
  f32 (triangle_loop ind meshX meshY h).1 r = f32 h r.
Proof.
  apply (triangle_loop_inv (fun st => f32 st.1 r = f32 h r)); [reflexivity|].
  intros lat lon [t tri] _ _ Hst. unfold triangle_body. simpl in *.
  rewrite !f32_store_u32. exact Hst.
Qed.

End VertexLoop.

Section GeneratedMesh.
Context {M : MathLib}.

(** The run of [generatePerspectiveMesh] on a tessellation without
    negative sides: allocation, vertex loop, triangle loop. *)
Lemma generatePerspectiveMesh_run (h : Heap) (depth : list Q)
    (width height meshX meshY : Z) (depthMin depthMax : Q)
    (centerZ fovDegrees : option Q) :
  0 <= meshX -> 0 <= meshY ->
  exists (tanHalfX tanHalfY : Q),
    let ab := allocate_buffers h ((meshX + 1) * (meshY + 1)) (meshX * meshY * 6) in
    let vst := vertex_loop ab.2 depth width height meshX meshY depthMin
                 tanHalfX tanHalfY ab.1 in
    let tl := triangle_loop (b_indices ab.2) meshX meshY (vs_heap vst) in
    generatePerspectiveMesh h depth width height meshX meshY depthMin depthMax
      centerZ fovDegrees
    = Returned
        (tl.1,
         {| positions := b_positions ab.2; rayDirections := b_rayDirections ab.2;
            baseDepths := b_baseDepths ab.2; uvs := b_uvs ab.2;
            indices := b_indices ab.2;
            vertexCount := (meshX + 1) * (meshY + 1);
            indexCount := Z.of_nat (length (u32 tl.1 (b_indices ab.2)));
            baseDepthMin := Qmax depthMin MIN_DEPTH_CLAMP;
            baseDepthMax := depthMax;
            mesh_meshX := meshX; mesh_meshY := meshY;
            mesh_baseMinZ := vs_baseMinZ vst;
            mesh_baseMaxZ := vs_baseMaxZ vst |}).
Proof.
  intros Hx Hy. unfold generatePerspectiveMesh.
  replace (((meshX + 1) * (meshY + 1) <? 0) || (meshX * meshY * 6 <? 0))
    with false
    by (symmetry; apply orb_false_intro; apply Z.ltb_ge; nia).
  destruct (allocate_buffers h ((meshX + 1) * (meshY + 1)) (meshX * meshY * 6))
    as [h5 bufs].
  match goal with
  | |- context [vertex_loop bufs depth width height meshX meshY depthMin ?tx ?ty h5] =>
      exists tx, ty
  end.
  cbv zeta. simpl fst. simpl snd.
  destruct (triangle_loop _ _ _ _) as [h6 tri]. reflexivity.
Qed.

(** The numbers a new mesh holds for the vertex in row [lat] and column
    [lon]. *)
Lemma generatePerspectiveMesh_vertices (h : Heap) (depth : list Q)
    (width height meshX meshY : Z) (depthMin depthMax : Q)
    (centerZ fovDegrees : option Q) :
  0 <= meshX -> 0 <= meshY ->
  exists (h' : Heap) (mesh : Mesh) (tanHalfX tanHalfY : Q),
    generatePerspectiveMesh h depth width height meshX meshY depthMin depthMax
      centerZ fovDegrees = Returned (h', mesh)
    /\ vertexCount mesh = (meshX + 1) * (meshY + 1)
    /\ forall lat lon, 0 <= lat <= meshY -> 0 <= lon <= meshX ->
         let i := lat * (meshX + 1) + lon in
         (forall c, 0 <= c < 3 ->
            position_of h' mesh i c
            = fround (readQ (vertex_position tanHalfX tanHalfY depth width
                               height meshX meshY depthMin lat lon) c))
         /\ (forall c, 0 <= c < 3 ->
               ray_of h' mesh i c
               = fround (readQ (vertex_ray tanHalfX tanHalfY meshX meshY lat lon)
                           c))
         /\ baseDepth_of h' mesh i
            = fround (vertex_depth depth width height meshX meshY depthMin
                        lat lon)
         /\ (forall c, 0 <= c < 2 ->
               uv_of h' mesh i c
               = fround (readQ (vertex_uv width meshX meshY lat lon) c)).
Proof.
  intros Hx Hy.
  destruct (generatePerspectiveMesh_run h depth width height meshX meshY
              depthMin depthMax centerZ fovDegrees Hx Hy) as (tx & ty & E).
  cbv zeta in E.
  pose proof (allocate_buffers_spec h ((meshX + 1) * (meshY + 1))
                (meshX * meshY * 6)) as Hspec.
  cbv zeta in Hspec.
  destruct (allocate_buffers h ((meshX + 1) * (meshY + 1)) (meshX * meshY * 6))
    as [h5 bufs].
  simpl fst in *. simpl snd in *.
  destruct Hspec as (Hnd & Hp & Hr & Hb & Hu & _).
  eexists _, _, tx, ty. split; [exact E|]. split; [reflexivity|].
  intros lat lon Hlat Hlon.
  unfold position_of, ray_of, baseDepth_of, uv_of. simpl.
  rewrite !triangle_loop_f32.
  apply vertex_loop_arrays; try assumption.
  - apply NoDup_cons. split.
    + apply NoDup_cons in Hnd as [Hnotin _].
      rewrite !not_elem_of_cons in Hnotin. rewrite !not_elem_of_cons.
      intuition congruence.
    + apply NoDup_cons in Hnd as [_ Hnd]. apply NoDup_cons. split.
      * apply NoDup_cons in Hnd as [Hnotin _].
        rewrite !not_elem_of_cons in Hnotin. rewrite !not_elem_of_cons.
        intuition congruence.
      * apply NoDup_cons in Hnd as [_ Hnd]. apply NoDup_cons. split.
        -- apply NoDup_cons in Hnd as [Hnotin _].
           rewrite !not_elem_of_cons in Hnotin. rewrite !not_elem_of_cons.
           intuition congruence.
        -- apply NoDup_singleton.
  - unfold f32. rewrite Hp, length_replicate. nia.
  - unfold f32. rewrite Hr, length_replicate. nia.
  - unfold f32. rewrite Hb, length_replicate. nia.
  - unfold f32. rewrite Hu, length_replicate. nia.
Qed.

(** Every vertex number is a row and a column. *)
Lemma vertex_number (meshX meshY i : Z) :
  0 <= meshX -> 0 <= i < (meshX + 1) * (meshY + 1) ->
  0 <= i / (meshX + 1) <= meshY
  /\ 0 <= i mod (meshX + 1) <= meshX
  /\ i = i / (meshX + 1) * (meshX + 1) + i mod (meshX + 1).
Proof.
  intros Hx Hi.
  assert (Hpos : 0 < meshX + 1) by lia.
  pose proof (Z.div_mod i (meshX + 1) ltac:(lia)) as Hdm.
  pose proof (Z.mod_pos_bound i (meshX + 1) Hpos) as Hmod.
  split; [|split; lia].
  split; [apply Z.div_pos; lia|].
  assert (i / (meshX + 1) < meshY + 1); [|lia].
  apply Z.div_lt_upper_bound; nia.
Qed.

(** X7. What a new mesh stores for a vertex: the binary32 roundings of
    a direction [(d0, d1, d2)], of a depth [v] and of the three products
    [d_k * v], each rounded on its own.  On an image whose depths lie in
    [0, hi], with a positive fallback [depthMin], the depth [v] is
    positive and at most [max(hi, depthMin)], so the stored base depth
    lies between 0 and the rounding of [max(hi, depthMin)]. *)
Theorem generated_vertices_on_rays (h : Heap) (depth : list Q)
    (width height meshX meshY : Z) (depthMin depthMax hi : Q)
    (centerZ fovDegrees : option Q) :
  1 <= width -> 1 <= height ->
  length depth = Z.to_nat (width * height) ->
  (forall v, In v depth -> (0 <= v <= hi)%Q) ->
  (0 < depthMin)%Q ->
  1 <= meshX -> 1 <= meshY ->
  exists (h' : Heap) (mesh : Mesh),
    generatePerspectiveMesh h depth width height meshX meshY depthMin depthMax
      centerZ fovDegrees = Returned (h', mesh)
    /\ forall i, 0 <= i < vertexCount mesh ->
         exists d0 d1 d2 v : Q,
           (0 < v <= Qmax hi depthMin)%Q
           /\ baseDepth_of h' mesh i = fround v
           /\ (0 <= baseDepth_of h' mesh i <= fround (Qmax hi depthMin))%Q
           /\ ray_of h' mesh i 0 = fround d0
           /\ ray_of h' mesh i 1 = fround d1
           /\ ray_of h' mesh i 2 = fround d2
           /\ position_of h' mesh i 0 = fround (d0 * v)
           /\ position_of h' mesh i 1 = fround (d1 * v)
           /\ position_of h' mesh i 2 = fround (d2 * v).
Proof.
  intros Hw Hh Hlen Hgrid Hmin Hx Hy.
  destruct (generatePerspectiveMesh_vertices h depth width height meshX meshY
              depthMin depthMax centerZ fovDegrees ltac:(lia) ltac:(lia))
    as (h' & mesh & tx & ty & E & Hvc & Hall).
  exists h', mesh. split; [exact E|].
  intros i Hi. rewrite Hvc in Hi.
  destruct (vertex_number meshX meshY i ltac:(lia) Hi) as (Hlat & Hlon & Ei).
  destruct (Hall _ _ Hlat Hlon) as (Hpos & Hray & Hbase & _).
  rewrite <- Ei in Hpos, Hray, Hbase.
  set (lat := i / (meshX + 1)) in *. set (lon := i mod (meshX + 1)) in *.
  set (v := vertex_depth depth width height meshX meshY depthMin lat lon) in *.
  assert (Hv : (0 < v <= Qmax hi depthMin)%Q).
  { unfold v, vertex_depth.
    split; [apply sampleDepth_positive, Hmin|].
    rewrite sampleDepth_unfold.
    destruct (Qltb 0 (bilinearValue _ _ _ _ _)) eqn:Ev.
    - pose proof (bilinearValue_bounds depth width height
                    (vertex_pixelX width meshX lon)
                    (vertex_pixelY height meshY lat)
                    0 hi Hw Hh Hlen Hgrid) as Hb.
      pose proof (Q.le_max_l hi depthMin). lra.
    - apply Q.max_le_compat_r. apply Hgrid.
      unfold topLeftSample, readQ. apply read_in_range.
      pose proof (clampCoord_range width
                    (Qfloor (vertex_pixelX width meshX lon)) Hw).
      pose proof (clampCoord_range height
                    (Qfloor (vertex_pixelY height meshY lat)) Hh).
      rewrite Hlen. nia. }
  pose proof (Hpos 0 ltac:(lia)) as P0. pose proof (Hpos 1 ltac:(lia)) as P1.
  pose proof (Hpos 2 ltac:(lia)) as P2.
  pose proof (Hray 0 ltac:(lia)) as R0. pose proof (Hray 1 ltac:(lia)) as R1.
  pose proof (Hray 2 ltac:(lia)) as R2.
  unfold vertex_position, vertex_ray in P0, P1, P2, R0, R1, R2.
  fold v in P0, P1, P2.
  destruct (vertex_dir tx ty meshX meshY lat lon) as [[d0 d1] d2].
  exists d0, d1, (- d2)%Q, v.
  split; [exact Hv|]. split; [exact Hbase|]. split.
  { rewrite Hbase. split; [apply fround_nonneg | apply fround_mono]; lra. }
  repeat split; assumption.
Qed.

(** X8. The texture coordinates of a new mesh lie in [0, 1]: they are 0
    at the first column and row and 1 at the last, whatever the image
    size, and they do not decrease along a row or down a column. *)
Theorem generated_uvs (h : Heap) (depth : list Q)
    (width height meshX meshY : Z) (depthMin depthMax : Q)
    (centerZ fovDegrees : option Q) :
  1 <= meshX -> 1 <= meshY ->
  exists (h' : Heap) (mesh : Mesh),
    generatePerspectiveMesh h depth width height meshX meshY depthMin depthMax
      centerZ fovDegrees = Returned (h', mesh)
    /\ forall lat lon, 0 <= lat <= meshY -> 0 <= lon <= meshX ->
         let i := lat * (meshX + 1) + lon in
         (0 <= uv_of h' mesh i 0 <= 1)%Q
         /\ (0 <= uv_of h' mesh i 1 <= 1)%Q
         /\ (lon = 0 -> (uv_of h' mesh i 0 == 0)%Q)
         /\ (lon = meshX -> (uv_of h' mesh i 0 == 1)%Q)
         /\ (lat = 0 -> (uv_of h' mesh i 1 == 0)%Q)
         /\ (lat = meshY -> (uv_of h' mesh i 1 == 1)%Q)
         /\ (forall lon', lon <= lon' <= meshX ->
               (uv_of h' mesh i 0
                <= uv_of h' mesh (lat * (meshX + 1) + lon') 0)%Q)
         /\ (forall lat', lat <= lat' <= meshY ->
               (uv_of h' mesh i 1
                <= uv_of h' mesh (lat' * (meshX + 1) + lon) 1)%Q).
Proof.
  intros Hx Hy.
  destruct (generatePerspectiveMesh_vertices h depth width height meshX meshY
              depthMin depthMax centerZ fovDegrees ltac:(lia) ltac:(lia))
    as (h' & mesh & tx & ty & E & Hvc & Hall).
  exists h', mesh. split; [exact E|].
  assert (Huv : forall lat lon, 0 <= lat <= meshY -> 0 <= lon <= meshX ->
            uv_of h' mesh (lat * (meshX + 1) + lon) 0
            = fround (inject_Z lon / inject_Z meshX)
            /\ uv_of h' mesh (lat * (meshX + 1) + lon) 1
               = fround (inject_Z lat / inject_Z meshY)).
  { intros lat lon Hlat Hlon.
    destruct (Hall _ _ Hlat Hlon) as (_ & _ & _ & Huv).
    split.
    - rewrite (Huv 0) by lia. apply fround_compat.
      unfold vertex_uv, vertex_pixelX, readQ, read. simpl.
      assert (Hwm : (0 < inject_Z (Z.max 1 (width - 1)))%Q)
        by (rewrite <- (Zlt_Qlt 0); lia).
      assert (Hmx : (0 < inject_Z meshX)%Q) by (rewrite <- (Zlt_Qlt 0); lia).
      field. split; lra.
    - rewrite (Huv 1) by lia. reflexivity. }
  assert (Hfrac : forall a b : Z, 0 <= a <= b -> 1 <= b ->
            (0 <= inject_Z a / inject_Z b <= 1)%Q).
  { intros a b Ha Hb.
    assert (Hb' : (0 < inject_Z b)%Q) by (rewrite <- (Zlt_Qlt 0); lia).
    assert (Ha0 : (0 <= inject_Z a)%Q) by (rewrite <- (Zle_Qle 0); lia).
    assert (Hab : (inject_Z a <= inject_Z b)%Q) by (rewrite <- Zle_Qle; lia).
    split.
    - apply Qle_shift_div_l; [exact Hb' | lra].
    - apply Qle_shift_div_r; [exact Hb' | lra]. }
  assert (Hmono : forall a a' b : Z, a <= a' -> 1 <= b ->
            (inject_Z a / inject_Z b <= inject_Z a' / inject_Z b)%Q).
  { intros a a' b Ha Hb.
    assert (Hb' : (0 < inject_Z b)%Q) by (rewrite <- (Zlt_Qlt 0); lia).
    assert (Hab : (inject_Z a <= inject_Z a')%Q) by (rewrite <- Zle_Qle; lia).
    apply Qmult_le_compat_r; [exact Hab|].
    apply Qlt_le_weak, Qinv_lt_0_compat, Hb'. }
  assert (Hrange : forall a b : Z, 0 <= a <= b -> 1 <= b ->
            (0 <= fround (inject_Z a / inject_Z b) <= 1)%Q).
  { intros a b Ha Hb. destruct (Hfrac a b Ha Hb) as [H0 H1]. split.
    - apply fround_nonneg, H0.
    - rewrite <- fround_1. apply fround_mono, H1. }
  assert (Hone : forall b : Z, 1 <= b ->
            (fround (inject_Z b / inject_Z b) == 1)%Q).
  { intros b Hb.
    assert (Hb' : (0 < inject_Z b)%Q) by (rewrite <- (Zlt_Qlt 0); lia).
    rewrite (fround_compat _ 1) by (field; lra). apply fround_1. }
  intros lat lon Hlat Hlon i. unfold i.
  destruct (Huv lat lon Hlat Hlon) as [E0 E1].
  rewrite E0, E1.
  split; [apply Hrange; lia|]. split; [apply Hrange; lia|].
  split; [intros ->; reflexivity|].
  split; [intros ->; apply Hone, Hx|].
  split; [intros ->; reflexivity|].
  split; [intros ->; apply Hone, Hy|].
  split.
  - intros lon' Hlon'.
    rewrite (proj1 (Huv lat lon' Hlat ltac:(lia))).
    apply fround_mono, Hmono; lia.
  - intros lat' Hlat'.
    rewrite (proj2 (Huv lat' lon ltac:(lia) Hlon)).
    apply fround_mono, Hmono; lia.
Qed.

End GeneratedMesh.

(** ** The index array, the depth extent and the frame of a new mesh *)

(** The five constructor calls return references the heap did not hold. *)
Lemma allocate_buffers_fresh (h : Heap) (vertCount indexLength : Z) :
  let bufs := (allocate_buffers h vertCount indexLength).2 in
  h !! b_positions bufs = None /\ h !! b_rayDirections bufs = None
  /\ h !! b_baseDepths bufs = None /\ h !! b_uvs bufs = None
  /\ h !! b_indices bufs = None.
Proof.
  unfold allocate_buffers.
  set (a1 := Float32Array (replicate (Z.to_nat (vertCount * 3)) 0%Q)).
  set (a3 := Float32Array (replicate (Z.to_nat vertCount) 0%Q)).
  set (a4 := Float32Array (replicate (Z.to_nat (vertCount * 2)) 0%Q)).
  set (a5 := Uint32Array (replicate (Z.to_nat indexLength) 0)).
  pose proof (alloc_fresh h a1) as F1. pose proof (alloc_new h a1) as N1.
  pose proof (alloc_old h a1) as O1.
  destruct (alloc h a1) as [h1 r1]. simpl in F1, N1, O1.
  pose proof (alloc_fresh h1 a1) as F2. pose proof (alloc_new h1 a1) as N2.
  pose proof (alloc_old h1 a1) as O2.
  destruct (alloc h1 a1) as [h2 r2]. simpl in F2, N2, O2.
  pose proof (alloc_fresh h2 a3) as F3. pose proof (alloc_new h2 a3) as N3.
  pose proof (alloc_old h2 a3) as O3.
  destruct (alloc h2 a3) as [h3 r3]. simpl in F3, N3, O3.
  pose proof (alloc_fresh h3 a4) as F4. pose proof (alloc_new h3 a4) as N4.
  pose proof (alloc_old h3 a4) as O4.
  destruct (alloc h3 a4) as [h4 r4]. simpl in F4, N4, O4.
  pose proof (alloc_fresh h4 a5) as F5.
  destruct (alloc h4 a5) as [h5 r5]. simpl in F5.
  simpl.
  assert (D12 : r1 <> r2) by (intros ->; congruence).
  assert (D13 : r1 <> r3) by (intros ->; rewrite O2 in F3 by congruence; congruence).
  assert (D23 : r2 <> r3) by (intros ->; congruence).
  assert (D14 : r1 <> r4).
  { intros ->. rewrite O3, O2 in F4 by congruence. congruence. }
  assert (D24 : r2 <> r4) by (intros ->; rewrite O3 in F4 by congruence; congruence).
  assert (D34 : r3 <> r4) by (intros ->; congruence).
  assert (D15 : r1 <> r5).
  { intros ->. rewrite O4, O3, O2 in F5 by congruence. congruence. }
  assert (D25 : r2 <> r5).
  { intros ->. rewrite O4, O3 in F5 by congruence. congruence. }
  assert (D35 : r3 <> r5) by (intros ->; rewrite O4 in F5 by congruence; congruence).
  assert (D45 : r4 <> r5) by (intros ->; congruence).
  split; [exact F1|].
  split; [rewrite O1 in F2 by congruence; exact F2|].
  split; [rewrite O2, O1 in F3 by congruence; exact F3|].
  split; [rewrite O3, O2, O1 in F4 by congruence; exact F4|].
  rewrite O4, O3, O2, O1 in F5 by congruence. exact F5.
Qed.

Section GeneratedFrame.
Context {M : MathLib}.

(** The extent the vertex loop keeps in [baseMinZ] and [baseMaxZ] is the
    extent of the numbers [pz] it has handed to the stores of the z
    components; the array holds their binary32 roundings. *)
Lemma vertex_loop_extent (bufs : Buffers) (depth : list Q)
    (width height meshX meshY : Z) (depthMin tanHalfX tanHalfY : Q) (h : Heap) :
  0 <= meshX -> 0 <= meshY ->
  NoDup [b_positions bufs; b_rayDirections bufs; b_baseDepths bufs; b_uvs bufs] ->
  Z.of_nat (length (f32 h (b_positions bufs))) = (meshX + 1) * (meshY + 1) * 3 ->
  let vst := vertex_loop bufs depth width height meshX meshY depthMin
               tanHalfX tanHalfY h in
  let z := fun i => readQ (f32 (vs_heap vst) (b_positions bufs)) (i * 3 + 2) in
  let n := (meshX + 1) * (meshY + 1) in
  exists lo hi : Q,
    vs_baseMinZ vst = Num lo /\ vs_baseMaxZ vst = Num hi
    /\ (forall i, 0 <= i < n ->
          exists pz, z i = fround pz /\ (lo <= pz <= hi)%Q)
    /\ (exists i, 0 <= i < n /\ z i = fround lo)
    /\ (exists i, 0 <= i < n /\ z i = fround hi).
Proof.
  intros Hx Hy Hnd Hlen vst z n.
  set (pos := fun st : VertexState => f32 (vs_heap st) (b_positions bufs)).
  set (zs := fun (st : VertexState) i => readQ (pos st) (i * 3 + 2)).
  set (Inv := fun st : VertexState =>
    0 <= vs_index st
    /\ length (pos st) = length (f32 h (b_positions bufs))
    /\ (vs_index st <= n ->
        (vs_index st = 0 /\ vs_baseMinZ st = PosInfinity
         /\ vs_baseMaxZ st = NegInfinity)
        \/ (0 < vs_index st
            /\ exists lo hi : Q,
                 vs_baseMinZ st = Num lo /\ vs_baseMaxZ st = Num hi
                 /\ (forall i, 0 <= i < vs_index st ->
                       exists pz, zs st i = fround pz /\ (lo <= pz <= hi)%Q)
                 /\ (exists i, 0 <= i < vs_index st /\ zs st i = fround lo)
                 /\ (exists i, 0 <= i < vs_index st /\ zs st i = fround hi)))).
  assert (HInv : Inv vst).
  { unfold vst, vertex_loop.
    apply (for_range_inv Inv).
    { split; [simpl; lia|]. split; [reflexivity|]. intros _. left. auto. }
    intros lat st _ Hst. apply (for_range_inv Inv); [exact Hst|].
    intros lon t _ (Hidx & Hl & Hcase).
    destruct (vertex_body_stores bufs depth width height meshX meshY depthMin
                tanHalfX tanHalfY lat lon t Hnd)
      as (Ei & Ep & _ & _ & _ & Emin & Emax).
    set (t' := vertex_body bufs depth width height meshX meshY depthMin
                 tanHalfX tanHalfY lat lon t) in *.
    set (vals := vertex_position tanHalfX tanHalfY depth width height meshX
                   meshY depthMin lat lon) in *.
    assert (Hvals : length (fround <$> vals) = 3%nat).
    { unfold vals, vertex_position.
      destruct (vertex_dir _ _ _ _ _ _) as [[d0 d1] d2]. reflexivity. }
    fold (pos t') in Ep. fold (pos t) in Ep.
    split; [lia|]. split; [rewrite Ep, length_write_block; exact Hl|].
    intros Hn. rewrite Ei in Hn.
    assert (Hold : forall i, 0 <= i < vs_index t -> zs t' i = zs t i).
    { intros i Hi. unfold zs, readQ. rewrite Ep.
      apply read_write_block_outside. lia. }
    assert (Hnew : zs t' (vs_index t) = fround (readQ vals 2)).
    { rewrite <- readQ_fround. unfold zs, readQ. rewrite Ep.
      apply read_write_block_inside; rewrite ?Hvals; lia. }
    set (znew := readQ vals 2) in *.
    right. split; [lia|]. rewrite Emin, Emax, Ei.
    destruct (Hcase ltac:(lia)) as [(E0 & Emn & Emx)
                                    | (Hpos & lo & hi & Emn & Emx & Hb & Hlo & Hhi)].
    - rewrite Emn, Emx. simpl. exists znew, znew.
      split; [reflexivity|]. split; [reflexivity|].
      split; [|split; exists (vs_index t); (split; [lia | exact Hnew])].
      intros i Hi. replace i with (vs_index t) by lia.
      exists znew. split; [exact Hnew | lra].
    - rewrite Emn, Emx. simpl.
      destruct Hlo as (il & Hil & Ezl). destruct Hhi as (ih & Hih & Ezh).
      assert (Hstep : forall i, 0 <= i < vs_index t + 1 ->
                exists pz, zs t' i = fround pz
                           /\ (pz = znew \/ (lo <= pz <= hi)%Q)).
      { intros i Hi. destruct (Z.eq_dec i (vs_index t)) as [->|Hne].
        - exists znew. split; [exact Hnew | left; reflexivity].
        - destruct (Hb i ltac:(lia)) as (pz & Ez & Hpz).
          exists pz. split; [rewrite Hold by lia; exact Ez | right; exact Hpz]. }
      destruct (Qltb znew lo) eqn:Elt; destruct (Qltb hi znew) eqn:Egt;
        [apply Qltb_true in Elt | apply Qltb_true in Elt
        | apply Qltb_false in Elt | apply Qltb_false in Elt];
        [apply Qltb_true in Egt | apply Qltb_false in Egt
        | apply Qltb_true in Egt | apply Qltb_false in Egt].
      + exists znew, znew. split; [reflexivity|]. split; [reflexivity|].
        split; [|split; exists (vs_index t); (split; [lia | exact Hnew])].
        intros i Hi. destruct (Hstep i Hi) as (pz & Ez & [->|Hr]);
          eexists; (split; [exact Ez | lra]).
      + exists znew, hi. split; [reflexivity|]. split; [reflexivity|].
        split; [|split].
        * intros i Hi. destruct (Hstep i Hi) as (pz & Ez & [->|Hr]);
            eexists; (split; [exact Ez | lra]).
        * exists (vs_index t). split; [lia | exact Hnew].
        * exists ih. split; [lia|]. rewrite Hold by lia. exact Ezh.
      + exists lo, znew. split; [reflexivity|]. split; [reflexivity|].
        split; [|split].
        * intros i Hi. destruct (Hstep i Hi) as (pz & Ez & [->|Hr]);
            eexists; (split; [exact Ez | lra]).
        * exists il. split; [lia|]. rewrite Hold by lia. exact Ezl.
        * exists (vs_index t). split; [lia | exact Hnew].
      + exists lo, hi. split; [reflexivity|]. split; [reflexivity|].
        split; [|split].
        * intros i Hi. destruct (Hstep i Hi) as (pz & Ez & [->|Hr]);
            eexists; (split; [exact Ez | lra]).
        * exists il. split; [lia|]. rewrite Hold by lia. exact Ezl.
        * exists ih. split; [lia|]. rewrite Hold by lia. exact Ezh. }
  destruct HInv as (_ & _ & Hcase).
  pose proof (vertex_loop_index bufs depth width height meshX meshY depthMin
                tanHalfX tanHalfY h Hx Hy) as Hidx.
  fold vst in Hidx. fold n in Hidx. rewrite Hidx in Hcase.
  destruct (Hcase ltac:(lia)) as [(E0 & _) | (_ & lo & hi & H)].
  - unfold n in E0. nia.
  - exists lo, hi. exact H.
Qed.

(** X9. The index array of a new mesh of at most 2^32 vertices holds, for
    the cell in row [lat] and column [lon], the two triangles
    [(current, next, current + 1)] and [(current + 1, next, next + 1)] at
    entries [(lat * meshX + lon) * 6 ..], where
    [current = lat * (meshX + 1) + lon] and [next = current + meshX + 1]. *)
Theorem generated_triangles (h : Heap) (depth : list Q)
    (width height meshX meshY : Z) (depthMin depthMax : Q)
    (centerZ fovDegrees : option Q) :
  1 <= meshX -> 1 <= meshY ->
  (meshX + 1) * (meshY + 1) <= 2 ^ 32 ->
  exists (h' : Heap) (mesh : Mesh),
    generatePerspectiveMesh h depth width height meshX meshY depthMin depthMax
      centerZ fovDegrees = Returned (h', mesh)
    /\ forall lat lon c,
         0 <= lat < meshY -> 0 <= lon < meshX -> 0 <= c < 6 ->
         readZ (u32 h' (indices mesh)) ((lat * meshX + lon) * 6 + c)
         = readZ (cell_indices meshX lat lon) c.
Proof.
  intros Hx Hy Hcount.
  destruct (generatePerspectiveMesh_run h depth width height meshX meshY
              depthMin depthMax centerZ fovDegrees ltac:(lia) ltac:(lia))
    as (tx & ty & E).
  cbv zeta in E. eexists _, _. split; [exact E|]. cbn [indices].
  pose proof (allocate_buffers_spec h ((meshX + 1) * (meshY + 1))
                (meshX * meshY * 6)) as Hspec.
  cbv zeta in Hspec.
  destruct (allocate_buffers h ((meshX + 1) * (meshY + 1)) (meshX * meshY * 6))
    as [h5 bufs].
  simpl fst in *. simpl snd in *.
  destruct Hspec as (_ & _ & _ & _ & _ & Hi & _).
  set (vst := vertex_loop bufs depth width height meshX meshY depthMin tx ty h5).
  assert (Hvu32 : u32 (vs_heap vst) (b_indices bufs) = u32 h5 (b_indices bufs)).
  { unfold vst.
    apply (vertex_loop_inv
             (fun t => u32 t (b_indices bufs) = u32 h5 (b_indices bufs)));
      [reflexivity|].
    intros lat lon st Hst. rewrite vertex_body_u32. exact Hst. }
  intros lat lon c Hlat Hlon Hc.
  rewrite triangle_loop_spec; try lia.
  - unfold toUint32. apply Z.mod_small.
    unfold cell_indices.
    assert (c = 0 \/ c = 1 \/ c = 2 \/ c = 3 \/ c = 4 \/ c = 5)
      as [-> | [-> | [-> | [-> | [-> | ->]]]]] by lia;
      unfold readZ, read; simpl; nia.
  - rewrite Hvu32. unfold u32. rewrite Hi, length_replicate. nia.
Qed.

(** X10. [baseMinZ] and [baseMaxZ] of a new mesh over a full depth grid
    are finite: they are the least and the greatest of the numbers [pz]
    computed for the vertices, while the positions array holds the
    binary32 rounding of each [pz].  So every stored z lies between the
    roundings of [baseMinZ] and [baseMaxZ], and each rounding is the
    stored z of some vertex. *)
Theorem generated_z_extent (h : Heap) (depth : list Q)
    (width height meshX meshY : Z) (depthMin depthMax : Q)
    (centerZ fovDegrees : option Q) :
  1 <= width -> 1 <= height ->
  length depth = Z.to_nat (width * height) ->
  1 <= meshX -> 1 <= meshY ->
  exists (h' : Heap) (mesh : Mesh) (lo hi : Q),
    generatePerspectiveMesh h depth width height meshX meshY depthMin depthMax
      centerZ fovDegrees = Returned (h', mesh)
    /\ mesh_baseMinZ mesh = Num lo /\ mesh_baseMaxZ mesh = Num hi
    /\ (lo <= hi)%Q
    /\ (forall i, 0 <= i < vertexCount mesh ->
          (exists pz, position_of h' mesh i 2 = fround pz /\ (lo <= pz <= hi)%Q)
          /\ (fround lo <= position_of h' mesh i 2 <= fround hi)%Q)
    /\ (exists i, 0 <= i < vertexCount mesh
                  /\ position_of h' mesh i 2 = fround lo)
    /\ (exists i, 0 <= i < vertexCount mesh
                  /\ position_of h' mesh i 2 = fround hi).
Proof.
  intros _ _ _ Hx Hy.
  destruct (generatePerspectiveMesh_run h depth width height meshX meshY
              depthMin depthMax centerZ fovDegrees ltac:(lia) ltac:(lia))
    as (tx & ty & E).
  cbv zeta in E.
  pose proof (allocate_buffers_spec h ((meshX + 1) * (meshY + 1))
                (meshX * meshY * 6)) as Hspec.
  cbv zeta in Hspec.
  destruct (allocate_buffers h ((meshX + 1) * (meshY + 1)) (meshX * meshY * 6))
    as [h5 bufs].
  simpl fst in *. simpl snd in *.
  destruct Hspec as (Hnd & Hp & _).
  assert (Hnd4 : NoDup [b_positions bufs; b_rayDirections bufs;
                        b_baseDepths bufs; b_uvs bufs]).
  { apply NoDup_cons in Hnd as [H1 Hnd]. apply NoDup_cons in Hnd as [H2 Hnd].
    apply NoDup_cons in Hnd as [H3 Hnd].
    rewrite !not_elem_of_cons in H1. rewrite !not_elem_of_cons in H2.
    rewrite !not_elem_of_cons in H3.
    repeat (apply NoDup_cons; split;
            [rewrite ?not_elem_of_cons; intuition (try congruence);
             eapply not_elem_of_nil; eassumption|]).
    apply NoDup_nil. exact I. }
  destruct (vertex_loop_extent bufs depth width height meshX meshY depthMin
              tx ty h5 ltac:(lia) ltac:(lia) Hnd4)
    as (lo & hi & Emin & Emax & Hall & Hlo & Hhi).
  { unfold f32. rewrite Hp, length_replicate. nia. }
  eexists _, _, lo, hi. split; [exact E|].
  unfold position_of. cbn [mesh_baseMinZ mesh_baseMaxZ vertexCount positions].
  rewrite triangle_loop_f32.
  split; [exact Emin|]. split; [exact Emax|].
  split.
  { destruct Hlo as (i & Hi & _). destruct (Hall i Hi) as (pz & _ & Hpz). lra. }
  split; [|split; assumption].
  intros i Hi. destruct (Hall i Hi) as (pz & Ez & Hpz).
  split; [exists pz; split; assumption|].
  rewrite Ez. split; apply fround_mono; lra.
Qed.

(** X11. A new mesh aliases nothing: its five arrays are references the
    heap did not hold before the call, pairwise distinct, and every object
    the heap held is what it was. *)
Theorem generated_arrays_fresh (h : Heap) (depth : list Q)
    (width height meshX meshY : Z) (depthMin depthMax : Q)
    (centerZ fovDegrees : option Q) :
  1 <= meshX -> 1 <= meshY ->
  exists (h' : Heap) (mesh : Mesh),
    generatePerspectiveMesh h depth width height meshX meshY depthMin depthMax
      centerZ fovDegrees = Returned (h', mesh)
    /\ NoDup [positions mesh; rayDirections mesh; baseDepths mesh; uvs mesh;
              indices mesh]
    /\ (forall r, In r [positions mesh; rayDirections mesh; baseDepths mesh;
                        uvs mesh; indices mesh] -> h !! r = None)
    /\ (forall r, is_Some (h !! r) -> h' !! r = h !! r).
Proof.
  intros Hx Hy.
  destruct (generatePerspectiveMesh_run h depth width height meshX meshY
              depthMin depthMax centerZ fovDegrees ltac:(lia) ltac:(lia))
    as (tx & ty & E).
  cbv zeta in E.
  pose proof (allocate_buffers_spec h ((meshX + 1) * (meshY + 1))
                (meshX * meshY * 6)) as Hspec.
  pose proof (allocate_buffers_fresh h ((meshX + 1) * (meshY + 1))
                (meshX * meshY * 6)) as Hfresh.
  cbv zeta in Hspec, Hfresh.
  destruct (allocate_buffers h ((meshX + 1) * (meshY + 1)) (meshX * meshY * 6))
    as [h5 bufs].
  simpl fst in *. simpl snd in *.
  destruct Hspec as (Hnd & _ & _ & _ & _ & _ & Hold).
  destruct Hfresh as (F1 & F2 & F3 & F4 & F5).
  eexists _, _. split; [exact E|].
  cbn [positions rayDirections baseDepths uvs indices].
  split; [exact Hnd|]. split.
  - intros r [<- | [<- | [<- | [<- | [<- | []]]]]]; assumption.
  - intros r Hr.
    assert (N1 : r <> b_positions bufs) by (intros ->; destruct Hr; congruence).
    assert (N2 : r <> b_rayDirections bufs) by (intros ->; destruct Hr; congruence).
    assert (N3 : r <> b_baseDepths bufs) by (intros ->; destruct Hr; congruence).
    assert (N4 : r <> b_uvs bufs) by (intros ->; destruct Hr; congruence).
    assert (N5 : r <> b_indices bufs) by (intros ->; destruct Hr; congruence).
    rewrite <- (Hold r Hr).
    transitivity (vs_heap (vertex_loop bufs depth width height meshX meshY
                             depthMin tx ty h5) !! r).
    + apply (triangle_loop_inv
               (fun st => st.1 !! r
                          = vs_heap (vertex_loop bufs depth width height meshX
                                       meshY depthMin tx ty h5) !! r));
        [reflexivity|].
      intros lat lon st _ _ Hst. rewrite triangle_body_other by exact N5.
      exact Hst.
    + apply (vertex_loop_inv (fun t => t !! r = h5 !! r)); [reflexivity|].
      intros lat lon st Hst. rewrite vertex_body_other by assumption.
      exact Hst.
Qed.

End GeneratedFrame.

(** ** Composition and range of the remap *)

Section RemapRange.
Context {M : MathLib}.

(** The base depth of a vertex is not touched by a remap. *)
Lemma remap_baseDepth (h : Heap) (m : Mesh) (o : Options) (i : Z) :
  MeshDescriptor h m ->
  baseDepth_of (updateVertexPositions h m o) m i = baseDepth_of h m i.
Proof.
  intros Hmd. destruct (descriptor_positions_apart h m Hmd) as (_ & Hb & _).
  unfold baseDepth_of. f_equal.
  apply f32_lookup_eq, updateVertexPositions_other, Hb.
Qed.

(** Two heaps that hold a mesh descriptor, agree outside the positions
    array and agree on every position are the same heap. *)
Lemma heap_eq_by_positions (h1 h2 : Heap) (m : Mesh) :
  MeshDescriptor h1 m -> MeshDescriptor h2 m ->
  (forall r, r <> positions m -> h1 !! r = h2 !! r) ->
  (forall i k, 0 <= i < vertexCount m -> 0 <= k < 3 ->
     position_of h1 m i k = position_of h2 m i k) ->
  h1 = h2.
Proof.
  intros [_ (l1 & Hl1 & Hn1) _ _ _ _] [_ (l2 & Hl2 & Hn2) _ _ _ _] Hother Hpos.
  apply map_eq. intros r.
  destruct (decide (r = positions m)) as [->|Hne]; [|apply Hother, Hne].
  rewrite Hl1, Hl2. do 2 f_equal.
  apply list_eq. intros j.
  destruct (decide (j < length l1)%nat) as [Hlt|Hge].
  - rewrite (read_Some 0%Q l1 j) by lia.
    rewrite (read_Some 0%Q l2 j) by lia.
    f_equal.
    pose proof (Z.div_mod (Z.of_nat j) 3 ltac:(lia)) as Hdm.
    pose proof (Z.mod_pos_bound (Z.of_nat j) 3 ltac:(lia)) as Hmod.
    assert (Hdiv : 0 <= Z.of_nat j / 3 < vertexCount m).
    { split; [apply Z.div_pos; lia|]. apply Z.div_lt_upper_bound; lia. }
    specialize (Hpos (Z.of_nat j / 3) (Z.of_nat j mod 3) Hdiv Hmod).
    unfold position_of, f32, readQ in Hpos. rewrite Hl1, Hl2 in Hpos.
    replace (Z.of_nat j / 3 * 3 + Z.of_nat j mod 3) with (Z.of_nat j) in Hpos
      by lia.
    exact Hpos.
  - rewrite !lookup_ge_None_2 by lia. reflexivity.
Qed.

(** X12. The remap is a function of the rays, the base depths and the
    options only: whatever remap came before, the heap after a remap with
    options [o2] is the heap a single remap with [o2] gives. In particular
    a remap applied twice is the remap applied once. *)
Theorem remap_last_wins (h : Heap) (m : Mesh) (o1 o2 : Options) :
  MeshDescriptor h m ->
  updateVertexPositions (updateVertexPositions h m o1) m o2
  = updateVertexPositions h m o2
  /\ updateVertexPositions (updateVertexPositions h m o2) m o2
     = updateVertexPositions h m o2.
Proof.
  intros Hmd.
  assert (Hgen : forall o, updateVertexPositions (updateVertexPositions h m o) m o2
                           = updateVertexPositions h m o2).
  { intros o.
    pose proof (updateVertexPositions_descriptor h m o Hmd) as Hmd1.
    apply (heap_eq_by_positions _ _ m).
    - apply updateVertexPositions_descriptor, Hmd1.
    - apply updateVertexPositions_descriptor, Hmd.
    - intros r Hne. rewrite !updateVertexPositions_other by exact Hne.
      reflexivity.
    - intros i k Hi Hk. rewrite !remap_position by assumption.
      rewrite remap_ray, remap_baseDepth by exact Hmd. reflexivity. }
  split; apply Hgen.
Qed.



Lemma remapped_depth_monotone (minDepth : Q) (o : Options) (b1 b2 : Q) :
  mode o <> "log"%string ->
  (0 <= magnification o)%Q ->
  (b1 <= b2)%Q ->
  (remapped_depth minDepth o b1 <= remapped_depth minDepth o b2)%Q.
Proof.
  intros Hmode Hmag Hb. unfold remapped_depth, scaled_depth.
  destruct (String.eqb_spec (mode o) "log") as [E|_]; [contradiction|].
  assert (Hs : (minDepth + magnification o * (b1 - minDepth)
                <= minDepth + magnification o * (b2 - minDepth))%Q) by nra.
  destruct (farClip o); simpl min_farLimit;
    try apply Q.min_le_compat_r; apply Q.max_le_compat_r; exact Hs.
Qed.

(** X14. In linear mode with a magnification that is not negative the
    remap keeps the depth order of the vertices: a vertex whose base depth
    is not greater than another's gets a depth that is not greater, with
    or without a far clip, and the stored components are the binary32
    roundings of ray direction times depth.  The rounding keeps the order:
    where the two vertices have the same ray component, the stored
    components are ordered as the depths are (reversed for a negative
    component). *)
Theorem remap_linear_monotone (h : Heap) (m : Mesh) (o : Options) (i j : Z) :
  MeshDescriptor h m ->
  mode o <> "log"%string ->
  (0 <= magnification o)%Q ->
  0 <= i < vertexCount m -> 0 <= j < vertexCount m ->
  (baseDepth_of h m i <= baseDepth_of h m j)%Q ->
  let h' := updateVertexPositions h m o in
  exists di dj : Q,
    (di <= dj)%Q
    /\ (forall k, 0 <= k < 3 ->
          position_of h' m i k = fround (ray_of h' m i k * di))
    /\ (forall k, 0 <= k < 3 ->
          position_of h' m j k = fround (ray_of h' m j k * dj))
    /\ (forall k, 0 <= k < 3 -> ray_of h' m i k = ray_of h' m j k ->
          ((0 <= ray_of h' m i k)%Q ->
           (position_of h' m i k <= position_of h' m j k)%Q)
          /\ ((ray_of h' m i k <= 0)%Q ->
              (position_of h' m j k <= position_of h' m i k)%Q)).
Proof.
  intros Hmd Hmode Hmag Hi Hj Hb h'.
  set (minDepth := Qmax (baseDepthMin m) MIN_DEPTH_CLAMP).
  assert (Hpos : forall v k, 0 <= v < vertexCount m -> 0 <= k < 3 ->
            position_of h' m v k
            = fround (ray_of h' m v k
                      * remapped_depth minDepth o (baseDepth_of h m v))).
  { intros v k Hv Hk. unfold h'. rewrite remap_position, remap_ray by assumption.
    reflexivity. }
  pose proof (remapped_depth_monotone minDepth o _ _ Hmode Hmag Hb) as Hle.
  exists (remapped_depth minDepth o (baseDepth_of h m i)),
         (remapped_depth minDepth o (baseDepth_of h m j)).
  split; [exact Hle|].
  split; [intros k Hk; apply Hpos; assumption|].
  split; [intros k Hk; apply Hpos; assumption|].
  intros k Hk Eray. rewrite (Hpos i k Hi Hk), (Hpos j k Hj Hk), <- Eray.
  set (r := ray_of h' m i k).
  split; intros Hr; apply fround_mono; nra.
Qed.

(** ** The vertical field of view *)

(** X15. [computeVerticalFov] maps the centre offset onto the interval
    between [MIN_FOV_Y] (30 degrees) and [MAX_FOV_Y] (110 degrees): the
    result never leaves it, is [MIN_FOV_Y] for every offset at or below
    [CENTER_Z_MIN], [MAX_FOV_Y] for every offset at or above
    [CENTER_Z_MAX], and grows with the offset. *)
Theorem computeVerticalFov_range (c c' : Q) :
  (0 <= Math_PI)%Q ->
  (MIN_FOV_Y <= computeVerticalFov c <= MAX_FOV_Y)%Q
  /\ ((c <= CENTER_Z_MIN)%Q -> (computeVerticalFov c == MIN_FOV_Y)%Q)
  /\ ((CENTER_Z_MAX <= c)%Q -> (computeVerticalFov c == MAX_FOV_Y)%Q)
  /\ ((c <= c')%Q -> (computeVerticalFov c <= computeVerticalFov c')%Q).
Proof.
  intros Hpi.
  assert (Hclamp : forall x,
            (CENTER_Z_MIN <= Qmin (Qmax x CENTER_Z_MIN) CENTER_Z_MAX
             <= CENTER_Z_MAX)%Q).
  { intros x. split; [|apply Q.le_min_r].
    apply Q.min_glb; [apply Q.le_max_r | unfold CENTER_Z_MIN, CENTER_Z_MAX; lra]. }
  assert (Hform : forall x,
            (computeVerticalFov x
             == Math_PI * ((1 # 6) + (16 # 135)
                           * (Qmin (Qmax x CENTER_Z_MIN) CENTER_Z_MAX + 4)))%Q).
  { intros x. unfold computeVerticalFov, MIN_FOV_Y, MAX_FOV_Y,
      CENTER_Z_MIN, CENTER_Z_MAX. field. }
  assert (Hmono : forall x y, (x <= y)%Q ->
            (Qmin (Qmax x CENTER_Z_MIN) CENTER_Z_MAX
             <= Qmin (Qmax y CENTER_Z_MIN) CENTER_Z_MAX)%Q).
  { intros x y Hxy. apply Q.min_le_compat_r, Q.max_le_compat_r, Hxy. }
  assert (Emin : (MIN_FOV_Y == Math_PI * (1 # 6))%Q)
    by (unfold MIN_FOV_Y; field).
  assert (Emax : (MAX_FOV_Y == Math_PI * (11 # 18))%Q)
    by (unfold MAX_FOV_Y; field).
  split; [|split; [|split]].
  - pose proof (Hclamp c) as [H1 H2]. rewrite Hform, Emin, Emax.
    set (k := Qmin (Qmax c CENTER_Z_MIN) CENTER_Z_MAX) in *.
    unfold CENTER_Z_MIN in H1. unfold CENTER_Z_MAX in H2.
    split; nra.
  - intros Hc. rewrite Hform, Emin.
    rewrite Q.max_r by exact Hc.
    rewrite Q.min_l by (unfold CENTER_Z_MIN, CENTER_Z_MAX; lra).
    unfold CENTER_Z_MIN. ring.
  - intros Hc. rewrite Hform, Emax.
    rewrite Q.min_r.
    + unfold CENTER_Z_MAX. ring.
    + pose proof (Q.le_max_l c CENTER_Z_MIN). lra.
  - intros Hcc. rewrite !Hform. pose proof (Hmono c c' Hcc) as Hk.
    set (k := Qmin (Qmax c CENTER_Z_MIN) CENTER_Z_MAX) in *.
    set (k' := Qmin (Qmax c' CENTER_Z_MIN) CENTER_Z_MAX) in *.
    nra.
Qed.

End RemapRange.

(** ** The properties of a new mesh and of the remap on concrete inputs *)

(** The mesh of two columns and one row over [tiny_depth], whose depths
    lie in [0, 2], with the fallback depth 1. *)
Lemma generated_vertices_on_rays_witness :
  exists (h' : Heap) (mesh : Mesh),
    @generatePerspectiveMesh approxMath ∅ tiny_depth 2 2 2 1 1 2
      None (Some 60%Q) = Returned (h', mesh)
    /\ forall i, 0 <= i < vertexCount mesh ->
         exists d0 d1 d2 v : Q,
           (0 < v <= Qmax 2 1)%Q
           /\ baseDepth_of h' mesh i = fround v
           /\ (0 <= baseDepth_of h' mesh i <= fround (Qmax 2 1))%Q
           /\ ray_of h' mesh i 0 = fround d0
           /\ ray_of h' mesh i 1 = fround d1
           /\ ray_of h' mesh i 2 = fround d2
           /\ position_of h' mesh i 0 = fround (d0 * v)
           /\ position_of h' mesh i 1 = fround (d1 * v)
           /\ position_of h' mesh i 2 = fround (d2 * v).
Proof.
  apply (@generated_vertices_on_rays approxMath ∅ tiny_depth 2 2 2 1 1 2 2
           None (Some 60%Q)); try (vm_compute; congruence).
  intros v Hv. simpl in Hv.
  repeat (destruct Hv as [<-|Hv]; [split; vm_compute; congruence|]).
  contradiction.
Defined.

Lemma generated_uvs_witness :
  exists (h' : Heap) (mesh : Mesh),
    @generatePerspectiveMesh approxMath ∅ tiny_depth 2 2 2 1 1 2
      None (Some 60%Q) = Returned (h', mesh)
    /\ forall lat lon, 0 <= lat <= 1 -> 0 <= lon <= 2 ->
         let i := lat * (2 + 1) + lon in
         (0 <= uv_of h' mesh i 0 <= 1)%Q
         /\ (0 <= uv_of h' mesh i 1 <= 1)%Q
         /\ (lon = 0 -> (uv_of h' mesh i 0 == 0)%Q)
         /\ (lon = 2 -> (uv_of h' mesh i 0 == 1)%Q)
         /\ (lat = 0 -> (uv_of h' mesh i 1 == 0)%Q)
         /\ (lat = 1 -> (uv_of h' mesh i 1 == 1)%Q)
         /\ (forall lon', lon <= lon' <= 2 ->
               (uv_of h' mesh i 0
                <= uv_of h' mesh (lat * (2 + 1) + lon') 0)%Q)
         /\ (forall lat', lat <= lat' <= 1 ->
               (uv_of h' mesh i 1
                <= uv_of h' mesh (lat' * (2 + 1) + lon) 1)%Q).
Proof.
  apply (@generated_uvs approxMath ∅ tiny_depth 2 2 2 1 1 2 None (Some 60%Q));
    lia.
Defined.

Lemma generated_triangles_witness :
  exists (h' : Heap) (mesh : Mesh),
    @generatePerspectiveMesh approxMath ∅ tiny_depth 2 2 2 1 1 2
      None (Some 60%Q) = Returned (h', mesh)
    /\ forall lat lon c,
         0 <= lat < 1 -> 0 <= lon < 2 -> 0 <= c < 6 ->
         readZ (u32 h' (indices mesh)) ((lat * 2 + lon) * 6 + c)
         = readZ (cell_indices 2 lat lon) c.
Proof.
  apply (@generated_triangles approxMath ∅ tiny_depth 2 2 2 1 1 2
           None (Some 60%Q)); lia.
Defined.

Lemma generated_z_extent_witness :
  exists (h' : Heap) (mesh : Mesh) (lo hi : Q),
    @generatePerspectiveMesh approxMath ∅ tiny_depth 2 2 2 1 1 2
      None (Some 60%Q) = Returned (h', mesh)
    /\ mesh_baseMinZ mesh = Num lo /\ mesh_baseMaxZ mesh = Num hi
    /\ (lo <= hi)%Q
    /\ (forall i, 0 <= i < vertexCount mesh ->
          (exists pz, position_of h' mesh i 2 = fround pz /\ (lo <= pz <= hi)%Q)
          /\ (fround lo <= position_of h' mesh i 2 <= fround hi)%Q)
    /\ (exists i, 0 <= i < vertexCount mesh
                  /\ position_of h' mesh i 2 = fround lo)
    /\ (exists i, 0 <= i < vertexCount mesh
                  /\ position_of h' mesh i 2 = fround hi).
Proof.
  apply (@generated_z_extent approxMath ∅ tiny_depth 2 2 2 1 1 2
           None (Some 60%Q)); first [lia | reflexivity].
Defined.

(** A new mesh in the heap that holds the centre vertex. *)
Lemma generated_arrays_fresh_witness :
  exists (h' : Heap) (mesh : Mesh),
    @generatePerspectiveMesh approxMath centre_heap tiny_depth 2 2 2 1 1 2
      None (Some 60%Q) = Returned (h', mesh)
    /\ NoDup [positions mesh; rayDirections mesh; baseDepths mesh; uvs mesh;
              indices mesh]
    /\ (forall r, In r [positions mesh; rayDirections mesh; baseDepths mesh;
                        uvs mesh; indices mesh] -> centre_heap !! r = None)
    /\ (forall r, is_Some (centre_heap !! r) -> h' !! r = centre_heap !! r).
Proof.
  apply (@generated_arrays_fresh approxMath centre_heap tiny_depth 2 2 2 1 1 2
           None (Some 60%Q)); lia.
Defined.

(** A far-clipped remap followed by the identity remap, on the centre
    vertex. *)
Lemma remap_last_wins_witness :
  @updateVertexPositions approxMath
    (@updateVertexPositions approxMath centre_heap centre_mesh far_options)
    centre_mesh linear_options
  = @updateVertexPositions approxMath centre_heap centre_mesh linear_options.
Proof.
  exact (proj1 (@remap_last_wins approxMath centre_heap centre_mesh far_options
                  linear_options centre_descriptor)).
Defined.


Lemma pair_descriptor : MeshDescriptor pair_heap pair_mesh.
Proof.
  split; simpl; [exact NoDup_five_refs | | | | |];
    eexists; (split; [vm_compute; reflexivity | reflexivity])
    || (vm_compute; reflexivity).
Qed.

(** The two vertices of [pair_mesh], at base depths 1.5 and 3, under a
    magnification of 2 and a far clip of 5. *)
Lemma remap_linear_monotone_witness :
  exists di dj : Q,
    (di <= dj)%Q
    /\ (forall k, 0 <= k < 3 ->
          position_of (@updateVertexPositions approxMath pair_heap pair_mesh
                         magnified_options) pair_mesh 0 k
          = fround (ray_of (@updateVertexPositions approxMath pair_heap
                              pair_mesh magnified_options) pair_mesh 0 k * di))
    /\ (forall k, 0 <= k < 3 ->
          position_of (@updateVertexPositions approxMath pair_heap pair_mesh
                         magnified_options) pair_mesh 1 k
          = fround (ray_of (@updateVertexPositions approxMath pair_heap
                              pair_mesh magnified_options) pair_mesh 1 k * dj)).
Proof.
  destruct (@remap_linear_monotone approxMath pair_heap pair_mesh
              magnified_options 0 1
              pair_descriptor ltac:(discriminate) ltac:(vm_compute; congruence)
              ltac:(vm_compute; split; congruence)
              ltac:(vm_compute; split; congruence)
              ltac:(vm_compute; congruence))
    as (di & dj & Hle & Hi & Hj & _).
  exists di, dj. split; [exact Hle | split; [exact Hi | exact Hj]].
Defined.

(** The z components the remap stores for the two vertices of
    [pair_mesh]: depth 2 on the axis, and the far clip 5 on the oblique
    ray, whose z component is the binary32 rounding of [-0.8]. *)
Example remap_pair_positions :
  (position_of (@updateVertexPositions approxMath pair_heap pair_mesh
                  magnified_options) pair_mesh 0 2 == - (2))%Q
  /\ (position_of (@updateVertexPositions approxMath pair_heap pair_mesh
                     magnified_options) pair_mesh 1 2 == - (4))%Q
  /\ ~ (ray_of pair_heap pair_mesh 1 2 * 5 == - (4))%Q.
Proof. repeat split; vm_compute; congruence. Qed.

(** The field of view at the centre offset -1, with [Math.PI] 355/113. *)
Lemma computeVerticalFov_range_witness :
  (@MIN_FOV_Y approxMath <= @computeVerticalFov approxMath (- (1))
   <= @MAX_FOV_Y approxMath)%Q.
Proof.
  refine (proj1 (@computeVerticalFov_range approxMath (- (1)) 0 _)).
  vm_compute. congruence.
Defined.

